(** * Root finding for scalar nonlinear equations

    A shallow embedding of [nonlinear_solvers/solvers.py]: the Newton-Raphson
    iteration [newton_raphson], the bisection [bisection] and the composite
    [solve] that tries the first and falls back to the second.

    The Python functions are duck-typed over the numbers they are given, so
    the embedding is written once over an interface of the arithmetic the
    source uses ([PyNum]) and is run at two carriers: IEEE-754 binary64
    (Python's [float], through Rocq's primitive floats) and exact rationals
    (Python's [fractions.Fraction]).  Raised exceptions, the text printed by
    [solve] and the calls made to the two callables are kept in an explicit
    outcome-and-trace monad. *)

From Stdlib Require Import ZArith QArith Qabs Bool List String Lia Lqa.
From Stdlib Require Import Floats.
Import ListNotations.

Set Implicit Arguments.
Local Open Scope Z_scope.

(** ** The numbers of the program *)

(** The operations [solvers.py] applies to its numbers: the literals [0] and
    [2], [+], [-], [*], [/], [abs], [>], and [==] (the zero test of a true
    division).  [leb] is Python's [<=]; the code never calls it, the
    specification's tolerance contract is written with it. *)
Class PyNum : Type := {
  num : Type;
  zero : num;
  two : num;
  add : num -> num -> num;
  sub : num -> num -> num;
  mul : num -> num -> num;
  div : num -> num -> num;
  abs : num -> num;
  gtb : num -> num -> bool;
  leb : num -> num -> bool;
  eqb : num -> num -> bool;
  two_nonzero : eqb two zero = false
}.

(** Python's [float]: binary64 with round-to-nearest-even; [a > b] is false as
    soon as one side is NaN, [-0.0 == 0] holds. *)
#[local] Instance float64 : PyNum := {|
  num := float;
  zero := 0%float;
  two := 2%float;
  add := PrimFloat.add;
  sub := PrimFloat.sub;
  mul := PrimFloat.mul;
  div := PrimFloat.div;
  abs := PrimFloat.abs;
  gtb := fun a b => PrimFloat.ltb b a;
  leb := PrimFloat.leb;
  eqb := PrimFloat.eqb;
  two_nonzero := eq_refl
|}.

(** Python's [fractions.Fraction]: exact rationals kept in lowest terms. *)
#[local] Instance fraction : PyNum := {|
  num := Q;
  zero := 0%Q;
  two := 2%Q;
  add := fun a b => Qred (a + b);
  sub := fun a b => Qred (a - b);
  mul := fun a b => Qred (a * b);
  div := fun a b => Qred (a / b);
  abs := fun a => Qred (Qabs a);
  gtb := fun a b => negb (Qle_bool a b);
  leb := Qle_bool;
  eqb := Qeq_bool;
  two_nonzero := eq_refl
|}.

(** What is at most [b] is not above [b]: a fact of the order that holds at
    both carriers. *)
Definition le_excludes_gt (N : PyNum) : Prop :=
  forall a b : num, leb a b = true -> gtb a b = false.

(** [a] and [b] compare one way or the other.  Fractions always do; a float
    NaN is neither above nor below anything. *)
Definition comparable {N : PyNum} (a b : num) : bool := leb a b || gtb a b.

(** ** Exceptions, outcomes and the trace *)

Inductive exn : Type :=
| ConvergenceError (msg : string)
| ValueError (msg : string)
| ZeroDivisionError
| OtherError (name : string).

Definition is_ConvergenceError (e : exn) : bool :=
  match e with ConvergenceError _ => true | _ => false end.

(** What a call of a Python function ends in.  [OutOfFuel] is the model's own:
    it marks a loop cut off by the recursion bound and is shown below never to
    be produced by the three solvers. *)
Inductive outcome (A : Type) : Type :=
| Value (a : A)
| Raised (e : exn)
| OutOfFuel.

Arguments Value {A} a.
Arguments Raised {A} e.
Arguments OutOfFuel {A}.

Section Solvers.

Context {N : PyNum}.

(** A callable handed to the solvers returns a number or raises. *)
Inductive reply : Type :=
| Returns (v : num)
| Raises (e : exn).

Definition callable : Type := num -> reply.

(** A callable that always returns, built from a total function. *)
Definition total (F : num -> num) : callable := fun x => Returns (F x).

(** What can be observed of a run: the lines [solve] prints and, as
    instrumentation, each call of [f] and of [df] with its argument. *)
Inductive event : Type :=
| Printed (line : string)
| CallF (x : num)
| CallDf (x : num).

Definition trace : Type := list event.

Definition M (A : Type) : Type := trace -> outcome A * trace.

Definition ret {A} (a : A) : M A := fun w => (Value a, w).

Definition raise {A} (e : exn) : M A := fun w => (Raised e, w).

Definition bind {A B} (m : M A) (k : A -> M B) : M B :=
  fun w =>
    match m w with
    | (Value a, w') => k a w'
    | (Raised e, w') => (Raised e, w')
    | (OutOfFuel, w') => (OutOfFuel, w')
    end.

Definition emit (e : event) : M unit := fun w => (Value tt, w ++ [e]).

Definition print (line : string) : M unit := emit (Printed line).

Definition of_reply (r : reply) : M num :=
  match r with
  | Returns v => ret v
  | Raises e => raise e
  end.

Definition call_f (f : callable) (x : num) : M num :=
  bind (emit (CallF x)) (fun _ => of_reply (f x)).

Definition call_df (df : callable) (x : num) : M num :=
  bind (emit (CallDf x)) (fun _ => of_reply (df x)).

(** Python's [a / b]: a zero divisor raises. *)
Definition truediv (a b : num) : M num :=
  if eqb b zero then raise ZeroDivisionError else ret (div a b).

(** [try: m except ConvergenceError: h] *)
Definition except_ConvergenceError {A} (m h : M A) : M A :=
  fun w =>
    match m w with
    | (Raised e, w') => if is_ConvergenceError e then h w' else (Raised e, w')
    | r => r
    end.

(** [while cond: body], cut off after [fuel] tests of the condition. *)
Fixpoint while {S : Type} (fuel : nat) (cond : S -> M bool) (body : S -> M S)
    (s : S) : M S :=
  match fuel with
  | O => fun w => (OutOfFuel, w)
  | Datatypes.S fuel' =>
      bind (cond s) (fun c =>
        if c then bind (body s) (while fuel' cond body) else ret s)
  end.

End Solvers.

Declare Scope py_scope.
Delimit Scope py_scope with py.
Notation "x <- m ;; k" := (bind m (fun x => k))
  (at level 61, m at next level, right associativity) : py_scope.
Notation "' p <- m ;; k" := (bind m (fun p => k))
  (at level 61, p pattern, m at next level, right associativity) : py_scope.
Notation "m ;;; k" := (bind m (fun _ => k))
  (at level 61, right associativity) : py_scope.
Local Open Scope py_scope.

Section Code.

Context {N : PyNum}.

(** A bound on the number of times a loop capped by [max_its] tests its
    condition when the counter starts at 1. *)
Definition loop_fuel (max_its : Z) : nat := Datatypes.S (Z.to_nat max_its).

(** *** newton_raphson *)

(** [(abs(f(x)) > eps) & (k <= max_its)]: [&] evaluates both sides. *)
Definition newton_cond (f : callable) (eps : num) (max_its : Z)
    (s : num * Z) : M bool :=
  let '(x, k) := s in
  fx <- call_f f x ;;
  ret (gtb (abs fx) eps && (k <=? max_its)).

(** [x = x - f(x) / df(x); k += 1] *)
Definition newton_body (f df : callable) (s : num * Z) : M (num * Z) :=
  let '(x, k) := s in
  fx <- call_f f x ;;
  dfx <- call_df df x ;;
  q <- truediv fx dfx ;;
  ret (sub x q, k + 1).

Definition newton_loop (f df : callable) (eps : num) (max_its : Z)
    (s : num * Z) : M (num * Z) :=
  while (loop_fuel max_its) (newton_cond f eps max_its) (newton_body f df) s.

Definition newton_raphson (f df : callable) (x_0 eps : num) (max_its : Z)
    : M num :=
  '(x, k) <- newton_loop f df eps max_its (x_0, 1) ;;
  fx <- call_f f x ;;
  if (k =? max_its + 1) && gtb (abs fx) eps
  then raise (ConvergenceError "Max Iteration Reached")
  else ret x.

(** *** bisection *)

(** The loop state of [bisection]: the bracket [a], [b], the midpoint [c]
    and the counter [k]. *)
Record bracket : Type := Bracket {
  br_a : num;
  br_b : num;
  br_c : num;
  br_k : Z
}.

(** [c = (a + b) / 2] *)
Definition midpoint (a b : num) : M num := truediv (add a b) two.

Definition bisection_cond (f : callable) (eps : num) (max_its : Z)
    (s : bracket) : M bool :=
  fc <- call_f f (br_c s) ;;
  ret (gtb (abs fc) eps && (br_k s <=? max_its)).

Definition bisection_body (f : callable) (s : bracket) : M bracket :=
  fa <- call_f f (br_a s) ;;
  fc <- call_f f (br_c s) ;;
  let a := if gtb (mul fa fc) zero then br_c s else br_a s in
  let b := if gtb (mul fa fc) zero then br_b s else br_c s in
  let k := br_k s + 1 in
  c <- midpoint a b ;;
  ret (Bracket a b c k).

Definition bisection_loop (f : callable) (eps : num) (max_its : Z)
    (s : bracket) : M bracket :=
  while (loop_fuel max_its) (bisection_cond f eps max_its) (bisection_body f) s.

Definition bisection (f : callable) (x_0 x_1 eps : num) (max_its : Z)
    : M num :=
  let k := 1 in
  let a := x_0 in
  let b := x_1 in
  c <- midpoint a b ;;
  fa <- call_f f a ;;
  fb <- call_f f b ;;
  if gtb (mul fa fb) zero
  then raise (ValueError "Input are of the same sign")
  else
    s <- bisection_loop f eps max_its (Bracket a b c k) ;;
    fc <- call_f f (br_c s) ;;
    if (br_k s =? max_its + 1) && gtb (abs fc) eps
    then raise (ConvergenceError "Max Iteration Reached")
    else ret (br_c s).

(** *** solve *)

Definition solve (f df : callable) (x_0 x_1 eps : num)
    (max_its_n max_its_b : Z) : M num :=
  except_ConvergenceError
    (print "Attempting division by Newton Raphson" ;;;
     newton_raphson f df x_0 eps max_its_n)
    (print "Attempting division by Bisection" ;;;
     bisection f x_0 x_1 eps max_its_b).

End Code.

(** ** Iterations of a loop *)

(** [iterations cond body n (s, w) (s', w')]: started in state [s] with trace
    [w], the loop [while cond: body] goes [n] times through its body, the
    condition holding before each of them, and is then in state [s'] with
    trace [w']. *)
Inductive iterations {N : PyNum} {S : Type} (cond : S -> M bool)
    (body : S -> M S) : nat -> S * trace -> S * trace -> Prop :=
| iterations_O c : iterations cond body 0 c c
| iterations_S n s w w1 s1 w2 c :
    cond s w = (Value true, w1) ->
    body s w1 = (Value s1, w2) ->
    iterations cond body n (s1, w2) c ->
    iterations cond body (Datatypes.S n) (s, w) c.

(** ** The two methods as the specification words them *)

Section Specification.

Context {N : PyNum}.

(** A method converges to an estimate or fails to converge. *)
Inductive verdict : Type :=
| Converged (x : num)
| ConvergenceFailure.

Variables (F DF : num -> num) (eps : num) (max_iterations : Z).

(** Derivative Iteration, from an estimate [x] and an iteration count [k]:
    update [x] to [x - f(x)/df(x)] while [|f(x)| > eps] and the count has not
    exceeded the cap, the count going up by one per update; return [x] as soon
    as [|f(x)| <= eps]; fail when the count exceeds the cap while
    [|f(x)| > eps] still holds. *)
Inductive derivative_iteration : num -> Z -> verdict -> Prop :=
| DI_return x k :
    leb (abs (F x)) eps = true ->
    derivative_iteration x k (Converged x)
| DI_update x k v :
    gtb (abs (F x)) eps = true ->
    k <= max_iterations ->
    eqb (DF x) zero = false ->
    derivative_iteration (sub x (div (F x) (DF x))) (k + 1) v ->
    derivative_iteration x k v
| DI_fail x k :
    gtb (abs (F x)) eps = true ->
    max_iterations < k ->
    derivative_iteration x k ConvergenceFailure.

Definition mid (a b : num) : num := div (add a b) two.

(** Bracketing Iteration, from a bracket [a], [b] and a count [k], with
    midpoint [c = (a+b)/2]: while [|f(c)| > eps] and the count is at most the
    cap, replace [a] by [c] when [f(a)*f(c) > 0] and [b] by [c] otherwise;
    return [c] when [|f(c)| <= eps]; fail when the cap is exceeded while
    [|f(c)| > eps]. *)
Inductive bracketing_iteration : num -> num -> Z -> verdict -> Prop :=
| BI_return a b k :
    leb (abs (F (mid a b))) eps = true ->
    bracketing_iteration a b k (Converged (mid a b))
| BI_replace_a a b k v :
    gtb (abs (F (mid a b))) eps = true ->
    k <= max_iterations ->
    gtb (mul (F a) (F (mid a b))) zero = true ->
    bracketing_iteration (mid a b) b (k + 1) v ->
    bracketing_iteration a b k v
| BI_replace_b a b k v :
    gtb (abs (F (mid a b))) eps = true ->
    k <= max_iterations ->
    gtb (mul (F a) (F (mid a b))) zero = false ->
    bracketing_iteration a (mid a b) (k + 1) v ->
    bracketing_iteration a b k v
| BI_fail a b k :
    gtb (abs (F (mid a b))) eps = true ->
    max_iterations < k ->
    bracketing_iteration a b k ConvergenceFailure.

(** The verdict an outcome of the code stands for, if any. *)
Definition realises (o : outcome num) (v : verdict) : Prop :=
  match v with
  | Converged x => o = Value x
  | ConvergenceFailure => exists msg, o = Raised (ConvergenceError msg)
  end.

End Specification.

(** ** Properties of a run stated over a carrier *)

Section Statements.

Context {N : PyNum}.

(** [y] lies in the closed interval between [x_0] and [x_1]. *)
Definition between (x_0 x_1 y : num) : bool :=
  (leb x_0 y && leb y x_1) || (leb x_1 y && leb y x_0).

(** [2^k], built from the literal [2] of the carrier. *)
Fixpoint pow2 (k : nat) : num :=
  match k with
  | O => div two two
  | Datatypes.S k' => mul two (pow2 k')
  end.

(** The state in which [bisection] enters its loop. *)
Definition bisection_start (x_0 x_1 : num) : bracket :=
  Bracket x_0 x_1 (mid x_0 x_1) 1.

(** A bracket is valid when the sign check of [bisection] passes. *)
Definition valid_bracket (F : num -> num) (x_0 x_1 : num) : Prop :=
  gtb (mul (F x_0) (F x_1)) zero = false.

(** After [k] iterations the bracket is [2^k] times narrower than at the
    start. *)
Definition halves_each_iteration : Prop :=
  forall (F : num -> num) (x_0 x_1 eps : num) (max_its : Z) (k : nat)
         (w w' : trace) (s : bracket),
    valid_bracket F x_0 x_1 ->
    iterations (bisection_cond (total F) eps max_its)
      (bisection_body (total F)) k (bisection_start x_0 x_1, w) (s, w') ->
    eqb (abs (sub (br_b s) (br_a s)))
        (div (abs (sub x_1 x_0)) (pow2 k)) = true.

(** Every bracket end and midpoint stays between the initial ends. *)
Definition stays_in_bracket : Prop :=
  forall (F : num -> num) (x_0 x_1 eps : num) (max_its : Z) (k : nat)
         (w w' : trace) (s : bracket),
    valid_bracket F x_0 x_1 ->
    iterations (bisection_cond (total F) eps max_its)
      (bisection_body (total F)) k (bisection_start x_0 x_1, w) (s, w') ->
    between x_0 x_1 (br_a s) = true /\
    between x_0 x_1 (br_b s) = true /\
    between x_0 x_1 (br_c s) = true.

(** The tolerance contract: a returned value [r] has [|f(r)| <= eps]. *)
Definition tolerance_contract : Prop :=
  forall (F DF : num -> num) (x_0 x_1 eps : num) (max_its_n max_its_b : Z)
         (w : trace) (r : num),
    gtb eps zero = true ->
    0 < max_its_n ->
    0 < max_its_b ->
    fst (newton_raphson (total F) (total DF) x_0 eps max_its_n w) = Value r \/
    fst (bisection (total F) x_0 x_1 eps max_its_b w) = Value r \/
    fst (solve (total F) (total DF) x_0 x_1 eps max_its_n max_its_b w)
    = Value r ->
    leb (abs (F r)) eps = true.

(** The line announcing the bisection attempt does not occur in a trace. *)
Definition bisection_not_attempted (w : trace) : Prop :=
  ~ In (Printed "Attempting division by Bisection") w.

(** No call of [df] occurs in a trace. *)
Definition df_not_called (w : trace) : Prop :=
  forall x, ~ In (CallDf x) w.

End Statements.

(** ** Example inputs *)

Module Examples.

(** [x^2 - 2] and its derivative, over floats. *)
Definition parabola (x : float) : float := (x * x - 2)%float.

Definition parabola' (x : float) : float := (2 * x)%float.

(** [x^3 - x^2]: at [1e200] both powers overflow and their difference is
    NaN. *)
Definition cubic (x : float) : float := (x * x * x - x * x)%float.

Definition cubic' (x : float) : float := (3 * x * x - 2 * x)%float.

(** [x - 1.5e308], whose root [1.5e308] lies between [1e308] and
    [1.7e308]. *)
Definition far_line (x : float) : float := (x - 0x1.ab36d48e1acf0p+1023)%float.

(** [x - 1 - 2^-53], with its root between [1] and the next float. *)
Definition near_one (x : float) : float := (x - 1 - 0x1p-53)%float.

(** The tolerance [1e-5] that the source takes by default. *)
Definition default_eps : float := 0x1.4f8b588e368f1p-17%float.

(** [1e200], [1e308] and [1.7e308]. *)
Definition f1e200 : float := 0x1.4e718d7d7625ap+664%float.

Definition f1e308 : float := 0x1.1ccf385ebc8a0p+1023%float.

Definition f17e307 : float := 0x1.e42d130773b76p+1023%float.

(** The float after [1], and a tolerance below the spacing of floats
    there. *)
Definition after_one : float := 0x1.0000000000001p+0%float.

Definition tiny_eps : float := 0x1p-60%float.

(** The float nearest to the square root of 2, and the estimate
    [1.4142156862745099] that Newton-Raphson reaches from [1]. *)
Definition sqrt2 : float := 0x1.6a09e667f3bcdp+0%float.

Definition newton_sqrt2 : float := 0x1.6a0a0a0a0a0a1p+0%float.

(** A derivative that raises whenever it is called. *)
Definition faulty : @callable float64 :=
  fun _ => @Raises float64 (OtherError "RuntimeError").

(** [x^3 - 2x + 2] and its derivative: from [0] the Newton iterates go
    [0, 1, 0, 1, ...]. *)
Definition cycle (x : float) : float := (x * x * x - 2 * x + 2)%float.

Definition cycle' (x : float) : float := (3 * x * x - 2)%float.

(** [x^3 - 3x + 3] and its derivative: from [0] the first Newton iterate is
    [1], where the derivative is zero. *)
Definition bump (x : float) : float := (x * x * x - 3 * x + 3)%float.

Definition bump' (x : float) : float := (3 * x * x - 3)%float.

(** [f(x) = x], whose root [0] is the left end of the bracket [0, 4]. *)
Definition identity (x : float) : float := x.

(** The value [-1.7692928314208984] that [bisection] reaches for [cycle]
    over [0, -2]. *)
Definition cycle_root : float := (- 0x1.c4f06p+0)%float.

(** The tolerance [0.2]. *)
Definition coarse_eps : float := 0x1.999999999999ap-3%float.





(** [x^2 - 2] and its derivative, over fractions. *)
Definition qparabola (x : Q) : Q := Qred (x * x - 2).

Definition qparabola' (x : Q) : Q := Qred (2 * x).

(** The line [f(x) = m*x + q] and its derivative, over fractions. *)
Definition line (m q x : Q) : Q := (m * x + q)%Q.

Definition slope (m : Q) (_ : Q) : Q := m.

(** The loop state of [bisection] on [qparabola] over [1, 2] with tolerance
    [1/10], after two iterations. *)
Definition qstate2 : @bracket fraction :=
  @Bracket fraction (5 # 4) (3 # 2) (11 # 8) 3.

End Examples.

(** ** Vocabulary of the proofs *)

Section Vocabulary.

Context {N : PyNum}.

(** [m] reads nothing of the trace: it appends the same events and ends the
    same way whatever was recorded before. *)
Definition appends {A} (m : M A) : Prop :=
  forall w, m w = (fst (m []), w ++ snd (m [])).

(** [m] is never cut off by the recursion bound. *)
Definition terminates {A} (m : M A) : Prop :=
  forall w, fst (m w) <> OutOfFuel.

(** [newton_raphson] taken up in the loop state [s] with [fuel] tests of the
    condition left; [newton_raphson] itself is [newton_from] at [(x_0, 1)]
    and [loop_fuel max_its]. *)
Definition newton_from (f df : callable) (eps : num) (max_its : Z)
    (s : num * Z) (fuel : nat) : M num :=
  '(x, k) <- while fuel (newton_cond f eps max_its) (newton_body f df) s ;;
  fx <- call_f f x ;;
  if (k =? max_its + 1) && gtb (abs fx) eps
  then raise (ConvergenceError "Max Iteration Reached")
  else ret x.

(** The part of [bisection] after the sign check, taken up in the loop state
    [s]. *)
Definition bisection_from (f : callable) (eps : num) (max_its : Z)
    (s : bracket) (fuel : nat) : M num :=
  s' <- while fuel (bisection_cond f eps max_its) (bisection_body f) s ;;
  fc <- call_f f (br_c s') ;;
  if (br_k s' =? max_its + 1) && gtb (abs fc) eps
  then raise (ConvergenceError "Max Iteration Reached")
  else ret (br_c s').

(** The loop state one iteration of [bisection] after [s], for a callable
    that returns [F]. *)
Definition bisection_next (F : num -> num) (s : bracket) : bracket :=
  let g := gtb (mul (F (br_a s)) (F (br_c s))) zero in
  let a := if g then br_c s else br_a s in
  let b := if g then br_b s else br_c s in
  Bracket a b (mid a b) (br_k s + 1).

(** [m] does not print the line that announces the bisection attempt. *)
Definition silent {A} (m : M A) : Prop :=
  forall w, bisection_not_attempted w -> bisection_not_attempted (snd (m w)).

End Vocabulary.

Create HintDb appends.

(** ** Reading a trace *)

Section Reading.

Context {N : PyNum}.

Definition is_CallF (e : event) : bool :=
  match e with CallF _ => true | _ => false end.

Definition is_CallDf (e : event) : bool :=
  match e with CallDf _ => true | _ => false end.

(** The number of calls of [f], and of [df], recorded in a trace. *)
Definition calls_f (w : trace) : nat := List.length (filter is_CallF w).

Definition calls_df (w : trace) : nat := List.length (filter is_CallDf w).

(** The lines printed, in order. *)
Definition printed (w : trace) : list string :=
  flat_map (fun e => match e with Printed line => [line] | _ => [] end) w.

(** [m] prints nothing. *)
Definition prints_nothing {A} (m : M A) : Prop :=
  forall w, printed (snd (m w)) = printed w.


(** The bracket with its ends exchanged. *)
Definition mirror (s : bracket) : bracket :=
  Bracket (br_b s) (br_a s) (br_c s) (br_k s).

End Reading.

(** ** Binary64 values *)

(** The floats of [solvers.py] are read through their specification
    [Prim2SF], in units of [2^-1074]: every finite binary64 number is a whole
    number of these units. *)

(** Neither infinite nor NaN. *)
Definition SFfinite (x : spec_float) : bool :=
  match x with
  | S754_zero _ | S754_finite _ _ _ => true
  | _ => false
  end.

(** The value of a finite float in units of [2^-1074]; [0] for the others. *)
Definition Zval (x : spec_float) : Z :=
  match x with
  | S754_finite s m e => cond_Zopp s (Zpos m * 2 ^ (e + 1074))
  | _ => 0
  end.

Definition units (x : float) : Z := Zval (Prim2SF x).

(** The largest finite float, in units of [2^-1074]. *)
Definition Zmax : Z := (2 ^ 53 - 1) * 2 ^ 2045.

(** The literal [2] of the midpoint [(a + b) / 2]. *)
Definition SFtwo : spec_float := S754_finite false 4503599627370496 (-51).

(** In absolute value below [2^1023]: the float can be doubled without
    overflow. *)
Definition can_double (x : float) : bool :=
  PrimFloat.ltb (PrimFloat.abs x) 0x1p1023%float.

(** The exponent, counted from [-1074], of the last bit that the format
    keeps of a number with the integer part [p] at the exponent [E]. *)
Definition target (p E : Z) : Z := Z.max (Zdigits2 p + E - 53) 0.

(** [b] is [a] shifted right by [k] bits; the two flags stay clear when
    they were clear and only zero bits are shifted out. *)
Definition shifted (k : Z) (a b : shr_record) : Prop :=
  shr_m b = shr_m a / 2 ^ k /\
  (shr_r a = false -> shr_s a = false -> shr_m a mod 2 ^ k = 0 ->
   shr_r b = false /\ shr_s b = false).

(** [R] is a rounding of [N/D]: no number [m * 2^k] of the format lies
    strictly between them. *)
Definition rounding (N D R : Z) : Prop :=
  forall m k, Z.abs m < 2 ^ 53 -> 0 <= k ->
    (m * 2 ^ k * D <= N -> m * 2 ^ k <= R) /\
    (N <= m * 2 ^ k * D -> R <= m * 2 ^ k).

(** The float [y] is what [N/D] is rounded to: it has the value of a
    rounding [R] of [N/D], or is infinite when [R] has reached [2^1024]. *)
Definition rounds_to (N D : Z) (y : spec_float) : Prop :=
  exists R,
    rounding N D R /\
    (Z.abs R < 2 ^ 2098 -> SFfinite y = true) /\
    (SFfinite y = true -> Zval y = R).

(** * Properties *)

(** ** The order of the two carriers *)

(** Comparing floats the other way round gives the opposite answer. *)
Lemma SFcompare_antisym (x y : spec_float) :
  SFcompare y x = option_map CompOpp (SFcompare x y).
Proof.
  destruct x as [sx|sx| |sx mx ex], y as [sy|sy| |sy my ey]; simpl;
    try reflexivity;
    try (destruct sx; reflexivity); try (destruct sy; reflexivity);
    try (destruct sx, sy; reflexivity).
  destruct sx, sy; simpl; try reflexivity;
    rewrite (Z.compare_antisym ex ey);
    destruct (ex ?= ey) eqn:E; simpl; try reflexivity;
    change (Pos.compare_cont Eq my mx) with (Pos.compare my mx);
    change (Pos.compare_cont Eq mx my) with (Pos.compare mx my);
    rewrite (Pos.compare_antisym mx my);
    destruct (Pos.compare mx my); reflexivity.
Qed.

Lemma float64_le_excludes_gt : le_excludes_gt float64.
Proof.
  intros a b; simpl.
  rewrite leb_spec, ltb_spec. unfold SFleb, SFltb.
  rewrite (SFcompare_antisym (Prim2SF a) (Prim2SF b)).
  destruct (SFcompare (Prim2SF a) (Prim2SF b)) as [[]|]; simpl; congruence.
Qed.

(** A float equal to itself is not NaN, and floats that are not NaN compare
    one way or the other. *)
Lemma SFeqb_refl_not_nan (x : spec_float) :
  SFeqb x x = true -> x <> S754_nan.
Proof. intros H ->. discriminate H. Qed.

Lemma SFcompare_not_nan (x y : spec_float) :
  x <> S754_nan -> y <> S754_nan -> exists c, SFcompare x y = Some c.
Proof.
  intros Hx Hy.
  destruct x as [sx|sx| |sx mx ex], y as [sy|sy| |sy my ey]; simpl;
    try congruence; eexists; reflexivity.
Qed.

Lemma float64_not_nan (a : float) :
  PrimFloat.is_nan a = false -> Prim2SF a <> S754_nan.
Proof.
  unfold PrimFloat.is_nan. rewrite eqb_spec. intros H.
  apply SFeqb_refl_not_nan. destruct (SFeqb _ _); [reflexivity|discriminate].
Qed.

Lemma float64_comparable (a b : float) :
  PrimFloat.is_nan a = false -> PrimFloat.is_nan b = false ->
  @comparable float64 a b = true.
Proof.
  intros Ha Hb. apply float64_not_nan in Ha. apply float64_not_nan in Hb.
  unfold comparable; simpl. rewrite leb_spec, ltb_spec. unfold SFleb, SFltb.
  rewrite (SFcompare_antisym (Prim2SF a) (Prim2SF b)).
  destruct (SFcompare_not_nan Ha Hb) as [c ->]. destruct c; reflexivity.
Qed.

Lemma float64_abs_not_nan (a : float) :
  PrimFloat.is_nan a = false -> PrimFloat.is_nan (PrimFloat.abs a) = false.
Proof.
  intros Ha. apply float64_not_nan in Ha.
  unfold PrimFloat.is_nan. rewrite eqb_spec, abs_spec.
  destruct (Prim2SF a) as [s|s| |s m e]; simpl; try congruence;
    try reflexivity.
  unfold SFeqb; simpl. rewrite Z.compare_refl, Pos.compare_cont_refl.
  reflexivity.
Qed.

Lemma float64_positive_not_nan (a : float) :
  @gtb float64 a (@zero float64) = true -> PrimFloat.is_nan a = false.
Proof.
  simpl. rewrite ltb_spec. unfold SFltb. intros H.
  unfold PrimFloat.is_nan. rewrite eqb_spec. unfold SFeqb.
  destruct (Prim2SF a) as [s|s| |s m e]; simpl in *; try discriminate;
    try (destruct s; reflexivity).
  destruct s; [discriminate|].
  rewrite Z.compare_refl, Pos.compare_cont_refl. reflexivity.
Qed.

Lemma fraction_le_excludes_gt : le_excludes_gt fraction.
Proof.
  intros a b; simpl. intros H. rewrite H. reflexivity.
Qed.

(** Over the rationals the order is total: what is not above is below. *)
Lemma fraction_comparable (a b : Q) : @comparable fraction a b = true.
Proof.
  unfold comparable; simpl. destruct (Qle_bool a b); reflexivity.
Qed.

(** ** The monad and the loop *)

Section Monad.

Context {N : PyNum}.

Lemma bind_Value_inv {A B} (m : M A) (k : A -> M B) w b w' :
  bind m k w = (Value b, w') ->
  exists a w1, m w = (Value a, w1) /\ k a w1 = (Value b, w').
Proof.
  unfold bind. destruct (m w) as [[a|e|] w1]; intros H; try discriminate.
  exists a, w1; split; [reflexivity | exact H].
Qed.

Lemma call_f_total (F : num -> num) x w :
  call_f (total F) x w = (Value (F x), w ++ [CallF x]).
Proof. reflexivity. Qed.

Lemma midpoint_run a b w : midpoint a b w = (Value (mid a b), w).
Proof. unfold midpoint, truediv. rewrite two_nonzero. reflexivity. Qed.

(** A loop that goes [n] times through its body is the loop started after
    them, on [n] fewer units of fuel. *)
Lemma while_iterations {S} (cond : S -> M bool) (body : S -> M S) n :
  forall fuel c c',
    iterations cond body n c c' ->
    while (n + fuel) cond body (fst c) (snd c)
    = while fuel cond body (fst c') (snd c').
Proof.
  induction n as [|n IH]; intros fuel c c' H;
    inversion H as [|n' s w w1 s1 w2 c0 Hc Hb Hit]; subst.
  - reflexivity.
  - cbn [while Nat.add fst snd]. unfold bind at 1. rewrite Hc.
    unfold bind at 1. rewrite Hb. apply (IH fuel _ _ Hit).
Qed.

(** A loop that ends went some number of times through its body and then
    found its condition false. *)
Lemma while_Value_inv {S} (cond : S -> M bool) (body : S -> M S) fuel :
  forall s w s' w',
    while fuel cond body s w = (Value s', w') ->
    exists n w0,
      (n < fuel)%nat /\
      iterations cond body n (s, w) (s', w0) /\
      cond s' w0 = (Value false, w').
Proof.
  induction fuel as [|fuel IH]; intros s w s' w' H; simpl in H.
  - discriminate.
  - apply bind_Value_inv in H. destruct H as ([|] & w1 & Hc & H).
    + apply bind_Value_inv in H. destruct H as (s1 & w2 & Hb & H).
      destruct (IH _ _ _ _ H) as (n & w0 & Hn & Hit & Hex).
      exists (Datatypes.S n), w0. split; [lia|]. split; [|exact Hex].
      eapply iterations_S; eassumption.
    + inversion H; subst. exists O, w. split; [lia|]. split; [constructor|].
      exact Hc.
Qed.

(** *** Runs do not depend on the trace they start from *)

Lemma appends_ret {A} (a : A) : appends (ret a).
Proof. intros w; unfold ret; simpl. rewrite app_nil_r. reflexivity. Qed.

Lemma appends_raise {A} e : appends (@raise _ A e).
Proof. intros w; unfold raise; simpl. rewrite app_nil_r. reflexivity. Qed.

Lemma appends_emit e : appends (emit e).
Proof. intros w; reflexivity. Qed.

Lemma appends_bind {A B} (m : M A) (k : A -> M B) :
  appends m -> (forall a, appends (k a)) -> appends (bind m k).
Proof.
  intros Hm Hk w. unfold bind. rewrite (Hm w).
  destruct (m []) as [[a|e|] t]; simpl; try reflexivity.
  rewrite (Hk a (w ++ t)), (Hk a t). simpl. rewrite app_assoc. reflexivity.
Qed.

Lemma appends_of_reply r : appends (of_reply r).
Proof. destruct r; [apply appends_ret | apply appends_raise]. Qed.

Lemma appends_call_f f x : appends (call_f f x).
Proof.
  apply appends_bind; [apply appends_emit | intros; apply appends_of_reply].
Qed.

Lemma appends_call_df df x : appends (call_df df x).
Proof.
  apply appends_bind; [apply appends_emit | intros; apply appends_of_reply].
Qed.

Lemma appends_truediv a b : appends (truediv a b).
Proof.
  unfold truediv. destruct (eqb b zero);
    [apply appends_raise | apply appends_ret].
Qed.

Lemma appends_while {S} (cond : S -> M bool) (body : S -> M S) :
  (forall s, appends (cond s)) -> (forall s, appends (body s)) ->
  forall fuel s, appends (while fuel cond body s).
Proof.
  intros Hc Hb. induction fuel as [|fuel IH]; intros s.
  - intros w; simpl. rewrite app_nil_r. reflexivity.
  - simpl. apply appends_bind; [apply Hc|]. intros [|].
    + apply appends_bind; [apply Hb | apply IH].
    + apply appends_ret.
Qed.

Lemma appends_except {A} (m h : M A) :
  appends m -> appends h -> appends (except_ConvergenceError m h).
Proof.
  intros Hm Hh w. unfold except_ConvergenceError. rewrite (Hm w).
  destruct (m []) as [[a|e|] t]; simpl; try reflexivity.
  destruct (is_ConvergenceError e); [|reflexivity].
  rewrite (Hh (w ++ t)), (Hh t). simpl. rewrite app_assoc. reflexivity.
Qed.

End Monad.

#[local] Hint Resolve appends_ret appends_raise appends_emit appends_of_reply
  appends_call_f appends_call_df appends_truediv : appends.

(** ** The solvers never run out of fuel *)

Section Termination.

Context {N : PyNum}.

Lemma terminates_bind {A B} (m : M A) (k : A -> M B) :
  terminates m -> (forall a, terminates (k a)) -> terminates (bind m k).
Proof.
  intros Hm Hk w. unfold bind. specialize (Hm w).
  destruct (m w) as [[a|e|] w1]; simpl in *;
    [apply Hk | discriminate | congruence].
Qed.

Lemma terminates_ret {A} (a : A) : terminates (ret a).
Proof. intros w; discriminate. Qed.

Lemma terminates_raise {A} e : terminates (@raise _ A e).
Proof. intros w; discriminate. Qed.

Lemma terminates_call_f f x : terminates (call_f f x).
Proof. intros w; unfold call_f, bind; simpl. destruct (f x); discriminate. Qed.

Lemma terminates_call_df df x : terminates (call_df df x).
Proof.
  intros w; unfold call_df, bind; simpl. destruct (df x); discriminate.
Qed.

Lemma terminates_truediv a b : terminates (truediv a b).
Proof. intros w; unfold truediv. destruct (eqb b zero); discriminate. Qed.

(** A loop whose body lowers a measure has enough fuel as soon as the fuel
    exceeds the measure. *)
Lemma terminates_while {S} (cond : S -> M bool) (body : S -> M S)
    (measure : S -> nat) :
  (forall s, terminates (cond s)) -> (forall s, terminates (body s)) ->
  (forall s w w1 s1 w2,
      cond s w = (Value true, w1) -> body s w1 = (Value s1, w2) ->
      (measure s1 < measure s)%nat) ->
  forall fuel s, (measure s < fuel)%nat -> terminates (while fuel cond body s).
Proof.
  intros Hc Hb Hdec. induction fuel as [|fuel IH]; intros s Hlt w; [lia|].
  simpl. unfold bind at 1. specialize (Hc s w).
  destruct (cond s w) as [[[|]|e|] w1] eqn:Ec; simpl in *;
    try discriminate; try congruence.
  unfold bind. specialize (Hb s w1).
  destruct (body s w1) as [[s1|e|] w2] eqn:Eb; simpl in *;
    try discriminate; try congruence.
  apply IH. specialize (Hdec _ _ _ _ _ Ec Eb). lia.
Qed.

Lemma terminates_newton_cond f eps max_its s :
  terminates (newton_cond f eps max_its s).
Proof.
  destruct s as [x k]. apply terminates_bind;
    [apply terminates_call_f | intros; apply terminates_ret].
Qed.

Lemma terminates_newton_body f df s : terminates (newton_body f df s).
Proof.
  destruct s as [x k].
  repeat (apply terminates_bind;
          [first [apply terminates_call_f | apply terminates_call_df
                 | apply terminates_truediv] | intros]).
  apply terminates_ret.
Qed.

Lemma newton_cond_true f eps max_its x k w w1 :
  newton_cond f eps max_its (x, k) w = (Value true, w1) -> k <= max_its.
Proof.
  unfold newton_cond, call_f, bind; simpl.
  destruct (f x); simpl; intros H; inversion H as [[Hc Hw]].
  apply andb_prop in Hc. destruct Hc as [_ Hk]. lia.
Qed.

Lemma newton_body_counter f df x k w s1 w1 :
  newton_body f df (x, k) w = (Value s1, w1) -> snd s1 = k + 1.
Proof.
  unfold newton_body, call_f, call_df, truediv, bind; simpl.
  destruct (f x) as [fx|]; simpl; try discriminate.
  destruct (df x) as [dfx|]; simpl; try discriminate.
  destruct (eqb dfx zero); simpl; try discriminate.
  intros H; inversion H; reflexivity.
Qed.

Lemma terminates_newton_from f df eps max_its x k fuel :
  (Z.to_nat (max_its + 1 - k) < fuel)%nat ->
  terminates (newton_from f df eps max_its (x, k) fuel).
Proof.
  intros Hfuel. unfold newton_from. apply terminates_bind.
  - apply terminates_while
      with (measure := fun s : num * Z => Z.to_nat (max_its + 1 - snd s));
      [apply terminates_newton_cond | apply terminates_newton_body | | exact Hfuel].
    intros [x' k'] w w1 s1 w2 Hc Hb.
    apply newton_cond_true in Hc. apply newton_body_counter in Hb.
    rewrite Hb. simpl. lia.
  - intros [x' k']. apply terminates_bind; [apply terminates_call_f|].
    intros fx. destruct ((k' =? max_its + 1) && gtb (abs fx) eps);
      [apply terminates_raise | apply terminates_ret].
Qed.

Lemma terminates_newton_raphson f df x_0 eps max_its :
  terminates (newton_raphson f df x_0 eps max_its).
Proof.
  apply (@terminates_newton_from f df eps max_its x_0 1 (loop_fuel max_its)).
  unfold loop_fuel. replace (max_its + 1 - 1) with max_its by lia. lia.
Qed.

Lemma terminates_midpoint a b : terminates (midpoint a b).
Proof. apply terminates_truediv. Qed.

Lemma terminates_bisection_cond f eps max_its s :
  terminates (bisection_cond f eps max_its s).
Proof.
  apply terminates_bind;
    [apply terminates_call_f | intros; apply terminates_ret].
Qed.

Lemma terminates_bisection_body f s : terminates (bisection_body f s).
Proof.
  unfold bisection_body.
  repeat (apply terminates_bind;
          [first [apply terminates_call_f | apply terminates_midpoint]
          | intros]).
  apply terminates_ret.
Qed.

Lemma bisection_cond_true f eps max_its s w w1 :
  bisection_cond f eps max_its s w = (Value true, w1) -> br_k s <= max_its.
Proof.
  unfold bisection_cond, call_f, bind; simpl.
  destruct (f (br_c s)); simpl; intros H; inversion H as [[Hc Hw]].
  apply andb_prop in Hc. destruct Hc as [_ Hk]. lia.
Qed.

Lemma bisection_body_counter f s w s1 w1 :
  bisection_body f s w = (Value s1, w1) -> br_k s1 = br_k s + 1.
Proof.
  unfold bisection_body, call_f, bind; simpl.
  destruct (f (br_a s)) as [fa|]; simpl; try discriminate.
  destruct (f (br_c s)) as [fc|]; simpl; try discriminate.
  rewrite midpoint_run. intros H; inversion H; reflexivity.
Qed.

Lemma terminates_bisection_from f eps max_its s fuel :
  (Z.to_nat (max_its + 1 - br_k s) < fuel)%nat ->
  terminates (bisection_from f eps max_its s fuel).
Proof.
  intros Hfuel. unfold bisection_from. apply terminates_bind.
  - apply terminates_while
      with (measure := fun s : bracket => Z.to_nat (max_its + 1 - br_k s));
      [apply terminates_bisection_cond | apply terminates_bisection_body
      | | exact Hfuel].
    intros s0 w w1 s1 w2 Hc Hb.
    apply bisection_cond_true in Hc. apply bisection_body_counter in Hb.
    rewrite Hb. lia.
  - intros s'. apply terminates_bind; [apply terminates_call_f|].
    intros fc. destruct ((br_k s' =? max_its + 1) && gtb (abs fc) eps);
      [apply terminates_raise | apply terminates_ret].
Qed.

Lemma terminates_bisection f x_0 x_1 eps max_its :
  terminates (bisection f x_0 x_1 eps max_its).
Proof.
  unfold bisection.
  apply terminates_bind; [apply terminates_midpoint | intros c].
  apply terminates_bind; [apply terminates_call_f | intros fa].
  apply terminates_bind; [apply terminates_call_f | intros fb].
  destruct (gtb (mul fa fb) zero); [apply terminates_raise|].
  apply (@terminates_bisection_from f eps max_its (Bracket x_0 x_1 c 1)
           (loop_fuel max_its)).
  unfold loop_fuel; simpl. replace (max_its + 1 - 1) with max_its by lia. lia.
Qed.

Lemma terminates_except {A} (m h : M A) :
  terminates m -> terminates h -> terminates (except_ConvergenceError m h).
Proof.
  intros Hm Hh w. unfold except_ConvergenceError. specialize (Hm w).
  destruct (m w) as [[a|e|] w1]; simpl in *; try discriminate; try congruence.
  destruct (is_ConvergenceError e); [apply Hh | discriminate].
Qed.

(** None of the three entry points is cut off by the recursion bound of the
    model, whatever the callables do: every run ends in a value or in an
    exception. *)
Theorem solvers_terminate (f df : callable) (x_0 x_1 eps : num)
    (max_its max_its_b : Z) :
  terminates (newton_raphson f df x_0 eps max_its) /\
  terminates (bisection f x_0 x_1 eps max_its) /\
  terminates (solve f df x_0 x_1 eps max_its max_its_b).
Proof.
  split; [apply terminates_newton_raphson|].
  split; [apply terminates_bisection|].
  apply terminates_except; (apply terminates_bind; [intros w; discriminate|]);
    intros _; [apply terminates_newton_raphson | apply terminates_bisection].
Qed.

End Termination.

(** ** Runs do not read the trace *)

Section Appends.

Context {N : PyNum}.

Lemma appends_newton_raphson f df x_0 eps max_its :
  appends (newton_raphson f df x_0 eps max_its).
Proof.
  unfold newton_raphson, newton_loop. apply appends_bind.
  - apply appends_while.
    + intros [x k]. apply appends_bind; auto with appends.
    + intros [x k]. unfold newton_body.
      repeat (apply appends_bind; [auto with appends | intros]).
      auto with appends.
  - intros [x k]. apply appends_bind; [auto with appends | intros fx].
    destruct ((k =? max_its + 1) && gtb (abs fx) eps); auto with appends.
Qed.

Lemma appends_bisection f x_0 x_1 eps max_its :
  appends (bisection f x_0 x_1 eps max_its).
Proof.
  unfold bisection, bisection_loop, midpoint.
  repeat (apply appends_bind; [auto with appends | intros]).
  destruct (gtb (mul a0 a1) zero); [auto with appends|].
  apply appends_bind.
  - apply appends_while.
    + intros s. apply appends_bind; auto with appends.
    + intros s. unfold bisection_body, midpoint.
      repeat (apply appends_bind; [auto with appends | intros]).
      auto with appends.
  - intros s. apply appends_bind; [auto with appends | intros fc].
    destruct ((br_k s =? max_its + 1) && gtb (abs fc) eps); auto with appends.
Qed.

Lemma appends_solve f df x_0 x_1 eps max_its_n max_its_b :
  appends (solve f df x_0 x_1 eps max_its_n max_its_b).
Proof.
  apply appends_except; apply appends_bind;
    try (intros; apply appends_newton_raphson);
    try (intros; apply appends_bisection);
    apply appends_emit.
Qed.

End Appends.

(** ** newton_raphson *)

Section Newton.

Context {N : PyNum}.

Variables (F DF : num -> num) (eps : num) (max_its : Z).

Lemma newton_raphson_from (f df : callable) x_0 :
  newton_raphson f df x_0 eps max_its
  = newton_from f df eps max_its (x_0, 1) (loop_fuel max_its).
Proof. reflexivity. Qed.

(** One test of the loop condition, with what follows it. *)
Lemma newton_from_step x k fuel w :
  newton_from (total F) (total DF) eps max_its (x, k) (Datatypes.S fuel) w =
  if gtb (abs (F x)) eps && (k <=? max_its) then
    if eqb (DF x) zero
    then (Raised ZeroDivisionError, w ++ [CallF x; CallF x; CallDf x])
    else newton_from (total F) (total DF) eps max_its
           (sub x (div (F x) (DF x)), k + 1) fuel
           (w ++ [CallF x; CallF x; CallDf x])
  else if (k =? max_its + 1) && gtb (abs (F x)) eps
    then (Raised (ConvergenceError "Max Iteration Reached"),
          w ++ [CallF x; CallF x])
    else (Value x, w ++ [CallF x; CallF x]).
Proof.
  unfold newton_from. cbn [while].
  unfold newton_cond, newton_body, call_f, call_df, total, truediv, bind,
    emit, of_reply, ret, raise.
  destruct (gtb (abs (F x)) eps && (k <=? max_its)).
  - destruct (eqb (DF x) zero); rewrite <- !app_assoc; reflexivity.
  - rewrite <- !app_assoc.
    destruct ((k =? max_its + 1) && gtb (abs (F x)) eps); reflexivity.
Qed.

(** What the specification's iteration concludes, the code concludes. *)
Lemma derivative_iteration_run (Hle : le_excludes_gt N) x k v :
  derivative_iteration F DF eps max_its x k v ->
  forall fuel w,
    k <= max_its + 1 ->
    (Z.to_nat (max_its + 1 - k) < fuel)%nat ->
    realises (fst (newton_from (total F) (total DF) eps max_its (x, k) fuel w))
             v.
Proof.
  induction 1 as [x k Hconv | x k v Hgt Hk Hdf _ IH | x k Hgt Hk];
    intros fuel w Hcap Hfuel;
    (destruct fuel as [|fuel]; [lia|]); rewrite newton_from_step.
  - rewrite (Hle _ _ Hconv). rewrite andb_false_r. reflexivity.
  - rewrite Hgt, Hdf. replace (k <=? max_its) with true
      by (symmetry; apply Z.leb_le; exact Hk).
    apply IH; lia.
  - rewrite Hgt. replace (k <=? max_its) with false
      by (symmetry; apply Z.leb_gt; exact Hk).
    replace (k =? max_its + 1) with true by (symmetry; apply Z.eqb_eq; lia).
    simpl. eexists; reflexivity.
Qed.

(** A convergence failure of the code is one of the specification. *)
Lemma newton_failure_inv fuel :
  forall x k w msg,
    fst (newton_from (total F) (total DF) eps max_its (x, k) fuel w)
    = Raised (ConvergenceError msg) ->
    derivative_iteration F DF eps max_its x k ConvergenceFailure.
Proof.
  induction fuel as [|fuel IH]; intros x k w msg H.
  - discriminate.
  - rewrite newton_from_step in H.
    destruct (gtb (abs (F x)) eps) eqn:Hgt; simpl in H.
    + destruct (k <=? max_its) eqn:Hk.
      * destruct (eqb (DF x) zero) eqn:Hdf; [discriminate|].
        apply DI_update; [exact Hgt | apply Z.leb_le; exact Hk | exact Hdf|].
        exact (IH _ _ _ _ H).
      * apply DI_fail; [exact Hgt | apply Z.leb_gt; exact Hk].
    + rewrite andb_false_r in H. discriminate.
Qed.

(** C4. Derivative Iteration as the specification words it is what
    [newton_raphson] computes: started at [x_0] with the count at 1, it makes
    the update [x - f(x)/df(x)] while [|f(x)| > eps] and the count is within
    the cap; it returns [x] as soon as [|f(x)| <= eps]; and it raises
    [ConvergenceError] exactly when the count has passed the cap with
    [|f(x)| > eps] still true. *)
Theorem newton_raphson_derivative_iteration (x_0 : num) (w : trace) :
  le_excludes_gt N ->
  0 < max_its ->
  (forall x,
      derivative_iteration F DF eps max_its x_0 1 (Converged x) ->
      fst (newton_raphson (total F) (total DF) x_0 eps max_its w) = Value x) /\
  (derivative_iteration F DF eps max_its x_0 1 ConvergenceFailure <->
   exists msg,
     fst (newton_raphson (total F) (total DF) x_0 eps max_its w)
     = Raised (ConvergenceError msg)).
Proof.
  intros Hle Hpos. rewrite newton_raphson_from.
  assert (Hfuel : (Z.to_nat (max_its + 1 - 1) < loop_fuel max_its)%nat)
    by (unfold loop_fuel; replace (max_its + 1 - 1) with max_its by lia; lia).
  split; [|split].
  - intros x H.
    apply (@derivative_iteration_run Hle _ _ _ H (loop_fuel max_its) w);
      [lia | exact Hfuel].
  - intros H.
    apply (@derivative_iteration_run Hle _ _ _ H (loop_fuel max_its) w);
      [lia | exact Hfuel].
  - intros [msg H]. exact (newton_failure_inv _ _ _ _ H).
Qed.

(** A value returned by the loop and the check after it fails the test
    [|f(x)| > eps], provided the counter started within the cap. *)
Lemma newton_from_Value fuel :
  forall x k w r,
    k <= max_its + 1 ->
    fst (newton_from (total F) (total DF) eps max_its (x, k) fuel w) = Value r ->
    gtb (abs (F r)) eps = false.
Proof.
  induction fuel as [|fuel IH]; intros x k w r Hk H.
  - discriminate.
  - rewrite newton_from_step in H.
    destruct (gtb (abs (F x)) eps) eqn:Hgt; simpl in H.
    + destruct (k <=? max_its) eqn:Hle.
      * destruct (eqb (DF x) zero); [discriminate|].
        apply Z.leb_le in Hle. eapply IH; [|exact H]. lia.
      * apply Z.leb_gt in Hle.
        replace (k =? max_its + 1) with true in H
          by (symmetry; apply Z.eqb_eq; lia).
        discriminate.
    + rewrite andb_false_r in H. simpl in H.
      inversion H; subst. exact Hgt.
Qed.

Lemma newton_raphson_Value x_0 w r :
  0 <= max_its ->
  fst (newton_raphson (total F) (total DF) x_0 eps max_its w) = Value r ->
  gtb (abs (F r)) eps = false.
Proof.
  intros Hpos. rewrite newton_raphson_from.
  apply newton_from_Value. lia.
Qed.

(** The counter of the loop is one more than the number of iterations
    made. *)
Lemma newton_iterations_counter (f df : callable) n c c' :
  iterations (newton_cond f eps max_its) (newton_body f df) n c c' ->
  snd (fst c') = snd (fst c) + Z.of_nat n.
Proof.
  induction 1 as [c|n [x k] w w1 s1 w2 c Hc Hb Hit IH]; simpl in *.
  - lia.
  - apply newton_body_counter in Hb. lia.
Qed.

(** The run of [newton_raphson] taken up after [n] iterations. *)
Lemma newton_from_iterations (f df : callable) n fuel c c' :
  iterations (newton_cond f eps max_its) (newton_body f df) n c c' ->
  newton_from f df eps max_its (fst c) (n + fuel) (snd c)
  = newton_from f df eps max_its (fst c') fuel (snd c').
Proof.
  intros H. unfold newton_from, bind.
  rewrite (while_iterations fuel H). reflexivity.
Qed.

(** An iterate with a zero derivative that the loop is about to update makes
    the call end in [ZeroDivisionError]. *)
Lemma newton_raphson_zero_derivative x_0 w n x k w' :
  iterations (newton_cond (total F) eps max_its)
    (newton_body (total F) (total DF)) n ((x_0, 1), w) ((x, k), w') ->
  gtb (abs (F x)) eps = true ->
  k <= max_its ->
  eqb (DF x) zero = true ->
  newton_raphson (total F) (total DF) x_0 eps max_its w
  = (Raised ZeroDivisionError, w' ++ [CallF x; CallF x; CallDf x]).
Proof.
  intros Hit Hgt Hk Hdf.
  pose proof (newton_iterations_counter Hit) as Hcount.
  cbn [fst snd] in Hcount.
  rewrite newton_raphson_from. unfold loop_fuel.
  replace (Datatypes.S (Z.to_nat max_its))
    with (n + Datatypes.S (Z.to_nat max_its - n))%nat by lia.
  rewrite (newton_from_iterations _ Hit). simpl fst; simpl snd.
  rewrite newton_from_step, Hgt, Hdf.
  replace (k <=? max_its) with true by (symmetry; apply Z.leb_le; exact Hk).
  reflexivity.
Qed.

End Newton.

(** ** bisection *)

Section Bisection.

Context {N : PyNum}.

Variables (F : num -> num) (eps : num) (max_its : Z).

Lemma bisection_cond_total s w :
  bisection_cond (total F) eps max_its s w
  = (Value (gtb (abs (F (br_c s))) eps && (br_k s <=? max_its)),
     w ++ [CallF (br_c s)]).
Proof. reflexivity. Qed.

Lemma bisection_body_total s w :
  bisection_body (total F) s w
  = (Value (bisection_next F s), w ++ [CallF (br_a s); CallF (br_c s)]).
Proof.
  unfold bisection_body, bind. rewrite !call_f_total, midpoint_run.
  rewrite <- app_assoc. reflexivity.
Qed.

(** One test of the loop condition, with what follows it. *)
Lemma bisection_from_step s fuel w :
  bisection_from (total F) eps max_its s (Datatypes.S fuel) w =
  if gtb (abs (F (br_c s))) eps && (br_k s <=? max_its) then
    bisection_from (total F) eps max_its (bisection_next F s) fuel
      (w ++ [CallF (br_c s); CallF (br_a s); CallF (br_c s)])
  else if (br_k s =? max_its + 1) && gtb (abs (F (br_c s))) eps
    then (Raised (ConvergenceError "Max Iteration Reached"),
          w ++ [CallF (br_c s); CallF (br_c s)])
    else (Value (br_c s), w ++ [CallF (br_c s); CallF (br_c s)]).
Proof.
  unfold bisection_from. cbn [while].
  unfold bind at 1. unfold bind at 1. rewrite bisection_cond_total.
  destruct (gtb (abs (F (br_c s))) eps && (br_k s <=? max_its)).
  - unfold bind at 1. rewrite bisection_body_total.
    rewrite <- app_assoc. reflexivity.
  - unfold ret, bind. rewrite call_f_total. rewrite <- app_assoc.
    destruct ((br_k s =? max_its + 1) && gtb (abs (F (br_c s))) eps);
      reflexivity.
Qed.

(** The run of [bisection] for a callable that returns: the sign check, then
    the loop from the initial bracket. *)
Lemma bisection_run x_0 x_1 w :
  bisection (total F) x_0 x_1 eps max_its w =
  if gtb (mul (F x_0) (F x_1)) zero
  then (Raised (ValueError "Input are of the same sign"),
        w ++ [CallF x_0; CallF x_1])
  else bisection_from (total F) eps max_its (bisection_start x_0 x_1)
         (loop_fuel max_its) (w ++ [CallF x_0; CallF x_1]).
Proof.
  unfold bisection. unfold bind at 1. rewrite midpoint_run.
  unfold bind at 1. rewrite call_f_total.
  unfold bind at 1. rewrite call_f_total. rewrite <- app_assoc.
  destruct (gtb (mul (F x_0) (F x_1)) zero); reflexivity.
Qed.

(** What the specification's iteration concludes, the code concludes. *)
Lemma bracketing_iteration_run (Hle : le_excludes_gt N) a b k v :
  bracketing_iteration F eps max_its a b k v ->
  forall fuel w,
    k <= max_its + 1 ->
    (Z.to_nat (max_its + 1 - k) < fuel)%nat ->
    realises
      (fst (bisection_from (total F) eps max_its (Bracket a b (mid a b) k)
              fuel w)) v.
Proof.
  induction 1 as [a b k Hconv | a b k v Hgt Hk Hsign _ IH
                 | a b k v Hgt Hk Hsign _ IH | a b k Hgt Hk];
    intros fuel w Hcap Hfuel;
    (destruct fuel as [|fuel]; [lia|]); rewrite bisection_from_step;
    cbn [br_a br_b br_c br_k].
  - rewrite (Hle _ _ Hconv). rewrite andb_false_r. reflexivity.
  - rewrite Hgt. replace (k <=? max_its) with true
      by (symmetry; apply Z.leb_le; exact Hk).
    unfold bisection_next; cbn [br_a br_b br_c br_k andb]. rewrite Hsign.
    apply IH; lia.
  - rewrite Hgt. replace (k <=? max_its) with true
      by (symmetry; apply Z.leb_le; exact Hk).
    unfold bisection_next; cbn [br_a br_b br_c br_k andb]. rewrite Hsign.
    apply IH; lia.
  - rewrite Hgt. replace (k <=? max_its) with false
      by (symmetry; apply Z.leb_gt; exact Hk).
    replace (k =? max_its + 1) with true by (symmetry; apply Z.eqb_eq; lia).
    simpl. eexists; reflexivity.
Qed.

(** A convergence failure of the code is one of the specification. *)
Lemma bisection_failure_inv fuel :
  forall a b k w msg,
    fst (bisection_from (total F) eps max_its (Bracket a b (mid a b) k) fuel w)
    = Raised (ConvergenceError msg) ->
    bracketing_iteration F eps max_its a b k ConvergenceFailure.
Proof.
  induction fuel as [|fuel IH]; intros a b k w msg H.
  - discriminate.
  - rewrite bisection_from_step in H. cbn [br_a br_b br_c br_k] in H.
    destruct (gtb (abs (F (mid a b))) eps) eqn:Hgt; cbn [andb] in H.
    + destruct (k <=? max_its) eqn:Hk.
      * unfold bisection_next in H; cbn [br_a br_b br_c br_k] in H.
        destruct (gtb (mul (F a) (F (mid a b))) zero) eqn:Hsign.
        -- apply BI_replace_a; [exact Hgt | apply Z.leb_le; exact Hk
                                | exact Hsign | exact (IH _ _ _ _ _ H)].
        -- apply BI_replace_b; [exact Hgt | apply Z.leb_le; exact Hk
                                | exact Hsign | exact (IH _ _ _ _ _ H)].
      * apply BI_fail; [exact Hgt | apply Z.leb_gt; exact Hk].
    + rewrite andb_false_r in H. discriminate.
Qed.

(** Past the sign check [bisection] raises nothing but [ConvergenceError]. *)
Lemma bisection_from_Raised fuel :
  forall s w e,
    fst (bisection_from (total F) eps max_its s fuel w) = Raised e ->
    is_ConvergenceError e = true.
Proof.
  induction fuel as [|fuel IH]; intros s w e H.
  - discriminate.
  - rewrite bisection_from_step in H.
    destruct (gtb (abs (F (br_c s))) eps && (br_k s <=? max_its)).
    + exact (IH _ _ _ H).
    + destruct ((br_k s =? max_its + 1) && gtb (abs (F (br_c s))) eps);
        inversion H; reflexivity.
Qed.

(** A value returned by the loop and the check after it fails the test
    [|f(c)| > eps], provided the counter started within the cap. *)
Lemma bisection_from_Value fuel :
  forall s w r,
    br_k s <= max_its + 1 ->
    fst (bisection_from (total F) eps max_its s fuel w) = Value r ->
    gtb (abs (F r)) eps = false.
Proof.
  induction fuel as [|fuel IH]; intros s w r Hk H.
  - discriminate.
  - rewrite bisection_from_step in H.
    destruct (gtb (abs (F (br_c s))) eps) eqn:Hgt; cbn [andb] in H.
    + destruct (br_k s <=? max_its) eqn:Hle.
      * apply Z.leb_le in Hle. eapply IH; [|exact H]. simpl. lia.
      * apply Z.leb_gt in Hle.
        replace (br_k s =? max_its + 1) with true in H
          by (symmetry; apply Z.eqb_eq; lia).
        discriminate.
    + rewrite andb_false_r in H. inversion H; subst. exact Hgt.
Qed.

Lemma bisection_Value x_0 x_1 w r :
  0 <= max_its ->
  fst (bisection (total F) x_0 x_1 eps max_its w) = Value r ->
  gtb (abs (F r)) eps = false.
Proof.
  intros Hpos. rewrite bisection_run.
  destruct (gtb (mul (F x_0) (F x_1)) zero); [discriminate|].
  apply bisection_from_Value. simpl. lia.
Qed.

(** A returned value is the midpoint of a state the loop reached. *)
Lemma bisection_from_Value_state fuel :
  forall s w r,
    fst (bisection_from (total F) eps max_its s fuel w) = Value r ->
    exists n s' w',
      iterations (bisection_cond (total F) eps max_its)
        (bisection_body (total F)) n (s, w) (s', w') /\
      r = br_c s'.
Proof.
  induction fuel as [|fuel IH]; intros s w r H.
  - discriminate.
  - rewrite bisection_from_step in H.
    destruct (gtb (abs (F (br_c s))) eps && (br_k s <=? max_its)) eqn:Hc.
    + destruct (IH _ _ _ H) as (n & s' & w' & Hit & Hr).
      exists (Datatypes.S n), s', w'. split; [|exact Hr].
      eapply iterations_S; [| |exact Hit].
      * rewrite bisection_cond_total, Hc. reflexivity.
      * rewrite bisection_body_total, <- app_assoc. reflexivity.
    + exists O, s, w. split; [constructor|].
      destruct ((br_k s =? max_its + 1) && gtb (abs (F (br_c s))) eps);
        inversion H; reflexivity.
Qed.

(** C5. Bracketing Iteration as the specification words it is what
    [bisection] computes on a valid bracket: from the bracket [(x_0, x_1)]
    and its midpoint, with the count at 1, it replaces [a] by the midpoint
    when [f(a)*f(c) > 0] and [b] otherwise (so also when the product is zero)
    while [|f(c)| > eps] and the count is within the cap; it returns [c] when
    [|f(c)| <= eps]; and it raises [ConvergenceError] exactly when the cap is
    passed with [|f(c)| > eps] still true. *)
Theorem bisection_bracketing_iteration (x_0 x_1 : num) (w : trace) :
  le_excludes_gt N ->
  valid_bracket F x_0 x_1 ->
  0 < max_its ->
  (forall c,
      bracketing_iteration F eps max_its x_0 x_1 1 (Converged c) ->
      fst (bisection (total F) x_0 x_1 eps max_its w) = Value c) /\
  (bracketing_iteration F eps max_its x_0 x_1 1 ConvergenceFailure <->
   exists msg,
     fst (bisection (total F) x_0 x_1 eps max_its w)
     = Raised (ConvergenceError msg)).
Proof.
  intros Hle Hvalid Hpos. rewrite bisection_run. rewrite Hvalid.
  assert (Hfuel : (Z.to_nat (max_its + 1 - 1) < loop_fuel max_its)%nat)
    by (unfold loop_fuel; replace (max_its + 1 - 1) with max_its by lia; lia).
  unfold bisection_start.
  split; [|split].
  - intros c H.
    apply (@bracketing_iteration_run Hle _ _ _ _ H (loop_fuel max_its));
      [lia | exact Hfuel].
  - intros H.
    apply (@bracketing_iteration_run Hle _ _ _ _ H (loop_fuel max_its));
      [lia | exact Hfuel].
  - intros [msg H]. exact (bisection_failure_inv _ _ _ _ _ H).
Qed.

(** C3. [bisection] raises [ValueError] if and only if [f(x_0)*f(x_1) > 0].
    The check comes first and once: when it fails the only calls made are
    [f(x_0)] and [f(x_1)], whatever [f] would do at the midpoint, and when it
    passes those two calls precede the loop.  [ValueError] is not
    [ConvergenceError]. *)
Theorem bisection_ValueError_iff (x_0 x_1 : num) (w : trace) :
  (gtb (mul (F x_0) (F x_1)) zero = true <->
   exists msg,
     fst (bisection (total F) x_0 x_1 eps max_its w) = Raised (ValueError msg))
  /\
  (forall f : callable,
      f x_0 = Returns (F x_0) -> f x_1 = Returns (F x_1) ->
      gtb (mul (F x_0) (F x_1)) zero = true ->
      bisection f x_0 x_1 eps max_its w
      = (Raised (ValueError "Input are of the same sign"),
         w ++ [CallF x_0; CallF x_1]))
  /\
  (gtb (mul (F x_0) (F x_1)) zero = false ->
   bisection (total F) x_0 x_1 eps max_its w
   = bisection_from (total F) eps max_its (bisection_start x_0 x_1)
       (loop_fuel max_its) (w ++ [CallF x_0; CallF x_1]))
  /\
  (forall msg msg', ValueError msg <> ConvergenceError msg').
Proof.
  split; [|split; [|split]].
  - rewrite bisection_run.
    destruct (gtb (mul (F x_0) (F x_1)) zero) eqn:Hsign.
    + split; [intros _; eexists; reflexivity | reflexivity].
    + split; [discriminate|]. intros [msg H].
      apply bisection_from_Raised in H. discriminate.
  - intros f H0 H1 Hsign.
    unfold bisection. unfold bind at 1. rewrite midpoint_run.
    unfold bind, call_f, emit, of_reply, ret; simpl.
    rewrite H0, H1. simpl. rewrite Hsign. rewrite <- app_assoc. reflexivity.
  - intros Hsign. rewrite bisection_run, Hsign. reflexivity.
  - discriminate.
Qed.

End Bisection.

(** ** solve *)

Section Solve.

Context {N : PyNum}.

Lemma silent_bind {A B} (m : M A) (k : A -> M B) :
  silent m -> (forall a, silent (k a)) -> silent (bind m k).
Proof.
  intros Hm Hk w Hw. unfold bind. specialize (Hm w Hw).
  destruct (m w) as [[a|e|] w1]; simpl in *; [apply Hk|..]; exact Hm.
Qed.

Lemma silent_ret {A} (a : A) : silent (ret a).
Proof. intros w Hw; exact Hw. Qed.

Lemma silent_raise {A} e : silent (@raise _ A e).
Proof. intros w Hw; exact Hw. Qed.

Lemma silent_call_f f x : silent (call_f f x).
Proof.
  intros w Hw. unfold call_f, bind, emit; simpl.
  assert (H : bisection_not_attempted (w ++ [CallF x])).
  { intros Hin. apply in_app_or in Hin. destruct Hin as [Hin|[Hin|[]]];
      [exact (Hw Hin) | discriminate]. }
  destruct (f x); exact H.
Qed.

Lemma silent_call_df df x : silent (call_df df x).
Proof.
  intros w Hw. unfold call_df, bind, emit; simpl.
  assert (H : bisection_not_attempted (w ++ [CallDf x])).
  { intros Hin. apply in_app_or in Hin. destruct Hin as [Hin|[Hin|[]]];
      [exact (Hw Hin) | discriminate]. }
  destruct (df x); exact H.
Qed.

Lemma silent_truediv a b : silent (truediv a b).
Proof. intros w Hw. unfold truediv. destruct (eqb b zero); exact Hw. Qed.

Lemma silent_while {S} (cond : S -> M bool) (body : S -> M S) :
  (forall s, silent (cond s)) -> (forall s, silent (body s)) ->
  forall fuel s, silent (while fuel cond body s).
Proof.
  intros Hc Hb. induction fuel as [|fuel IH]; intros s.
  - intros w Hw; exact Hw.
  - simpl. apply silent_bind; [apply Hc|]. intros [|].
    + apply silent_bind; [apply Hb | apply IH].
    + apply silent_ret.
Qed.

Lemma silent_newton_raphson f df x_0 eps max_its :
  silent (newton_raphson f df x_0 eps max_its).
Proof.
  unfold newton_raphson, newton_loop. apply silent_bind.
  - apply silent_while.
    + intros [x k]. apply silent_bind;
        [apply silent_call_f | intros; apply silent_ret].
    + intros [x k]. unfold newton_body.
      apply silent_bind; [apply silent_call_f | intros fx].
      apply silent_bind; [apply silent_call_df | intros dfx].
      apply silent_bind; [apply silent_truediv | intros q].
      apply silent_ret.
  - intros [x k]. apply silent_bind; [apply silent_call_f | intros fx].
    destruct ((k =? max_its + 1) && gtb (abs fx) eps);
      [apply silent_raise | apply silent_ret].
Qed.

Lemma silent_print_newton :
  silent (print "Attempting division by Newton Raphson").
Proof.
  intros w Hw Hin. simpl in Hin. apply in_app_or in Hin.
  destruct Hin as [Hin|[Hin|[]]]; [exact (Hw Hin) | discriminate].
Qed.

Variables (f df : callable) (x_0 x_1 eps : num) (max_its_n max_its_b : Z).

(** The run of [solve], read off the run of its Newton-Raphson attempt. *)
Lemma solve_run w :
  solve f df x_0 x_1 eps max_its_n max_its_b w =
  match newton_raphson f df x_0 eps max_its_n
          (w ++ [Printed "Attempting division by Newton Raphson"]) with
  | (Raised e, w') =>
      if is_ConvergenceError e
      then bisection f x_0 x_1 eps max_its_b
             (w' ++ [Printed "Attempting division by Bisection"])
      else (Raised e, w')
  | r => r
  end.
Proof. reflexivity. Qed.

(** C2. [solve] returns what Newton-Raphson returns, without attempting the
    bisection; when Newton-Raphson raises [ConvergenceError] it runs
    [bisection] on [(f, x_0, x_1, eps, max_its_b)] and ends as that call
    ends; and any other exception of Newton-Raphson reaches the caller
    without the bisection being attempted. *)
Theorem solve_falls_back_on_ConvergenceError (w : trace) :
  let w0 := w ++ [Printed "Attempting division by Newton Raphson"] in
  (forall r w',
      newton_raphson f df x_0 eps max_its_n w0 = (Value r, w') ->
      solve f df x_0 x_1 eps max_its_n max_its_b w = (Value r, w') /\
      (bisection_not_attempted w -> bisection_not_attempted w')) /\
  (forall msg w',
      newton_raphson f df x_0 eps max_its_n w0
      = (Raised (ConvergenceError msg), w') ->
      solve f df x_0 x_1 eps max_its_n max_its_b w
      = bisection f x_0 x_1 eps max_its_b
          (w' ++ [Printed "Attempting division by Bisection"])) /\
  (forall e w',
      newton_raphson f df x_0 eps max_its_n w0 = (Raised e, w') ->
      is_ConvergenceError e = false ->
      solve f df x_0 x_1 eps max_its_n max_its_b w = (Raised e, w') /\
      (bisection_not_attempted w -> bisection_not_attempted w')).
Proof.
  intros w0.
  assert (Hsilent : forall o w',
             newton_raphson f df x_0 eps max_its_n w0 = (o, w') ->
             bisection_not_attempted w -> bisection_not_attempted w').
  { intros o w' H Hw.
    pose proof (@silent_newton_raphson f df x_0 eps max_its_n w0
                  (silent_print_newton Hw)) as Hs.
    rewrite H in Hs. exact Hs. }
  split; [|split].
  - intros r w' H. split; [|exact (Hsilent _ _ H)].
    rewrite solve_run. fold w0. rewrite H. reflexivity.
  - intros msg w' H. rewrite solve_run. fold w0. rewrite H. reflexivity.
  - intros e w' H He. split; [|exact (Hsilent _ _ H)].
    rewrite solve_run. fold w0. rewrite H, He. reflexivity.
Qed.

End Solve.

(** ** What the callers can rely on *)

Section Contracts.

Context {N : PyNum}.

Variables (F DF : num -> num).

(** A value returned by any of the three entry points fails the test
    [|f(r)| > eps] that drives the loops. *)
Lemma returned_value_fails_test (x_0 x_1 eps : num)
    (max_its_n max_its_b : Z) (w : trace) (r : num) :
  0 <= max_its_n ->
  0 <= max_its_b ->
  fst (newton_raphson (total F) (total DF) x_0 eps max_its_n w) = Value r \/
  fst (bisection (total F) x_0 x_1 eps max_its_b w) = Value r \/
  fst (solve (total F) (total DF) x_0 x_1 eps max_its_n max_its_b w)
  = Value r ->
  gtb (abs (F r)) eps = false.
Proof.
  intros Hn Hb [H|[H|H]].
  - exact (newton_raphson_Value F DF eps x_0 w Hn H).
  - exact (bisection_Value F eps x_0 x_1 w Hb H).
  - rewrite solve_run in H.
    destruct (newton_raphson (total F) (total DF) x_0 eps max_its_n
                (w ++ [Printed "Attempting division by Newton Raphson"]))
      as [[v|e|] w'] eqn:E.
    + apply (newton_raphson_Value F DF eps x_0
               (w ++ [Printed "Attempting division by Newton Raphson"]) Hn).
      rewrite E. exact H.
    + destruct (is_ConvergenceError e); [|discriminate].
      exact (bisection_Value F eps x_0 x_1 _ Hb H).
    + discriminate.
Qed.

(** C7. The division by [df(x)] is unguarded: when the loop reaches an
    iterate [x] that it is about to update ([|f(x)| > eps], count within the
    cap) and [df(x)] is zero, [newton_raphson] raises [ZeroDivisionError],
    which is not [ConvergenceError]; [solve] raises it too, and does not
    attempt the bisection. *)
Theorem zero_derivative_raises (x_0 x_1 eps : num) (max_its_n max_its_b : Z)
    (n : nat) (x : num) (k : Z) (w0 w0' w : trace) :
  iterations (newton_cond (total F) eps max_its_n)
    (newton_body (total F) (total DF)) n ((x_0, 1), w0) ((x, k), w0') ->
  gtb (abs (F x)) eps = true ->
  k <= max_its_n ->
  eqb (DF x) zero = true ->
  fst (newton_raphson (total F) (total DF) x_0 eps max_its_n w)
  = Raised ZeroDivisionError /\
  fst (solve (total F) (total DF) x_0 x_1 eps max_its_n max_its_b w)
  = Raised ZeroDivisionError /\
  (bisection_not_attempted w ->
   bisection_not_attempted
     (snd (solve (total F) (total DF) x_0 x_1 eps max_its_n max_its_b w))) /\
  is_ConvergenceError ZeroDivisionError = false.
Proof.
  intros Hit Hgt Hk Hdf.
  pose proof (newton_raphson_zero_derivative Hit Hgt Hk Hdf) as Hrun.
  assert (Hany : forall w1,
             fst (newton_raphson (total F) (total DF) x_0 eps max_its_n w1)
             = Raised ZeroDivisionError).
  { intros w1.
    rewrite (appends_newton_raphson (total F) (total DF) x_0 eps max_its_n w1).
    rewrite (appends_newton_raphson (total F) (total DF) x_0 eps max_its_n w0)
      in Hrun.
    inversion Hrun as [[Ho Hw]]. simpl. rewrite Ho. reflexivity. }
  split; [apply Hany|].
  pose proof (Hany (w ++ [Printed "Attempting division by Newton Raphson"]))
    as Hn.
  destruct (newton_raphson (total F) (total DF) x_0 eps max_its_n
              (w ++ [Printed "Attempting division by Newton Raphson"]))
    as [o w'] eqn:E.
  simpl in Hn; subst o.
  rewrite solve_run, E. simpl. split; [reflexivity|].
  split; [|reflexivity]. intros Hw.
  pose proof (@silent_newton_raphson _ (total F) (total DF) x_0 eps max_its_n
                _ (silent_print_newton Hw)) as Hs.
  simpl in Hs. rewrite E in Hs. exact Hs.
Qed.

(** C10. When the initial estimate already meets the tolerance,
    [|f(x_0)| <= eps], [newton_raphson] returns [x_0] without any update and
    without calling [df]: the only calls are the two of [f] at [x_0] (the
    loop test and the check after the loop), whatever [df] is and whatever
    the cap. *)
Theorem newton_raphson_converged_at_start (f df : callable)
    (x_0 eps v : num) (max_its : Z) (w : trace) :
  le_excludes_gt N ->
  f x_0 = Returns v ->
  leb (abs v) eps = true ->
  newton_raphson f df x_0 eps max_its w
  = (Value x_0, w ++ [CallF x_0; CallF x_0]) /\
  df_not_called [CallF x_0; CallF x_0].
Proof.
  intros Hle Hf Hconv. split.
  - unfold newton_raphson, newton_loop, loop_fuel. cbn [while].
    unfold newton_cond, call_f, bind, emit, of_reply, ret, raise.
    rewrite Hf. rewrite (Hle _ _ Hconv). cbn [andb].
    rewrite Hf. rewrite (Hle _ _ Hconv). rewrite andb_false_r.
    rewrite <- app_assoc. reflexivity.
  - intros x [H|[H|[]]]; discriminate.
Qed.

End Contracts.

(** ** Exact arithmetic: the bracket of bisection over fractions *)

Section Fractions.

Local Open Scope Q_scope.

Lemma fraction_mid (a b : Q) : @mid fraction a b == (a + b) / 2.
Proof.
  change (@mid fraction a b) with (Qred (Qred (a + b) / 2)).
  rewrite !Qred_correct. reflexivity.
Qed.

Lemma fraction_pow2_S (k : nat) :
  @pow2 fraction (Datatypes.S k) == 2 * @pow2 fraction k.
Proof.
  change (@pow2 fraction (Datatypes.S k)) with (Qred (2 * @pow2 fraction k)).
  apply Qred_correct.
Qed.


Lemma Qabs_half (x : Q) : Qabs (x / 2) == Qabs x / 2.
Proof.
  unfold Qdiv. rewrite Qabs_Qmult. reflexivity.
Qed.

(** One iteration of the loop, over fractions. *)
Lemma fraction_body_inv (F : Q -> Q) (s s1 : @bracket fraction) w w1 :
  @bisection_body fraction (@total fraction F) s w = (Value s1, w1) ->
  s1 = @bisection_next fraction F s.
Proof.
  rewrite (@bisection_body_total fraction). intros H; inversion H; reflexivity.
Qed.

(** The width of the bracket after one iteration. *)
Lemma fraction_next_width (F : Q -> Q) (s : @bracket fraction) :
  br_c s == (br_a s + br_b s) / 2 ->
  let s1 := @bisection_next fraction F s in
  br_c s1 == (br_a s1 + br_b s1) / 2 /\
  Qabs (br_b s1 - br_a s1) == Qabs (br_b s - br_a s) / 2.
Proof.
  intros Hc. unfold bisection_next. cbn [br_a br_b br_c br_k].
  split; [apply fraction_mid|].
  destruct (@gtb fraction _ _).
  - rewrite <- Qabs_half. apply Qabs_wd. rewrite Hc. field.
  - rewrite <- Qabs_half. apply Qabs_wd. rewrite Hc. field.
Qed.

(** After [n] iterations the bracket is [2^n] times narrower. *)
Lemma fraction_width_iterations (F : Q -> Q) (eps : Q) (max_its : Z) n c c' :
  iterations (@bisection_cond fraction (@total fraction F) eps max_its)
    (@bisection_body fraction (@total fraction F)) n c c' ->
  br_c (fst c) == (br_a (fst c) + br_b (fst c)) / 2 ->
  br_c (fst c') == (br_a (fst c') + br_b (fst c')) / 2 /\
  Qabs (br_b (fst c') - br_a (fst c')) * @pow2 fraction n
  == Qabs (br_b (fst c) - br_a (fst c)).
Proof.
  induction 1 as [c|n s w w1 s1 w2 c Hc Hb Hit IH]; intros Hmid.
  - split; [exact Hmid|].
    change (@pow2 fraction 0) with (Qred (2 / 2)).
    rewrite Qred_correct. field.
  - apply fraction_body_inv in Hb. subst s1. cbn [fst] in *.
    destruct (fraction_next_width F s Hmid) as [Hmid1 Hw1].
    destruct (IH Hmid1) as [Hmid' Hw']. split; [exact Hmid'|].
    rewrite fraction_pow2_S.
    setoid_replace
      (Qabs (br_b (fst c) - br_a (fst c)) * (2 * @pow2 fraction n))
      with (2 * (Qabs (br_b (fst c) - br_a (fst c)) * @pow2 fraction n))
      by ring.
    rewrite Hw', Hw1. field.
Qed.


(** Bracket ends that lie in an interval stay in it, and so does the
    midpoint. *)
Lemma fraction_interval_iterations (F : Q -> Q) (eps : Q) (max_its : Z)
    (lo hi : Q) n c c' :
  iterations (@bisection_cond fraction (@total fraction F) eps max_its)
    (@bisection_body fraction (@total fraction F)) n c c' ->
  br_c (fst c) == (br_a (fst c) + br_b (fst c)) / 2 ->
  lo <= br_a (fst c) <= hi -> lo <= br_b (fst c) <= hi ->
  (lo <= br_a (fst c') <= hi) /\ (lo <= br_b (fst c') <= hi) /\
  (lo <= br_c (fst c') <= hi).
Proof.
  assert (Havg : forall a b m, m == (a + b) / 2 ->
                   lo <= a <= hi -> lo <= b <= hi -> lo <= m <= hi).
  { intros a b m Hm [Ha1 Ha2] [Hb1 Hb2]. rewrite Hm. split.
    - apply Qle_shift_div_l; [reflexivity|].
      setoid_replace (lo * 2) with (lo + lo) by ring.
      apply Qplus_le_compat; assumption.
    - apply Qle_shift_div_r; [reflexivity|].
      setoid_replace (hi * 2) with (hi + hi) by ring.
      apply Qplus_le_compat; assumption. }
  induction 1 as [c|n s w w1 s1 w2 c Hc Hb Hit IH]; intros Hmid Ha Hb'.
  - split; [exact Ha|]. split; [exact Hb'|]. exact (Havg _ _ _ Hmid Ha Hb').
  - apply fraction_body_inv in Hb. subst s1. cbn [fst] in *.
    pose proof (Havg _ _ _ Hmid Ha Hb') as Hcin.
    apply IH.
    + apply (fraction_next_width F s Hmid).
    + unfold bisection_next; cbn [br_a]. destruct (@gtb fraction _ _);
        assumption.
    + unfold bisection_next; cbn [br_b]. destruct (@gtb fraction _ _);
        assumption.
Qed.

Lemma fraction_between (x_0 x_1 y : Q) :
  (x_0 <= y <= x_1) \/ (x_1 <= y <= x_0) ->
  @between fraction x_0 x_1 y = true.
Proof.
  intros H. unfold between.
  change (@leb fraction) with Qle_bool.
  destruct H as [[H1 H2]|[H1 H2]];
    apply Qle_bool_iff in H1; apply Qle_bool_iff in H2; rewrite H1, H2;
    [reflexivity | apply orb_true_r].
Qed.

(** X14. Over exact arithmetic nothing overflows: with fractions every
    bracket end and every midpoint of [bisection] lies between [x_0] and
    [x_1], after every number of iterations, and so does a returned value. *)
Theorem fraction_stays_in_bracket :
  @stays_in_bracket fraction /\
  (forall (F : Q -> Q) (x_0 x_1 eps : Q) (max_its : Z) (w : @trace fraction)
          (r : Q),
      @valid_bracket fraction F x_0 x_1 ->
      fst (@bisection fraction (@total fraction F) x_0 x_1 eps max_its w)
      = Value r ->
      @between fraction x_0 x_1 r = true).
Proof.
  assert (Hstay : @stays_in_bracket fraction).
  { intros F x_0 x_1 eps max_its k w w' s _ Hit.
    destruct (Qlt_le_dec x_1 x_0) as [Hlt|Hle].
    - apply (@fraction_interval_iterations F eps max_its x_1 x_0) in Hit;
        cbn [fst bisection_start br_a br_b br_c] in *.
      + destruct Hit as (Ha & Hb & Hc).
        repeat split; apply fraction_between; right; assumption.
      + apply fraction_mid.
      + split; [apply Qlt_le_weak; exact Hlt | apply Qle_refl].
      + split; [apply Qle_refl | apply Qlt_le_weak; exact Hlt].
    - apply (@fraction_interval_iterations F eps max_its x_0 x_1) in Hit;
        cbn [fst bisection_start br_a br_b br_c] in *.
      + destruct Hit as (Ha & Hb & Hc).
        repeat split; apply fraction_between; left; assumption.
      + apply fraction_mid.
      + split; [apply Qle_refl | exact Hle].
      + split; [exact Hle | apply Qle_refl]. }
  split; [exact Hstay|].
  intros F x_0 x_1 eps max_its w r Hvalid H.
  rewrite (@bisection_run fraction) in H. rewrite Hvalid in H.
  apply (@bisection_from_Value_state fraction) in H.
  destruct H as (n & s' & w' & Hit & Hr). subst r.
  apply (Hstay F x_0 x_1 eps max_its n _ _ _ Hvalid Hit).
Qed.

End Fractions.

(** X13. The tolerance contract holds over fractions, where the order is
    total: for a positive tolerance and positive caps, a value [r] returned by
    [newton_raphson], [bisection] or [solve] has [|f(r)| <= eps]. *)
Lemma fraction_tolerance_contract : @tolerance_contract fraction.
Proof.
  intros F DF x_0 x_1 eps max_its_n max_its_b w r _ Hn Hb H.
  apply (@returned_value_fails_test fraction F DF) in H; [|lia|lia].
  pose proof (fraction_comparable (@abs fraction (F r)) eps) as Hc.
  unfold comparable in Hc. rewrite H, orb_false_r in Hc. exact Hc.
Qed.

(** C1, as the code keeps it. For floats, a tolerance [eps > 0] and positive
    caps, a value [r] returned by [newton_raphson], [bisection] or [solve]
    satisfies [|f(r)| <= eps] whenever [f(r)] is not NaN.  (The loops test
    [|f(x)| > eps], which a NaN fails like a converged value does.) *)
Theorem float64_tolerance_unless_nan (F DF : float -> float)
    (x_0 x_1 eps : float) (max_its_n max_its_b : Z) (w : @trace float64)
    (r : float) :
  @gtb float64 eps (@zero float64) = true ->
  0 < max_its_n ->
  0 < max_its_b ->
  fst (@newton_raphson float64 (@total float64 F) (@total float64 DF)
         x_0 eps max_its_n w) = Value r \/
  fst (@bisection float64 (@total float64 F) x_0 x_1 eps max_its_b w)
  = Value r \/
  fst (@solve float64 (@total float64 F) (@total float64 DF) x_0 x_1 eps
         max_its_n max_its_b w) = Value r ->
  PrimFloat.is_nan (F r) = false ->
  @leb float64 (@abs float64 (F r)) eps = true.
Proof.
  intros Heps Hn Hb H Hnan.
  apply (@returned_value_fails_test float64 F DF) in H; [|lia|lia].
  pose proof (@float64_comparable _ _ (@float64_abs_not_nan _ Hnan)
                (@float64_positive_not_nan _ Heps)) as Hc.
  unfold comparable in Hc. simpl in Hc, H |- *.
  rewrite H, orb_false_r in Hc. exact Hc.
Qed.

(** ** Binary64: the midpoint stays in the bracket *)

(** The midpoint [(a + b) / 2] is two roundings to nearest.  What follows
    reads them off the specification of [+] and [/]: a result is never
    separated from the exact value by a number of the format, so the midpoint
    of two floats cannot leave the interval between them unless the sum
    overflows. *)

(** *** Values and their order *)

Lemma digits2_bounds (p : positive) :
  2 ^ (Zpos (digits2_pos p) - 1) <= Zpos p < 2 ^ Zpos (digits2_pos p).
Proof.
  induction p as [p IH|p IH|]; cbn [digits2_pos].
  - rewrite Pos2Z.inj_succ.
    replace (Z.succ (Zpos (digits2_pos p)) - 1)
      with (Z.succ (Zpos (digits2_pos p) - 1)) by lia.
    rewrite !Z.pow_succ_r by lia. lia.
  - rewrite Pos2Z.inj_succ.
    replace (Z.succ (Zpos (digits2_pos p)) - 1)
      with (Z.succ (Zpos (digits2_pos p) - 1)) by lia.
    rewrite !Z.pow_succ_r by lia. lia.
  - simpl. lia.
Qed.

Lemma Zdigits2_bounds (m : Z) :
  0 < m -> 2 ^ (Zdigits2 m - 1) <= m < 2 ^ Zdigits2 m.
Proof.
  destruct m as [|p|p]; try lia. intros _. apply digits2_bounds.
Qed.

Lemma Zdigits2_nonneg (m : Z) : 0 <= Zdigits2 m.
Proof. destruct m; simpl; lia. Qed.

Lemma Zdigits2_ge (m : Z) (d : Z) : 0 <= d -> 2 ^ d <= m -> d < Zdigits2 m.
Proof.
  intros Hd H.
  assert (0 < 2 ^ d) by (apply Z.pow_pos_nonneg; lia).
  destruct (@Zdigits2_bounds m ltac:(lia)) as [_ Hu].
  destruct (Z_lt_le_dec d (Zdigits2 m)) as [Hlt|Hge]; [exact Hlt|].
  exfalso.
  assert (2 ^ Zdigits2 m <= 2 ^ d)
    by (apply Z.pow_le_mono_r; [lia | exact Hge]).
  lia.
Qed.

Lemma valid_finite s m e :
  valid_binary (S754_finite s m e) = true ->
  -1074 <= e <= 971 /\ Zpos (digits2_pos m) <= 53 /\
  (-1074 < e -> Zpos (digits2_pos m) = 53).
Proof.
  unfold valid_binary, SpecFloat.valid_binary, bounded, canonical_mantissa,
    fexp, SpecFloat.emin, FloatOps.prec, FloatOps.emax.
  intros H. apply andb_true_iff in H. destruct H as [H1 H2].
  apply Z.eqb_eq in H1. apply Z.leb_le in H2. lia.
Qed.

Lemma valid_finite_pos s m e :
  valid_binary (S754_finite s m e) = true ->
  0 < Zpos m * 2 ^ (e + 1074).
Proof.
  intros H. apply valid_finite in H.
  apply Z.mul_pos_pos; [lia | apply Z.pow_pos_nonneg; lia].
Qed.

Lemma canonical_lt s1 m1 e1 s2 m2 e2 :
  valid_binary (S754_finite s1 m1 e1) = true ->
  valid_binary (S754_finite s2 m2 e2) = true ->
  e1 < e2 ->
  Zpos m1 * 2 ^ (e1 + 1074) < Zpos m2 * 2 ^ (e2 + 1074).
Proof.
  intros H1 H2 Hlt.
  apply valid_finite in H1. apply valid_finite in H2.
  destruct H1 as (He1 & Hd1 & _), H2 as (He2 & _ & Hd2).
  specialize (Hd2 ltac:(lia)).
  pose proof (digits2_bounds m1) as B1. pose proof (digits2_bounds m2) as B2.
  rewrite Hd2 in B2.
  assert (Zpos m1 < 2 ^ 53).
  { apply Z.lt_le_trans with (1 := proj2 B1).
    apply Z.pow_le_mono_r; lia. }
  replace (e2 + 1074) with ((e1 + 1074) + (e2 - e1)) by lia.
  rewrite (Z.pow_add_r 2 (e1 + 1074) (e2 - e1)) by lia.
  assert (0 < 2 ^ (e1 + 1074)) by (apply Z.pow_pos_nonneg; lia).
  assert (2 ^ 1 <= 2 ^ (e2 - e1)) by (apply Z.pow_le_mono_r; lia).
  change (2 ^ (53 - 1)) with 4503599627370496 in B2.
  change (2 ^ 53) with 9007199254740992 in *.
  change (2 ^ 1) with 2 in *.
  set (A := 2 ^ (e1 + 1074)) in *. set (B := 2 ^ (e2 - e1)) in *.
  assert (Z.pos m1 * A < 9007199254740992 * A) by nia.
  assert (4503599627370496 * (A * B) <= Z.pos m2 * (A * B)) by nia.
  assert (2 * A <= A * B) by nia.
  lia.
Qed.

Lemma SFcompare_Zval (x y : spec_float) :
  valid_binary x = true -> valid_binary y = true ->
  SFfinite x = true -> SFfinite y = true ->
  SFcompare x y = Some (Zval x ?= Zval y).
Proof.
  intros Vx Vy Fx Fy.
  destruct x as [sx|sx| |sx mx ex], y as [sy|sy| |sy my ey];
    try discriminate; cbn [SFcompare Zval].
  - reflexivity.
  - pose proof (@valid_finite_pos _ _ _ Vy) as Hp.
    destruct sy; cbn [cond_Zopp]; f_equal; symmetry.
    + apply Z.compare_gt_iff. lia.
    + apply Z.compare_lt_iff. lia.
  - pose proof (@valid_finite_pos _ _ _ Vx) as Hp.
    destruct sx; cbn [cond_Zopp]; f_equal; symmetry.
    + apply Z.compare_lt_iff. lia.
    + apply Z.compare_gt_iff. lia.
  - pose proof (@valid_finite_pos _ _ _ Vx) as Hpx.
    pose proof (@valid_finite_pos _ _ _ Vy) as Hpy.
    assert (Hsame : ex = ey ->
              (Zpos mx * 2 ^ (ex + 1074) ?= Zpos my * 2 ^ (ey + 1074))
              = Pos.compare_cont Eq mx my).
    { intros ->. change (Pos.compare_cont Eq mx my) with (Zpos mx ?= Zpos my).
      symmetry. apply Zmult_compare_compat_r.
      apply valid_finite in Vy. apply Z.lt_gt, Z.pow_pos_nonneg; lia. }
    destruct sx, sy; cbn [cond_Zopp]; f_equal; symmetry.
    + destruct (Z.compare_spec ex ey) as [E|E|E].
      * rewrite Z.compare_opp, Z.compare_antisym, (Hsame E). reflexivity.
      * apply Z.compare_gt_iff.
        pose proof (@canonical_lt _ _ _ _ _ _ Vx Vy E). lia.
      * apply Z.compare_lt_iff.
        pose proof (@canonical_lt _ _ _ _ _ _ Vy Vx E). lia.
    + apply Z.compare_lt_iff. lia.
    + apply Z.compare_gt_iff. lia.
    + destruct (Z.compare_spec ex ey) as [E|E|E].
      * apply Hsame, E.
      * apply Z.compare_lt_iff. apply (@canonical_lt _ _ _ _ _ _ Vx Vy E).
      * apply Z.compare_gt_iff. apply (@canonical_lt _ _ _ _ _ _ Vy Vx E).
Qed.

(** *** Rounding to the format, on integers *)

Section Floor.

Variables (p E N D : Z).
Hypothesis Hp : 0 <= p.
Hypothesis HE : 0 <= E.
Hypothesis HD : 0 < D.
Hypothesis Hn : E <= target p E.
Hypothesis HN : p * 2 ^ E * D <= N < (p + 1) * 2 ^ E * D.

Variables (n m1 : Z).
Hypothesis Hshift : n = target p E - E.
Hypothesis Hm1 : m1 = p / 2 ^ n.

Lemma floor_div : m1 * 2 ^ n <= p < (m1 + 1) * 2 ^ n.
Proof.
  assert (H : 0 < 2 ^ n) by (apply Z.pow_pos_nonneg; lia).
  rewrite Hm1. pose proof (Z.div_mod p (2 ^ n) ltac:(lia)) as Hd.
  pose proof (Z.mod_pos_bound p (2 ^ n) H) as Hm. nia.
Qed.

Lemma floor_pow : 2 ^ (E + n) = 2 ^ E * 2 ^ n.
Proof. apply Z.pow_add_r; lia. Qed.

Lemma floor_bracket :
  m1 * 2 ^ (E + n) * D <= N < (m1 + 1) * 2 ^ (E + n) * D.
Proof.
  rewrite floor_pow. pose proof floor_div as Hd.
  assert (0 < 2 ^ E) by (apply Z.pow_pos_nonneg; lia).
  assert (0 < 2 ^ E * D) by (apply Z.mul_pos_pos; lia).
  set (A := 2 ^ E * D) in *.
  replace (p * 2 ^ E * D) with (p * A) in HN by (unfold A; ring).
  replace ((p + 1) * 2 ^ E * D) with ((p + 1) * A) in HN by (unfold A; ring).
  replace (m1 * (2 ^ E * 2 ^ n) * D) with (m1 * 2 ^ n * A)
    by (unfold A; ring).
  replace ((m1 + 1) * (2 ^ E * 2 ^ n) * D) with ((m1 + 1) * 2 ^ n * A)
    by (unfold A; ring).
  split; nia.
Qed.

(** When the last kept bit is not the lowest of the format, the truncation
    has all its 53 bits. *)
Lemma floor_normal : 0 < E + n -> 0 < p /\ 2 ^ 52 <= m1.
Proof.
  clear HN HD. intros Hpos'.
  assert (Ht : target p E = Zdigits2 p + E - 53) by (unfold target in *; lia).
  assert (Hn' : n = Zdigits2 p - 53) by lia.
  assert (Hpos : 0 < p).
  { destruct p; simpl in *; lia. }
  split; [exact Hpos|].
  pose proof (@Zdigits2_bounds p Hpos) as [Hlo _].
  assert (Hn0 : 0 <= n) by lia.
  replace (Zdigits2 p - 1) with (52 + n) in Hlo by lia.
  rewrite Z.pow_add_r in Hlo by lia.
  rewrite Hm1. apply Z.div_le_lower_bound;
    [apply Z.pow_pos_nonneg; lia | lia].
Qed.

(** Below the last kept bit a number of the format is below [2^52] units. *)
Lemma floor_small (m k : Z) :
  0 <= m < 2 ^ 53 -> 0 <= k -> k < E + n ->
  m * 2 ^ k < m1 * 2 ^ (E + n) /\ 0 < p.
Proof.
  intros Hm Hk Hlt.
  destruct (@floor_normal ltac:(lia)) as [Hpos H52].
  split; [|exact Hpos].
  assert (Hk' : 2 ^ (k + 1) <= 2 ^ (E + n))
    by (apply Z.pow_le_mono_r; lia).
  rewrite Z.pow_add_r in Hk' by lia. change (2 ^ 1) with 2 in Hk'.
  assert (0 < 2 ^ k) by (apply Z.pow_pos_nonneg; lia).
  change (2 ^ 53) with 9007199254740992 in Hm.
  change (2 ^ 52) with 4503599627370496 in H52.
  set (A := 2 ^ k) in *. set (B := 2 ^ (E + n)) in *.
  assert (m * A < 9007199254740992 * A) by nia.
  assert (4503599627370496 * B <= m1 * B) by nia.
  lia.
Qed.

Lemma floor_large (m k : Z) :
  0 <= k -> E + n <= k ->
  m * 2 ^ k = (m * 2 ^ (k - (E + n))) * 2 ^ (E + n).
Proof.
  intros Hk Hle.
  replace k with ((k - (E + n)) + (E + n)) at 1 by lia.
  rewrite Z.pow_add_r; [ring | lia | lia].
Qed.

(** A number of the format that is not above [N/D] is not above its
    truncation. *)
Lemma floor_below (m k : Z) :
  0 <= m < 2 ^ 53 -> 0 <= k ->
  m * 2 ^ k * D <= N ->
  m * 2 ^ k <= m1 * 2 ^ (E + n).
Proof.
  intros Hm Hk Hle.
  destruct (Z_lt_le_dec k (E + n)) as [Hlt|Hge].
  - apply Z.lt_le_incl. apply (@floor_small m k Hm Hk Hlt).
  - rewrite (@floor_large m k Hk Hge) in *.
    pose proof floor_bracket as [_ Hb].
    assert (0 < 2 ^ (E + n)) by (apply Z.pow_pos_nonneg; lia).
    set (w := m * 2 ^ (k - (E + n))) in *. set (B := 2 ^ (E + n)) in *.
    assert (w * B * D < (m1 + 1) * B * D) by lia.
    assert (0 < B * D) by (apply Z.mul_pos_pos; lia).
    assert (w < m1 + 1) by nia.
    nia.
Qed.

(** A number of the format that is not below [N/D] is not below its
    rounding, up or down. *)
Lemma ceil_above (m k R : Z) :
  0 <= m < 2 ^ 53 -> 0 <= k ->
  N <= m * 2 ^ k * D ->
  R = m1 * 2 ^ (E + n) \/
  (R = (m1 + 1) * 2 ^ (E + n) /\ m1 * 2 ^ (E + n) * D < N) ->
  R <= m * 2 ^ k.
Proof.
  intros Hm Hk Hle HR.
  pose proof floor_bracket as [Hb _].
  assert (0 < 2 ^ (E + n)) by (apply Z.pow_pos_nonneg; lia).
  destruct (Z_lt_le_dec k (E + n)) as [Hlt|Hge].
  - exfalso. pose proof (@floor_small m k Hm Hk Hlt) as [Hs _]. nia.
  - rewrite (@floor_large m k Hk Hge) in *.
    set (w := m * 2 ^ (k - (E + n))) in *. set (B := 2 ^ (E + n)) in *.
    assert (0 < B * D) by (apply Z.mul_pos_pos; lia).
    destruct HR as [->|[-> Hstrict]].
    + assert (m1 * (B * D) <= w * (B * D)) by lia.
      assert (m1 <= w) by nia. nia.
    + assert (m1 * (B * D) < w * (B * D)) by lia.
      assert (m1 < w) by nia. nia.
Qed.

End Floor.

(** *** The shifts of [binary_round_aux] *)

Lemma shifted_1 (a : shr_record) : 0 <= shr_m a -> shifted 1 a (shr_1 a).
Proof.
  destruct a as [m r s]. cbn [shr_m]. intros Hm.
  unfold shifted. change (2 ^ 1) with 2.
  destruct m as [|[p|p|]|p]; cbn [shr_1 shr_m shr_r shr_s]; try lia.
  - split; [reflexivity|]. intros -> -> _. split; reflexivity.
  - clear Hm. rewrite Pos2Z.inj_xI. generalize (Pos2Z.is_pos p).
    generalize (Z.pos p). intros z Hz.
    split; [|intros _ _ H]; Z.to_euclidean_division_equations; lia.
  - clear Hm. rewrite Pos2Z.inj_xO. generalize (Pos2Z.is_pos p).
    generalize (Z.pos p). intros z Hz.
    split; [Z.to_euclidean_division_equations; lia|].
    intros -> -> _. split; reflexivity.
  - split; [reflexivity|]. intros _ _ H. discriminate H.
Qed.

Lemma shifted_trans (j k : Z) (a b c : shr_record) :
  0 <= j -> 0 <= k -> 0 <= shr_m a ->
  shifted j a b -> shifted k b c -> shifted (j + k) a c.
Proof.
  intros Hj Hk Ha [Hb Hb'] [Hc Hc'].
  assert (Pj : 0 < 2 ^ j) by (apply Z.pow_pos_nonneg; lia).
  assert (Pk : 0 < 2 ^ k) by (apply Z.pow_pos_nonneg; lia).
  unfold shifted. rewrite Z.pow_add_r by lia.
  split.
  - rewrite Hc, Hb. apply Z.div_div; lia.
  - intros Hr Hs Hmod.
    apply Z.mod_divide in Hmod; [|lia]. destruct Hmod as [q Hq].
    assert (H1 : shr_m a mod 2 ^ j = 0).
    { apply Z.mod_divide; [lia|]. exists (q * 2 ^ k). rewrite Hq. ring. }
    destruct (Hb' Hr Hs H1) as [Hr' Hs'].
    apply Hc'; [exact Hr' | exact Hs' |].
    rewrite Hb. apply Z.mod_divide; [lia|]. exists q.
    rewrite Hq. replace (q * (2 ^ j * 2 ^ k)) with (q * 2 ^ k * 2 ^ j) by ring.
    apply Z.div_mul. lia.
Qed.

Lemma shifted_nonneg (k : Z) (a b : shr_record) :
  0 <= k -> 0 <= shr_m a -> shifted k a b -> 0 <= shr_m b.
Proof.
  intros Hk Ha [Hb _]. rewrite Hb.
  apply Z.div_pos; [exact Ha | apply Z.pow_pos_nonneg; lia].
Qed.

Lemma shifted_iter (n : positive) :
  forall a, 0 <= shr_m a -> shifted (Zpos n) a (iter_pos shr_1 n a).
Proof.
  induction n as [n IH|n IH|]; intros a Ha; cbn [iter_pos].
  - pose proof (@shifted_1 a Ha) as H1.
    pose proof (@shifted_nonneg 1 _ _ ltac:(lia) Ha H1) as Hb.
    pose proof (IH _ Hb) as H2.
    pose proof (@shifted_nonneg _ _ _ (Pos2Z.is_nonneg n) Hb H2) as Hc.
    pose proof (IH _ Hc) as H3.
    replace (Zpos n~1) with (1 + (Zpos n + Zpos n))
      by (rewrite Pos2Z.inj_xI; ring).
    apply shifted_trans with (b := shr_1 a); try lia; [exact H1|].
    apply shifted_trans with (b := iter_pos shr_1 n (shr_1 a)); try lia;
      assumption.
  - pose proof (IH _ Ha) as H2.
    pose proof (@shifted_nonneg _ _ _ (Pos2Z.is_nonneg n) Ha H2) as Hc.
    pose proof (IH _ Hc) as H3.
    replace (Zpos n~0) with (Zpos n + Zpos n)
      by (rewrite Pos2Z.inj_xO; ring).
    apply shifted_trans with (b := iter_pos shr_1 n a); try lia; assumption.
  - apply shifted_1, Ha.
Qed.


Lemma fexp_target (m e : Z) :
  fexp prec emax (Zdigits2 m + e) - e = target m (e + 1074) - (e + 1074).
Proof. unfold fexp, SpecFloat.emin, prec, emax, target. lia. Qed.

Lemma shr_fexp_spec (m e : Z) (l : location) :
  0 <= m ->
  exists mrs n,
    shr_fexp prec emax m e l = (mrs, e + n) /\
    n = Z.max (target m (e + 1074) - (e + 1074)) 0 /\
    shr_m mrs = m / 2 ^ n /\
    (l = loc_Exact -> m mod 2 ^ n = 0 -> loc_of_shr_record mrs = loc_Exact).
Proof.
  intros Hm. unfold shr_fexp. rewrite fexp_target.
  destruct (target m (e + 1074) - (e + 1074)) as [|p|p] eqn:Ed;
    cbn [shr].
  - exists (shr_record_of_loc m l), 0. rewrite Z.add_0_r.
    split; [reflexivity|]. split; [reflexivity|].
    split; [destruct l as [|[]]; cbn [shr_record_of_loc shr_m];
            rewrite Z.div_1_r; reflexivity|].
    intros -> _. reflexivity.
  - exists (iter_pos shr_1 p (shr_record_of_loc m l)), (Zpos p).
    split; [reflexivity|]. split; [lia|].
    assert (Hm' : 0 <= shr_m (shr_record_of_loc m l))
      by (destruct l as [|[]]; exact Hm).
    destruct (@shifted_iter p _ Hm') as [H1 H2].
    split; [rewrite H1; destruct l as [|[]]; reflexivity|].
    intros -> Hmod. destruct (H2 eq_refl eq_refl Hmod) as [Hr Hs].
    destruct (iter_pos shr_1 p _) as [m' r' s']. cbn [shr_r shr_s] in Hr, Hs.
    subst r' s'. reflexivity.
  - exists (shr_record_of_loc m l), 0. rewrite Z.add_0_r.
    split; [reflexivity|]. split; [lia|].
    split; [destruct l as [|[]]; cbn [shr_record_of_loc shr_m];
            rewrite Z.div_1_r; reflexivity|].
    intros -> _. reflexivity.
Qed.

Lemma round_nearest_even_cases (m : Z) (l : location) :
  round_nearest_even m l = m \/
  (round_nearest_even m l = m + 1 /\ l <> loc_Exact).
Proof.
  destruct l as [|[]]; cbn [round_nearest_even]; auto.
  - destruct (Z.even m); [left; reflexivity | right].
    split; [reflexivity | discriminate].
  - right. split; [reflexivity | discriminate].
Qed.


(** What [binary_round_aux] returns is a rounding of the number [N/D] (in
    units of [2^-1074]) that it is given through its truncation [mx] at the
    exponent [ex] and the place [lx] of the rest: no number of the format
    lies strictly between [N/D] and the rounded [R]; the result is finite,
    with the value [R], unless [R] has reached [2^1024]. *)
Lemma binary_round_aux_spec (s : bool) (mx ex : Z) (lx : location)
    (N D : Z) :
  0 <= mx -> -1074 <= ex -> 0 < D ->
  ex + 1074 <= target mx (ex + 1074) ->
  mx * 2 ^ (ex + 1074) * D <= N < (mx + 1) * 2 ^ (ex + 1074) * D ->
  (N = mx * 2 ^ (ex + 1074) * D -> lx = loc_Exact) ->
  exists R,
    0 <= R /\
    (forall m k, 0 <= m < 2 ^ 53 -> 0 <= k ->
       (m * 2 ^ k * D <= N -> m * 2 ^ k <= R) /\
       (N <= m * 2 ^ k * D -> R <= m * 2 ^ k)) /\
    (R < 2 ^ 2098 ->
     SFfinite (binary_round_aux prec emax s mx ex lx) = true) /\
    (SFfinite (binary_round_aux prec emax s mx ex lx) = true ->
     Zval (binary_round_aux prec emax s mx ex lx) = cond_Zopp s R).
Proof.
  intros Hmx Hex HD Hn HN Hexact.
  unfold binary_round_aux in *.
  destruct (@shr_fexp_spec mx ex lx Hmx) as (mrs1 & n & E1 & Hn1 & Hm1 & Hl1).
  rewrite E1 in *.
  assert (Hn' : n = target mx (ex + 1074) - (ex + 1074)) by lia.
  set (E := ex + 1074) in *.
  assert (HE : 0 <= E) by (unfold E; lia).
  assert (Hn0 : 0 <= n) by lia.
  set (m1 := mx / 2 ^ n) in *.
  assert (Hdiv : m1 * 2 ^ n <= mx < (m1 + 1) * 2 ^ n)
    by (apply floor_div with (E := E); auto).
  assert (Hpow : 2 ^ (E + n) = 2 ^ E * 2 ^ n)
    by (apply Z.pow_add_r; lia).
  assert (Hbr : m1 * 2 ^ (E + n) * D <= N < (m1 + 1) * 2 ^ (E + n) * D)
    by (apply floor_bracket with (p := mx); auto).
  assert (Pn : 0 < 2 ^ n) by (apply Z.pow_pos_nonneg; lia).
  assert (PE : 0 < 2 ^ E) by (apply Z.pow_pos_nonneg; lia).
  assert (Hm1' : 0 <= m1) by (apply Z.div_pos; lia).
  (* the rounded mantissa *)
  set (m2 := round_nearest_even (shr_m mrs1) (loc_of_shr_record mrs1)) in *.
  assert (Hm2 : m2 = m1 \/ (m2 = m1 + 1 /\ m1 * 2 ^ (E + n) * D < N)).
  { unfold m2. rewrite Hm1.
    destruct (round_nearest_even_cases m1 (loc_of_shr_record mrs1))
      as [H|[H Hl]]; [left; exact H | right].
    split; [exact H|].
    destruct (Z_lt_le_dec (m1 * 2 ^ (E + n) * D) N) as [Hlt|Hge];
      [exact Hlt|].
    exfalso. apply Hl.
    assert (HNeq : N = m1 * 2 ^ (E + n) * D) by lia.
    assert (Hmx' : mx = m1 * 2 ^ n).
    { rewrite Hpow in HNeq.
      assert (0 < 2 ^ E * D) by (apply Z.mul_pos_pos; lia).
      assert (mx * (2 ^ E * D) <= m1 * 2 ^ n * (2 ^ E * D)) by nia.
      nia. }
    apply Hl1.
    - apply Hexact. rewrite HNeq, Hpow, Hmx'. ring.
    - rewrite Hmx'. apply Z.mod_mul. lia. }
  assert (Hm2' : 0 <= m2) by lia.
  (* the second shift *)
  destruct (@shr_fexp_spec m2 (ex + n) loc_Exact Hm2')
    as (mrs2 & n2 & E2 & Hn2 & Hm3 & _).
  rewrite E2 in *.
  replace (ex + n + 1074) with (E + n) in * by (unfold E; lia).
  set (m3 := shr_m mrs2) in *.
  assert (Hn20 : 0 <= n2) by lia.
  assert (Pn2 : 0 < 2 ^ n2) by (apply Z.pow_pos_nonneg; lia).
  assert (Hm3' : 0 <= m3) by (rewrite Hm3; apply Z.div_pos; lia).
  assert (Hpow2 : 2 ^ (E + n + n2) = 2 ^ (E + n) * 2 ^ n2)
    by (apply Z.pow_add_r; lia).
  assert (PEn : 0 < 2 ^ (E + n)) by (apply Z.pow_pos_nonneg; lia).
  exists (m3 * 2 ^ (E + n + n2)).
  split; [|split; [|split]].
  - apply Z.mul_nonneg_nonneg; [exact Hm3'|].
    apply Z.lt_le_incl, Z.pow_pos_nonneg; lia.
  - intros m k Hm Hk. split; intros Hle.
    + assert (H1 : m * 2 ^ k <= m1 * 2 ^ (E + n)).
      { apply floor_below with (p := mx) (N := N) (D := D); auto. }
      assert (H2 : m * 2 ^ k <= m2 * 2 ^ (E + n)) by nia.
      destruct (Z_le_gt_dec (E + n) (target m2 (E + n))) as [Hc|Hc].
      * replace (E + n + n2) with ((E + n) + n2) by lia.
        apply floor_below with (p := m2) (N := m2 * 2 ^ (E + n)) (D := 1);
          auto; try lia.
      * replace n2 with 0 in * by lia.
        rewrite Z.div_1_r in Hm3. rewrite Hm3, Z.add_0_r. exact H2.
    + assert (H1 : m2 * 2 ^ (E + n) <= m * 2 ^ k).
      { apply ceil_above with (p := mx) (E := E) (N := N) (D := D) (n := n)
                              (m1 := m1); auto.
        destruct Hm2 as [->|[-> Hs]]; [left | right; split]; auto;
          try ring. }
      assert (H3 : m3 * 2 ^ n2 <= m2).
      { rewrite Hm3. pose proof (Z.div_mod m2 (2 ^ n2) ltac:(lia)).
        pose proof (Z.mod_pos_bound m2 (2 ^ n2) Pn2). nia. }
      rewrite Hpow2. nia.
  - intros Hsmall.
    destruct m3 as [|p3|p3] eqn:E3; [reflexivity | | lia].
    destruct (ex + n + n2 <=? emax - prec) eqn:Ele; [reflexivity|].
    exfalso. apply Z.leb_gt in Ele.
    change (emax - prec) with 971 in Ele.
    assert (H52 : 2 ^ 52 <= Zpos p3).
    { destruct (Z_le_gt_dec (E + n) (target m2 (E + n))) as [Hc|Hc].
      - assert (H : 0 < m2 /\ 2 ^ 52 <= Zpos p3).
        { apply floor_normal with (E := E + n) (n := n2); lia. }
        apply H.
      - replace n2 with 0 in * by lia.
        rewrite Z.div_1_r in Hm3.
        assert (H : 0 < mx /\ 2 ^ 52 <= m1).
        { apply floor_normal with (E := E) (n := n); try lia;
            reflexivity. }
        lia. }
    assert (Hbig : 2 ^ 2046 <= 2 ^ (E + n + n2))
      by (apply Z.pow_le_mono_r; unfold E; lia).
    change (2 ^ 2098) with (2 ^ 52 * 2 ^ 2046) in Hsmall.
    assert (0 < 2 ^ 2046) by (apply Z.pow_pos_nonneg; lia).
    assert (0 < 2 ^ 52) by (apply Z.pow_pos_nonneg; lia).
    set (A := 2 ^ 2046) in *. set (B := 2 ^ (E + n + n2)) in *.
    set (C := 2 ^ 52) in *.
    assert (C * A <= Zpos p3 * A) by nia.
    assert (Zpos p3 * A <= Zpos p3 * B) by nia.
    lia.
  - intros Hfin. destruct m3 as [|p3|p3] eqn:E3; cbn [Zval].
    + destruct s; reflexivity.
    + destruct (ex + n + n2 <=? emax - prec); [|discriminate Hfin].
      cbn [Zval]. replace (ex + n + n2 + 1074) with (E + n + n2)
        by (unfold E; lia). reflexivity.
    + discriminate Hfin.
Qed.

(** *** Roundings *)

Lemma rounding_signed (s : bool) (N D R : Z) :
  0 <= N -> 0 <= R -> 0 < D ->
  (forall m k, 0 <= m < 2 ^ 53 -> 0 <= k ->
     (m * 2 ^ k * D <= N -> m * 2 ^ k <= R) /\
     (N <= m * 2 ^ k * D -> R <= m * 2 ^ k)) ->
  rounding (cond_Zopp s N) D (cond_Zopp s R).
Proof.
  intros HN HR HD H m k Hm Hk.
  assert (P : 0 < 2 ^ k) by (apply Z.pow_pos_nonneg; lia).
  assert (PD : 0 < 2 ^ k * D) by (apply Z.mul_pos_pos; lia).
  destruct (Z_lt_le_dec m 0) as [Hneg|Hpos].
  - specialize (H (- m) k ltac:(lia) Hk). destruct H as [H1 H2].
    replace (- m * 2 ^ k * D) with (- (m * 2 ^ k * D)) in * by ring.
    replace (- m * 2 ^ k) with (- (m * 2 ^ k)) in * by ring.
    assert (m * 2 ^ k < 0) by nia.
    assert (m * 2 ^ k * D < 0) by nia.
    destruct s; cbn [cond_Zopp]; split; intros Hle; lia.
  - specialize (H m k ltac:(lia) Hk). destruct H as [H1 H2].
    assert (0 <= m * 2 ^ k) by nia.
    assert (m * 2 ^ k <= m * 2 ^ k * D) by nia.
    destruct s; cbn [cond_Zopp]; split; intros Hle; lia.
Qed.

Lemma rounds_to_exact (y : spec_float) :
  SFfinite y = true -> rounds_to (Zval y) 1 y.
Proof.
  intros Hy. exists (Zval y). split; [|split; auto].
  intros m k _ _. lia.
Qed.

Lemma rounds_to_signed (s : bool) (N D : Z) (y : spec_float) :
  0 <= N -> 0 < D ->
  (exists R,
     0 <= R /\
     (forall m k, 0 <= m < 2 ^ 53 -> 0 <= k ->
        (m * 2 ^ k * D <= N -> m * 2 ^ k <= R) /\
        (N <= m * 2 ^ k * D -> R <= m * 2 ^ k)) /\
     (R < 2 ^ 2098 -> SFfinite y = true) /\
     (SFfinite y = true -> Zval y = cond_Zopp s R)) ->
  rounds_to (cond_Zopp s N) D y.
Proof.
  intros HN HD (R & HR0 & Hround & Hfin & Hval).
  exists (cond_Zopp s R). split; [|split].
  - apply rounding_signed; assumption.
  - intros Habs. apply Hfin. destruct s; cbn [cond_Zopp] in Habs; lia.
  - exact Hval.
Qed.

(** A finite result is a rounding; a result is finite when a number of the
    format below [2^1024] bounds what is rounded. *)
Lemma rounds_to_value (N D : Z) (y : spec_float) :
  rounds_to N D y -> SFfinite y = true -> rounding N D (Zval y).
Proof. intros (R & Hround & _ & Hval) Hy. rewrite (Hval Hy). exact Hround. Qed.

Lemma rounds_to_finite (N D B : Z) (y : spec_float) :
  rounds_to N D y ->
  (exists m k, B = m * 2 ^ k /\ 0 <= m < 2 ^ 53 /\ 0 <= k) ->
  B < 2 ^ 2098 ->
  - (B * D) <= N <= B * D ->
  SFfinite y = true.
Proof.
  intros (R & Hround & Hfin & _) (m & k & -> & Hm & Hk) HB HN.
  apply Hfin.
  destruct (Hround m k ltac:(lia) Hk) as [_ Hup].
  destruct (Hround (- m) k ltac:(lia) Hk) as [Hlo _].
  replace (- m * 2 ^ k * D) with (- (m * 2 ^ k * D)) in Hlo by ring.
  replace (- m * 2 ^ k) with (- (m * 2 ^ k)) in Hlo by ring.
  lia.
Qed.

(** *** Addition *)

Lemma iter_xO (d m : positive) :
  Zpos (Pos.iter xO m d) = Zpos m * 2 ^ Zpos d /\
  Zpos (digits2_pos (Pos.iter xO m d)) = Zpos (digits2_pos m) + Zpos d.
Proof.
  induction d as [|d [IH1 IH2]] using Pos.peano_ind.
  - cbn [Pos.iter digits2_pos]. rewrite Pos2Z.inj_xO, Pos2Z.inj_succ.
    change (2 ^ 1) with 2. lia.
  - rewrite Pos.iter_succ. cbn [digits2_pos].
    rewrite Pos2Z.inj_xO, !Pos2Z.inj_succ, IH1, IH2.
    rewrite Z.pow_succ_r by lia. split; ring.
Qed.

Lemma shl_align_spec (mx : positive) (ex ex' : Z) :
  snd (shl_align mx ex ex') = Z.min ex ex' /\
  Zpos (fst (shl_align mx ex ex'))
  = Zpos mx * 2 ^ (ex - Z.min ex ex') /\
  Zpos (digits2_pos (fst (shl_align mx ex ex')))
  = Zpos (digits2_pos mx) + (ex - Z.min ex ex').
Proof.
  unfold shl_align.
  destruct (ex' - ex) as [|d|d] eqn:Ed; cbn [fst snd].
  - replace (Z.min ex ex') with ex by lia.
    rewrite Z.sub_diag. cbn. lia.
  - replace (Z.min ex ex') with ex by lia.
    rewrite Z.sub_diag. cbn. lia.
  - replace (Z.min ex ex') with ex' by lia.
    replace (ex - ex') with (Zpos d) by lia.
    split; [reflexivity | apply iter_xO].
Qed.

Lemma binary_round_spec (s : bool) (mx : positive) (ex : Z) :
  -1074 <= ex ->
  rounds_to (cond_Zopp s (Zpos mx * 2 ^ (ex + 1074))) 1
    (binary_round prec emax s mx ex).
Proof.
  intros Hex. unfold binary_round in *.
  pose proof (shl_align_spec mx ex
                (fexp prec emax (Zpos (digits2_pos mx) + ex))) as Hal.
  destruct (shl_align mx ex (fexp prec emax (Zpos (digits2_pos mx) + ex)))
    as [mz ez].
  cbn [fst snd] in Hal. destruct Hal as (Hez & Hmz & Hdz).
  assert (Hf : fexp prec emax (Zpos (digits2_pos mx) + ex)
               = Z.max (Zpos (digits2_pos mx) + ex - 53) (-1074))
    by reflexivity.
  assert (Hez' : -1074 <= ez) by lia.
  assert (Hval : Zpos mz * 2 ^ (ez + 1074) = Zpos mx * 2 ^ (ex + 1074)).
  { rewrite Hmz. rewrite <- Hez.
    replace (ex + 1074) with ((ex - ez) + (ez + 1074)) by lia.
    rewrite (Z.pow_add_r 2 (ex - ez)) by lia. ring. }
  apply rounds_to_signed; [|lia|].
  - apply Z.mul_nonneg_nonneg; [lia|].
    apply Z.lt_le_incl, Z.pow_pos_nonneg; lia.
  - apply binary_round_aux_spec; try lia.
    + unfold target. cbn [Zdigits2]. lia.
    + intros _. reflexivity.
Qed.

Lemma cond_Zopp_mul (s : bool) (a b : Z) :
  cond_Zopp s (a * b) = cond_Zopp s a * b.
Proof. destruct s; cbn [cond_Zopp]; ring. Qed.

(** The sum of two finite floats is the exact sum, rounded. *)
Lemma SFadd_rounds (x y : spec_float) :
  valid_binary x = true -> valid_binary y = true ->
  SFfinite x = true -> SFfinite y = true ->
  rounds_to (Zval x + Zval y) 1 (SF64add x y).
Proof.
  intros Vx Vy Fx Fy. unfold SF64add in *.
  destruct x as [sx|sx| |sx mx ex], y as [sy|sy| |sy my ey];
    try discriminate.
  - destruct sx, sy; apply (@rounds_to_exact (S754_zero _)); reflexivity.
  - apply (@rounds_to_exact (S754_finite sy my ey)). reflexivity.
  - cbn [SFadd]. rewrite Z.add_0_r.
    apply (@rounds_to_exact (S754_finite sx mx ex)). reflexivity.
  - cbn [SFadd] in *.
    pose proof (@valid_finite _ _ _ Vx) as (Hex & _).
    pose proof (@valid_finite _ _ _ Vy) as (Hey & _).
    set (ez := Z.min ex ey) in *.
    destruct (shl_align_spec mx ex ez) as (_ & Hx & _).
    destruct (shl_align_spec my ey ez) as (_ & Hy & _).
    replace (Z.min ex ez) with ez in Hx by lia.
    replace (Z.min ey ez) with ez in Hy by lia.
    rewrite Hx, Hy in *.
    set (M := cond_Zopp sx (Zpos mx * 2 ^ (ex - ez))
              + cond_Zopp sy (Zpos my * 2 ^ (ey - ez))) in *.
    assert (HM : Zval (S754_finite sx mx ex) + Zval (S754_finite sy my ey)
                 = M * 2 ^ (ez + 1074)).
    { unfold M. cbn [Zval]. rewrite Z.mul_add_distr_r.
      rewrite <- !cond_Zopp_mul, <- !Z.mul_assoc.
      rewrite <- !Z.pow_add_r by lia.
      replace (ex - ez + (ez + 1074)) with (ex + 1074) by lia.
      replace (ey - ez + (ez + 1074)) with (ey + 1074) by lia.
      reflexivity. }
    rewrite HM.
    destruct M as [|p|p]; cbn [binary_normalize] in *.
    + apply (@rounds_to_exact (S754_zero false)). reflexivity.
    + apply (@binary_round_spec false p ez). lia.
    + replace (Z.neg p * 2 ^ (ez + 1074))
        with (cond_Zopp true (Zpos p * 2 ^ (ez + 1074)))
        by (cbn [cond_Zopp]; rewrite <- Pos2Z.opp_pos; ring).
      apply (@binary_round_spec true p ez). lia.
Qed.

Lemma SFadd_finite (x y : spec_float) :
  SFfinite (SF64add x y) = true -> SFfinite x = true /\ SFfinite y = true.
Proof.
  unfold SF64add.
  destruct x as [sx|sx| |sx mx ex], y as [sy|sy| |sy my ey];
    cbn [SFadd SFfinite]; try (intros H; split; (reflexivity || exact H));
    try discriminate.
  - destruct sx, sy; discriminate.
Qed.

(** *** Division by two *)

Lemma shift_match (m s : Z) :
  0 <= s ->
  match s with
  | Zpos _ => Z.shiftl m s
  | Z0 => m
  | Zneg _ => 0
  end = m * 2 ^ s.
Proof.
  intros Hs. destruct s as [|p|p]; [cbn; lia | | lia].
  apply Z.shiftl_mul_pow2. lia.
Qed.

Lemma SFdiv_core_two (mx : positive) (ex : Z) :
  -1074 <= ex -> Zpos (digits2_pos mx) <= 53 ->
  exists q e' l,
    SFdiv_core_binary prec emax (Zpos mx) ex 4503599627370496 (-51)
    = (q, e', l) /\
    0 <= q /\ -1074 <= e' /\
    e' + 1074 <= target q (e' + 1074) /\
    q * 2 ^ (e' + 1074) * 2 <= Zpos mx * 2 ^ (ex + 1074)
      < (q + 1) * 2 ^ (e' + 1074) * 2 /\
    (Zpos mx * 2 ^ (ex + 1074) = q * 2 ^ (e' + 1074) * 2 -> l = loc_Exact).
Proof.
  intros Hex Hd. unfold SFdiv_core_binary.
  change (Zdigits2 4503599627370496) with 53. cbn [Zdigits2].
  set (d1 := Zpos (digits2_pos mx)) in *.
  assert (Hf : fexp prec emax (d1 + ex - (53 + -51))
               = Z.max (d1 + ex - 55) (-1074))
    by (unfold fexp, SpecFloat.emin, prec, emax; lia).
  rewrite Hf.
  set (e' := Z.min (Z.max (d1 + ex - 55) (-1074)) (ex - -51)).
  assert (He' : e' = Z.max (d1 + ex - 55) (-1074)) by (unfold e'; lia).
  set (s := ex - -51 - e').
  assert (Hs : 51 <= s) by (unfold s; lia).
  rewrite (@shift_match (Zpos mx) s) by lia.
  set (t := s - 51).
  set (A := Zpos mx * 2 ^ t).
  assert (HA : Zpos mx * 2 ^ s = A * 2 ^ 51).
  { unfold A. replace s with (t + 51) by (unfold t; lia).
    rewrite Z.pow_add_r by (unfold t; lia). ring. }
  rewrite HA.
  assert (Pt : 0 < 2 ^ t) by (apply Z.pow_pos_nonneg; unfold t; lia).
  assert (PA : 0 < A) by (unfold A; apply Z.mul_pos_pos; lia).
  assert (Hq : (A * 2 ^ 51) / 4503599627370496 = A / 2).
  { change 4503599627370496 with (2 * 2 ^ 51).
    apply Z.div_mul_cancel_r; [lia | discriminate]. }
  assert (Hr : (A * 2 ^ 51) mod 4503599627370496 = (A mod 2) * 2 ^ 51).
  { change 4503599627370496 with (2 * 2 ^ 51).
    apply Z.mul_mod_distr_r; [lia | discriminate]. }
  unfold Z.div in Hq. unfold Z.modulo in Hr.
  destruct (Z.div_eucl (A * 2 ^ 51) 4503599627370496) as [q r].
  cbn [fst snd] in Hq, Hr. subst q r.
  exists (A / 2), e', (new_location 4503599627370496 (A mod 2 * 2 ^ 51)).
  split; [reflexivity|].
  pose proof (Z.div_mod A 2 ltac:(lia)) as Hdm.
  pose proof (Z.mod_pos_bound A 2 ltac:(lia)) as Hmb.
  assert (Hq0 : 0 <= A / 2) by (apply Z.div_pos; lia).
  assert (HE : Zpos mx * 2 ^ (ex + 1074) = A * 2 ^ (e' + 1074)).
  { unfold A. replace (ex + 1074) with (t + (e' + 1074))
      by (unfold t, s; lia).
    rewrite Z.pow_add_r by (unfold t; lia). ring. }
  assert (PE : 0 < 2 ^ (e' + 1074)) by (apply Z.pow_pos_nonneg; lia).
  split; [exact Hq0|]. split; [lia|]. split; [|split].
  - unfold target.
    destruct (Z.eq_dec e' (-1074)) as [->|Hne]; [lia|].
    assert (He'' : e' = d1 + ex - 55) by lia.
    assert (Ht : t = 55 - d1) by (unfold t, s; lia).
    assert (H54 : 2 ^ 54 <= A).
    { unfold A. pose proof (digits2_bounds mx) as [Hlo _]. fold d1 in Hlo.
      replace 54 with ((d1 - 1) + t) by lia.
      rewrite Z.pow_add_r by lia. nia. }
    assert (H53 : 2 ^ 53 <= A / 2).
    { apply Z.div_le_lower_bound; [lia|].
      change (2 * 2 ^ 53) with (2 ^ 54). exact H54. }
    pose proof (@Zdigits2_ge (A / 2) 53 ltac:(lia) H53). lia.
  - rewrite HE. set (B := 2 ^ (e' + 1074)) in *. split; nia.
  - rewrite HE. intros Heq.
    assert (Hm0 : A mod 2 = 0).
    { set (B := 2 ^ (e' + 1074)) in *. nia. }
    rewrite Hm0. reflexivity.
Qed.

(** The half of a finite float, as [/] computes it, is the exact half,
    rounded. *)
Lemma SFdiv_two_rounds (x : spec_float) :
  valid_binary x = true -> SFfinite x = true ->
  rounds_to (Zval x) 2 (SF64div x SFtwo).
Proof.
  intros Vx Fx. unfold SF64div, SFtwo in *.
  destruct x as [sx|sx| |sx mx ex]; try discriminate.
  - cbn [SFdiv Zval]. exists 0. split; [|split; reflexivity].
    intros m k _ Hk.
    assert (0 < 2 ^ k) by (apply Z.pow_pos_nonneg; lia). lia.
  - cbn [SFdiv] in *.
    pose proof (@valid_finite _ _ _ Vx) as (Hex & Hd & _).
    destruct (@SFdiv_core_two mx ex ltac:(lia) Hd)
      as (q & e' & l & Ecore & Hq & He' & Ht & Hbr & Hl).
    rewrite Ecore, xorb_false_r in *. cbn [Zval].
    apply rounds_to_signed; [|lia|].
    + apply Z.mul_nonneg_nonneg; [lia|].
      apply Z.lt_le_incl, Z.pow_pos_nonneg; lia.
    + apply binary_round_aux_spec; assumption || lia.
Qed.

Lemma SFdiv_two_finite (x : spec_float) :
  SFfinite (SF64div x SFtwo) = true -> SFfinite x = true.
Proof.
  unfold SF64div, SFtwo.
  destruct x as [sx|sx| |sx mx ex]; cbn [SFdiv SFfinite]; auto.
Qed.

(** *** The format and its largest number *)

Lemma Zval_format (x : spec_float) :
  valid_binary x = true ->
  exists m k, Zval x = m * 2 ^ k /\ Z.abs m < 2 ^ 53 /\ 0 <= k.
Proof.
  intros Vx. destruct x as [sx|sx| |sx mx ex];
    try (exists 0, 0; cbn; repeat split; lia).
  pose proof (@valid_finite _ _ _ Vx) as (Hex & Hd & _).
  exists (cond_Zopp sx (Zpos mx)), (ex + 1074).
  split; [cbn [Zval]; apply cond_Zopp_mul|]. split; [|lia].
  pose proof (digits2_bounds mx) as [_ Hu].
  assert (2 ^ Zpos (digits2_pos mx) <= 2 ^ 53)
    by (apply Z.pow_le_mono_r; lia).
  destruct sx; cbn [cond_Zopp]; lia.
Qed.

Lemma Zval_bound (x : spec_float) :
  valid_binary x = true -> Z.abs (Zval x) <= Zmax.
Proof.
  intros Vx. destruct x as [sx|sx| |sx mx ex];
    try (cbn [Zval]; unfold Zmax; cbn; lia).
  pose proof (@valid_finite _ _ _ Vx) as (Hex & Hd & _).
  pose proof (digits2_bounds mx) as [_ Hu].
  assert (2 ^ Zpos (digits2_pos mx) <= 2 ^ 53)
    by (apply Z.pow_le_mono_r; lia).
  assert (H1 : 2 ^ (ex + 1074) <= 2 ^ 2045)
    by (apply Z.pow_le_mono_r; lia).
  assert (H0 : 0 < 2 ^ (ex + 1074)) by (apply Z.pow_pos_nonneg; lia).
  unfold Zmax. cbn [Zval].
  set (A := 2 ^ (ex + 1074)) in *. set (B := 2 ^ 2045) in *.
  set (C := 2 ^ 53) in *.
  assert (Zpos mx * A <= (C - 1) * A) by nia.
  assert ((C - 1) * A <= (C - 1) * B) by nia.
  destruct sx; cbn [cond_Zopp]; lia.
Qed.

(** A float below [2^1023] in absolute value can be doubled. *)
Lemma Zval_half_bound (x : spec_float) :
  valid_binary x = true -> Z.abs (Zval x) < 2 ^ 2097 ->
  2 * Z.abs (Zval x) <= Zmax.
Proof.
  intros Vx Hlt. destruct x as [sx|sx| |sx mx ex];
    try (cbn [Zval]; unfold Zmax; cbn; lia).
  pose proof (@valid_finite _ _ _ Vx) as (Hex & Hd & Hnorm).
  pose proof (digits2_bounds mx) as [Hl Hu].
  assert (2 ^ Zpos (digits2_pos mx) <= 2 ^ 53)
    by (apply Z.pow_le_mono_r; lia).
  assert (H0 : 0 < 2 ^ (ex + 1074)) by (apply Z.pow_pos_nonneg; lia).
  assert (Habs : Z.abs (Zval (S754_finite sx mx ex))
                 = Zpos mx * 2 ^ (ex + 1074)).
  { cbn [Zval]. destruct sx; cbn [cond_Zopp]; nia. }
  rewrite Habs in *. unfold Zmax.
  destruct (Z_le_gt_dec (ex + 1074) 2044) as [Hsmall|Hbig].
  - assert (H1 : 2 ^ (ex + 1074 + 1) <= 2 ^ 2045)
      by (apply Z.pow_le_mono_r; lia).
    rewrite Z.pow_add_r in H1 by lia. change (2 ^ 1) with 2 in H1.
    set (A := 2 ^ (ex + 1074)) in *. set (B := 2 ^ 2045) in *.
    set (C := 2 ^ 53) in *.
    assert (Zpos mx * (2 * A) <= (C - 1) * (2 * A)) by nia.
    assert ((C - 1) * (A * 2) <= (C - 1) * B) by nia.
    lia.
  - exfalso. rewrite (Hnorm ltac:(lia)) in Hl.
    assert (H1 : 2 ^ 2045 <= 2 ^ (ex + 1074))
      by (apply Z.pow_le_mono_r; lia).
    change (2 ^ 2097) with (2 ^ 52 * 2 ^ 2045) in Hlt.
    change (53 - 1) with 52 in Hl.
    assert (0 < 2 ^ 2045) by (apply Z.pow_pos_nonneg; lia).
    set (A := 2 ^ (ex + 1074)) in *. set (B := 2 ^ 2045) in *.
    set (C := 2 ^ 52) in *.
    assert (C * B <= Zpos mx * B) by nia.
    assert (Zpos mx * B <= Zpos mx * A) by nia.
    lia.
Qed.

Lemma Zmax_format :
  exists m k, Zmax = m * 2 ^ k /\ 0 <= m < 2 ^ 53 /\ 0 <= k.
Proof.
  exists (2 ^ 53 - 1), 2045. split; [reflexivity|]. split; [|lia].
  change (2 ^ 53) with 9007199254740992. lia.
Qed.

Lemma Zmax_small : Zmax < 2 ^ 2098.
Proof.
  unfold Zmax. change (2 ^ 2098) with (2 ^ 53 * 2 ^ 2045).
  assert (0 < 2 ^ 2045) by (apply Z.pow_pos_nonneg; lia).
  set (B := 2 ^ 2045) in *. change (2 ^ 53) with 9007199254740992. lia.
Qed.

(** *** The midpoint *)

(** The midpoint [(a + b) / 2] of two floats, when it is finite, lies
    between them. *)
Lemma SFmid_between (a b : spec_float) :
  valid_binary a = true -> valid_binary b = true ->
  valid_binary (SF64add a b) = true ->
  SFfinite (SF64div (SF64add a b) SFtwo) = true ->
  SFfinite a = true /\ SFfinite b = true /\
  Z.min (Zval a) (Zval b) <= Zval (SF64div (SF64add a b) SFtwo)
    <= Z.max (Zval a) (Zval b).
Proof.
  intros Va Vb Vs Fc.
  pose proof (@SFdiv_two_finite _ Fc) as Fs.
  destruct (@SFadd_finite _ _ Fs) as [Fa Fb].
  split; [exact Fa|]. split; [exact Fb|].
  pose proof (@rounds_to_value _ _ _ (@SFadd_rounds a b Va Vb Fa Fb) Fs)
    as Hadd.
  pose proof (@rounds_to_value _ _ _ (@SFdiv_two_rounds _ Vs Fs) Fc)
    as Hdiv.
  set (s := Zval (SF64add a b)) in *.
  set (c := Zval (SF64div (SF64add a b) SFtwo)) in *.
  assert (Hdouble : forall x : spec_float, valid_binary x = true ->
            (2 * Zval x <= Zval a + Zval b -> Zval x <= c) /\
            (Zval a + Zval b <= 2 * Zval x -> c <= Zval x)).
  { intros x Vx. destruct (@Zval_format x Vx) as (m & k & Hx & Hm & Hk).
    destruct (Hadd m (k + 1) Hm ltac:(lia)) as [A1 A2].
    destruct (Hdiv m k Hm Hk) as [D1 D2].
    rewrite Z.pow_add_r in A1, A2 by lia. change (2 ^ 1) with 2 in A1, A2.
    rewrite Hx. split; intros H.
    - apply D1. lia.
    - apply D2. lia. }
  destruct (Hdouble a Va) as [La Ua]. destruct (Hdouble b Vb) as [Lb Ub].
  lia.
Qed.

(** The midpoint of two finite floats is finite when their exact sum does
    not exceed the largest float. *)
Lemma SFmid_finite (a b : spec_float) :
  valid_binary a = true -> valid_binary b = true ->
  valid_binary (SF64add a b) = true ->
  SFfinite a = true -> SFfinite b = true ->
  - Zmax <= Zval a + Zval b <= Zmax ->
  SFfinite (SF64div (SF64add a b) SFtwo) = true.
Proof.
  intros Va Vb Vs Fa Fb Hsum.
  assert (Fs : SFfinite (SF64add a b) = true).
  { apply (@rounds_to_finite _ _ Zmax _ (@SFadd_rounds a b Va Vb Fa Fb));
      [apply Zmax_format | apply Zmax_small | lia]. }
  apply (@rounds_to_finite _ _ Zmax _ (@SFdiv_two_rounds _ Vs Fs));
    [apply Zmax_format | apply Zmax_small |].
  pose proof (@Zval_bound _ Vs). lia.
Qed.

(** *** The floats of the program *)

Lemma float64_is_finite (x : float) :
  PrimFloat.is_finite x = SFfinite (Prim2SF x).
Proof.
  unfold PrimFloat.is_finite, PrimFloat.is_nan, PrimFloat.is_infinity.
  rewrite !eqb_spec, abs_spec.
  change (Prim2SF infinity) with (S754_infinity false).
  destruct (Prim2SF x) as [s|s| |s m e]; try reflexivity.
  - destruct s; reflexivity.
  - unfold SFeqb. simpl.
    destruct s; rewrite Z.compare_refl, Pos.compare_cont_refl; reflexivity.
Qed.

Lemma float64_mid (a b : float) :
  Prim2SF (@mid float64 a b)
  = SF64div (SF64add (Prim2SF a) (Prim2SF b)) SFtwo.
Proof.
  unfold mid. cbn [div add two float64]. rewrite div_spec, add_spec.
  reflexivity.
Qed.

Lemma float64_leb_units (x y : float) :
  PrimFloat.is_finite x = true -> PrimFloat.is_finite y = true ->
  PrimFloat.leb x y = (units x <=? units y).
Proof.
  rewrite !float64_is_finite. intros Fx Fy.
  rewrite leb_spec. unfold SFleb.
  rewrite (@SFcompare_Zval _ _ (Prim2SF_valid x) (Prim2SF_valid y) Fx Fy).
  unfold units, Z.leb. destruct (_ ?= _); reflexivity.
Qed.

Lemma float64_between_units (x_0 x_1 y : float) :
  PrimFloat.is_finite x_0 = true -> PrimFloat.is_finite x_1 = true ->
  PrimFloat.is_finite y = true ->
  Z.min (units x_0) (units x_1) <= units y <= Z.max (units x_0) (units x_1) ->
  @between float64 x_0 x_1 y = true.
Proof.
  intros F0 F1 Fy H. unfold between. cbn [leb float64].
  rewrite !float64_leb_units by assumption.
  apply orb_true_iff.
  destruct (Z_le_gt_dec (units x_0) (units x_1)) as [Hle|Hgt];
    [left | right]; apply andb_true_iff; split; apply Z.leb_le; lia.
Qed.

Lemma float64_between_finite (x_0 x_1 y : float) :
  PrimFloat.is_finite x_0 = true -> PrimFloat.is_finite x_1 = true ->
  PrimFloat.is_finite y = false ->
  @between float64 x_0 x_1 y = false.
Proof.
  rewrite !float64_is_finite. intros F0 F1 Fy.
  unfold between. cbn [leb float64]. rewrite !leb_spec. unfold SFleb.
  destruct (Prim2SF x_0) as [s0|s0| |s0 m0 e0]; try discriminate;
    destruct (Prim2SF x_1) as [s1|s1| |s1 m1 e1]; try discriminate;
    destruct (Prim2SF y) as [s|s| |s m e]; try discriminate;
    cbn [SFcompare]; try reflexivity; destruct s; try reflexivity;
    try (destruct s0; reflexivity); try (destruct s1; reflexivity);
    destruct s0, s1; reflexivity.
Qed.

Lemma float64_mid_between (a b : float) :
  PrimFloat.is_finite (@mid float64 a b) = true ->
  PrimFloat.is_finite a = true /\ PrimFloat.is_finite b = true /\
  Z.min (units a) (units b) <= units (@mid float64 a b)
    <= Z.max (units a) (units b).
Proof.
  rewrite !float64_is_finite. unfold units. rewrite float64_mid.
  apply SFmid_between; try apply Prim2SF_valid.
  rewrite <- add_spec. apply Prim2SF_valid.
Qed.

Lemma float64_mid_finite (a b : float) :
  PrimFloat.is_finite a = true -> PrimFloat.is_finite b = true ->
  - Zmax <= units a + units b <= Zmax ->
  PrimFloat.is_finite (@mid float64 a b) = true.
Proof.
  rewrite !float64_is_finite. unfold units. rewrite float64_mid.
  apply SFmid_finite; try apply Prim2SF_valid.
  rewrite <- add_spec. apply Prim2SF_valid.
Qed.

Lemma Zval_abs (x : spec_float) : Zval (SFabs x) = Z.abs (Zval x).
Proof.
  destruct x as [s|s| |s m e]; try reflexivity.
  cbn [SFabs Zval].
  assert (0 <= 2 ^ (e + 1074)) by (apply Z.pow_nonneg; lia).
  destruct s; cbn [cond_Zopp]; nia.
Qed.

Lemma float64_can_double (x : float) :
  can_double x = true ->
  PrimFloat.is_finite x = true /\ 2 * Z.abs (units x) <= Zmax.
Proof.
  unfold can_double. rewrite ltb_spec, abs_spec, float64_is_finite.
  change (Prim2SF 0x1p1023%float)
    with (S754_finite false 4503599627370496 971).
  intros H.
  assert (Fx : SFfinite (Prim2SF x) = true).
  { destruct (Prim2SF x) as [s|s| |s m e]; try reflexivity; discriminate H. }
  split; [exact Fx|].
  apply Zval_half_bound; [apply Prim2SF_valid|].
  pose proof (Prim2SF_valid (PrimFloat.abs x)) as Va.
  rewrite abs_spec in Va.
  assert (Fa : SFfinite (SFabs (Prim2SF x)) = true)
    by (destruct (Prim2SF x); try discriminate; reflexivity).
  unfold SFltb in H.
  rewrite (@SFcompare_Zval (SFabs (Prim2SF x))
             (S754_finite false 4503599627370496 971) Va eq_refl Fa eq_refl)
    in H.
  rewrite Zval_abs in H.
  change (Zval (S754_finite false 4503599627370496 971))
    with (2 ^ 52 * 2 ^ 2045) in H.
  change (2 ^ 2097) with (2 ^ 52 * 2 ^ 2045).
  destruct (Z.compare_spec (Z.abs (Zval (Prim2SF x))) (2 ^ 52 * 2 ^ 2045));
    try discriminate. assumption.
Qed.

Section Float64Bisection.

Variables (F : float -> float) (eps : float) (max_its : Z).

(** Between two floats whose finite values lie in [[lo, hi]], a finite
    midpoint lies there too. *)
Lemma float64_mid_within (lo hi : Z) (a b : float) :
  (PrimFloat.is_finite a = true -> lo <= units a <= hi) ->
  (PrimFloat.is_finite b = true -> lo <= units b <= hi) ->
  PrimFloat.is_finite (@mid float64 a b) = true ->
  lo <= units (@mid float64 a b) <= hi.
Proof.
  intros Ha Hb Hm.
  destruct (@float64_mid_between a b Hm) as (Fa & Fb & Hin).
  specialize (Ha Fa). specialize (Hb Fb). lia.
Qed.

Lemma float64_body_inv (s s1 : @bracket float64) w w1 :
  @bisection_body float64 (@total float64 F) s w = (Value s1, w1) ->
  s1 = @bisection_next float64 F s.
Proof.
  rewrite (@bisection_body_total float64). intros H; inversion H; reflexivity.
Qed.

(** Whatever is finite in the loop state stays in [[lo, hi]]. *)
Lemma float64_interval_iterations (lo hi : Z) n c c' :
  iterations (@bisection_cond float64 (@total float64 F) eps max_its)
    (@bisection_body float64 (@total float64 F)) n c c' ->
  br_c (fst c) = @mid float64 (br_a (fst c)) (br_b (fst c)) ->
  (PrimFloat.is_finite (br_a (fst c)) = true ->
   lo <= units (br_a (fst c)) <= hi) ->
  (PrimFloat.is_finite (br_b (fst c)) = true ->
   lo <= units (br_b (fst c)) <= hi) ->
  (PrimFloat.is_finite (br_a (fst c')) = true ->
   lo <= units (br_a (fst c')) <= hi) /\
  (PrimFloat.is_finite (br_b (fst c')) = true ->
   lo <= units (br_b (fst c')) <= hi) /\
  (PrimFloat.is_finite (br_c (fst c')) = true ->
   lo <= units (br_c (fst c')) <= hi).
Proof.
  induction 1 as [c|n s w w1 s1 w2 c Hc Hb Hit IH]; intros Hmid Ha Hb'.
  - split; [exact Ha|]. split; [exact Hb'|].
    rewrite Hmid. apply float64_mid_within; assumption.
  - apply float64_body_inv in Hb. subst s1. cbn [fst] in *.
    assert (Hcin : PrimFloat.is_finite (br_c s) = true ->
                   lo <= units (br_c s) <= hi)
      by (rewrite Hmid; apply float64_mid_within; assumption).
    apply IH.
    + reflexivity.
    + unfold bisection_next; cbn [br_a]. destruct (@gtb float64 _ _);
        assumption.
    + unfold bisection_next; cbn [br_b]. destruct (@gtb float64 _ _);
        assumption.
Qed.

(** When twice the bound [h] does not overflow, a loop state within
    [[-h, h]] stays finite. *)
Lemma float64_finite_iterations (h : Z) n c c' :
  iterations (@bisection_cond float64 (@total float64 F) eps max_its)
    (@bisection_body float64 (@total float64 F)) n c c' ->
  2 * h <= Zmax ->
  br_c (fst c) = @mid float64 (br_a (fst c)) (br_b (fst c)) ->
  PrimFloat.is_finite (br_a (fst c)) = true /\
  - h <= units (br_a (fst c)) <= h ->
  PrimFloat.is_finite (br_b (fst c)) = true /\
  - h <= units (br_b (fst c)) <= h ->
  PrimFloat.is_finite (br_a (fst c')) = true /\
  PrimFloat.is_finite (br_b (fst c')) = true /\
  PrimFloat.is_finite (br_c (fst c')) = true.
Proof.
  intros Hit Hh.
  assert (Havg : forall a b,
            PrimFloat.is_finite a = true /\ - h <= units a <= h ->
            PrimFloat.is_finite b = true /\ - h <= units b <= h ->
            PrimFloat.is_finite (@mid float64 a b) = true /\
            - h <= units (@mid float64 a b) <= h).
  { intros a b [Fa Ha] [Fb Hb].
    assert (Fm : PrimFloat.is_finite (@mid float64 a b) = true)
      by (apply float64_mid_finite; [exact Fa | exact Fb | lia]).
    split; [exact Fm|].
    apply float64_mid_within; auto. }
  induction Hit as [c|n s w w1 s1 w2 c Hc Hb Hit IH]; intros Hmid Ha Hb'.
  - split; [apply Ha|]. split; [apply Hb'|].
    rewrite Hmid. apply Havg; assumption.
  - apply float64_body_inv in Hb. subst s1. cbn [fst] in *.
    assert (Hcin : PrimFloat.is_finite (br_c s) = true /\
                   - h <= units (br_c s) <= h)
      by (rewrite Hmid; apply Havg; assumption).
    apply IH.
    + reflexivity.
    + unfold bisection_next; cbn [br_a]. destruct (@gtb float64 _ _);
        assumption.
    + unfold bisection_next; cbn [br_b]. destruct (@gtb float64 _ _);
        assumption.
Qed.

End Float64Bisection.

(** A float lies between two finite floats exactly when it is finite and
    its value lies between theirs. *)
Lemma float64_between_within (x_0 x_1 y : float) :
  PrimFloat.is_finite x_0 = true -> PrimFloat.is_finite x_1 = true ->
  (PrimFloat.is_finite y = true ->
   Z.min (units x_0) (units x_1) <= units y
     <= Z.max (units x_0) (units x_1)) ->
  @between float64 x_0 x_1 y = PrimFloat.is_finite y.
Proof.
  intros F0 F1 H. destruct (PrimFloat.is_finite y) eqn:Fy.
  - apply float64_between_units; auto.
  - apply float64_between_finite; assumption.
Qed.

(** C9. On a bracket whose ends are finite floats, a bracket end or a
    midpoint of [bisection], and so a returned value, lies between [x_0] and
    [x_1] exactly when it is finite: as long as no sum [a + b] has
    overflowed.  When [|x_0|] and [|x_1|] are below [2^1023] no sum can
    overflow, and every bracket end, every midpoint and any returned value
    lies between [x_0] and [x_1], after every number of iterations. *)
Theorem float64_stays_in_bracket (F : float -> float)
    (x_0 x_1 eps : float) (max_its : Z) :
  @valid_bracket float64 F x_0 x_1 ->
  PrimFloat.is_finite x_0 = true ->
  PrimFloat.is_finite x_1 = true ->
  (forall (k : nat) (w w' : @trace float64) (s : @bracket float64),
      iterations (@bisection_cond float64 (@total float64 F) eps max_its)
        (@bisection_body float64 (@total float64 F)) k
        (@bisection_start float64 x_0 x_1, w) (s, w') ->
      (@between float64 x_0 x_1 (br_a s) = PrimFloat.is_finite (br_a s) /\
       @between float64 x_0 x_1 (br_b s) = PrimFloat.is_finite (br_b s) /\
       @between float64 x_0 x_1 (br_c s) = PrimFloat.is_finite (br_c s)) /\
      (can_double x_0 = true -> can_double x_1 = true ->
       @between float64 x_0 x_1 (br_a s) = true /\
       @between float64 x_0 x_1 (br_b s) = true /\
       @between float64 x_0 x_1 (br_c s) = true)) /\
  (forall (w : @trace float64) (r : float),
      fst (@bisection float64 (@total float64 F) x_0 x_1 eps max_its w)
      = Value r ->
      @between float64 x_0 x_1 r = PrimFloat.is_finite r /\
      (can_double x_0 = true -> can_double x_1 = true ->
       @between float64 x_0 x_1 r = true)).
Proof.
  intros Hvalid F0 F1.
  assert (Hstay : forall (k : nat) (w w' : @trace float64)
                    (s : @bracket float64),
      iterations (@bisection_cond float64 (@total float64 F) eps max_its)
        (@bisection_body float64 (@total float64 F)) k
        (@bisection_start float64 x_0 x_1, w) (s, w') ->
      (@between float64 x_0 x_1 (br_a s) = PrimFloat.is_finite (br_a s) /\
       @between float64 x_0 x_1 (br_b s) = PrimFloat.is_finite (br_b s) /\
       @between float64 x_0 x_1 (br_c s) = PrimFloat.is_finite (br_c s)) /\
      (can_double x_0 = true -> can_double x_1 = true ->
       @between float64 x_0 x_1 (br_a s) = true /\
       @between float64 x_0 x_1 (br_b s) = true /\
       @between float64 x_0 x_1 (br_c s) = true)).
  { intros k w w' s Hit.
    assert (Hin : @between float64 x_0 x_1 (br_a s)
                  = PrimFloat.is_finite (br_a s) /\
                  @between float64 x_0 x_1 (br_b s)
                  = PrimFloat.is_finite (br_b s) /\
                  @between float64 x_0 x_1 (br_c s)
                  = PrimFloat.is_finite (br_c s)).
    { destruct (@float64_interval_iterations F eps max_its
                  (Z.min (units x_0) (units x_1))
                  (Z.max (units x_0) (units x_1)) _ _ _ Hit)
        as (Ha & Hb & Hc);
        cbn [fst bisection_start br_a br_b br_c]; try reflexivity;
        try (intros _; lia).
      cbn [fst] in *.
      repeat split; apply float64_between_within; assumption. }
    split; [exact Hin|].
    intros D0 D1.
    destruct (@float64_can_double x_0 D0) as [_ B0].
    destruct (@float64_can_double x_1 D1) as [_ B1].
    destruct (@float64_finite_iterations F eps max_its
                (Z.max (Z.abs (units x_0)) (Z.abs (units x_1))) _ _ _ Hit)
      as (Fa & Fb & Fc);
      cbn [fst bisection_start br_a br_b br_c]; try reflexivity;
      try lia; try (split; [assumption | lia]).
    cbn [fst] in *. destruct Hin as (Ha & Hb & Hc).
    rewrite Ha, Hb, Hc, Fa, Fb, Fc. repeat split. }
  split; [exact Hstay|].
  intros w r H.
  rewrite (@bisection_run float64) in H. rewrite Hvalid in H.
  apply (@bisection_from_Value_state float64) in H.
  destruct H as (n & s' & w' & Hit & Hr). subst r.
  destruct (Hstay n _ _ _ Hit) as [(_ & _ & Hc) Hd].
  split; [exact Hc|]. intros D0 D1. apply (Hd D0 D1).
Qed.

(** ** Binary64: where rounding, overflow and NaN show *)

Module Binary64.

Import Examples.

Local Open Scope float_scope.

(** With floats a NaN passes the test of the loops: from [1e200] the cubic
    [x^3 - x^2] evaluates to NaN, [newton_raphson] returns [1e200] at once,
    and [|f(1e200)| <= eps] is false. *)
Lemma tolerance_contract_refuted : ~ @tolerance_contract float64.
Proof.
  intros H.
  specialize (H cubic cubic' f1e200 f17e307 default_eps 20%Z 20%Z [] f1e200
                eq_refl eq_refl eq_refl (or_introl eq_refl)).
  vm_compute in H. discriminate H.
Qed.

(** With floats the midpoint is rounded.  The midpoint of [1] and the next
    float rounds back to [1]: after one iteration the bracket is as wide as
    before. *)
Lemma halves_each_iteration_refuted : ~ @halves_each_iteration float64.
Proof.
  intros H.
  assert (Hit : iterations
                  (@bisection_cond float64 (@total float64 near_one)
                     tiny_eps 20)
                  (@bisection_body float64 (@total float64 near_one)) 1
                  (@bisection_start float64 1 after_one, [])
                  (@Bracket float64 1 after_one 1 2,
                   [@CallF float64 1; @CallF float64 1; @CallF float64 1])).
  { eapply iterations_S; [reflexivity | reflexivity | apply iterations_O]. }
  specialize (H near_one 1 after_one tiny_eps 20%Z 1%nat _ _ _ eq_refl Hit).
  vm_compute in H. discriminate H.
Qed.

(** With floats the sum [1e308 + 1.7e308] overflows: the first midpoint is
    infinite, and after one iteration so is the right end of the bracket. *)
Lemma stays_in_bracket_refuted : ~ @stays_in_bracket float64.
Proof.
  intros H.
  assert (Hit : iterations
                  (@bisection_cond float64 (@total float64 far_line)
                     default_eps 20)
                  (@bisection_body float64 (@total float64 far_line)) 1
                  (@bisection_start float64 f1e308 f17e307, [])
                  (@Bracket float64 f1e308 infinity infinity 2,
                   [@CallF float64 infinity; @CallF float64 f1e308;
                    @CallF float64 infinity])).
  { eapply iterations_S; [reflexivity | reflexivity | apply iterations_O]. }
  specialize (H far_line f1e308 f17e307 default_eps 20%Z 1%nat _ _ _
                eq_refl Hit).
  destruct H as (_ & Hb & _). vm_compute in Hb. discriminate Hb.
Qed.

(** A counterexample to C1: with the default tolerance, [newton_raphson] and
    [solve] return [1e200] for the cubic, where [|f(1e200)| <= eps] is
    false. *)
Lemma tolerance_counterexample :
  @gtb float64 default_eps zero = true /\
  fst (@newton_raphson float64 (@total float64 cubic) (@total float64 cubic')
         f1e200 default_eps 20 []) = Value f1e200 /\
  fst (@solve float64 (@total float64 cubic) (@total float64 cubic')
         f1e200 f17e307 default_eps 20 20 []) = Value f1e200 /\
  @leb float64 (@abs float64 (cubic f1e200)) default_eps = false.
Proof. repeat split; vm_compute; reflexivity. Qed.


(** A counterexample to C9: on the valid bracket [1e308, 1.7e308] the first
    midpoint and, after one iteration, the right end are infinite; the call
    ends in [ConvergenceError]. *)
Lemma containment_counterexample :
  @leb float64 (@mul float64 (far_line f1e308) (far_line f17e307))
    (@zero float64) = true /\
  @valid_bracket float64 far_line f1e308 f17e307 /\
  iterations
    (@bisection_cond float64 (@total float64 far_line) default_eps 20)
    (@bisection_body float64 (@total float64 far_line)) 1
    (@bisection_start float64 f1e308 f17e307, [])
    (@Bracket float64 f1e308 infinity infinity 2,
     [@CallF float64 infinity; @CallF float64 f1e308;
      @CallF float64 infinity]) /\
  @between float64 f1e308 f17e307 infinity = false /\
  fst (@bisection float64 (@total float64 far_line) f1e308 f17e307
         default_eps 20 [])
  = Raised (ConvergenceError "Max Iteration Reached").
Proof.
  split; [reflexivity|]. split; [reflexivity|].
  split; [|split; vm_compute; reflexivity].
  eapply iterations_S; [reflexivity | reflexivity | apply iterations_O].
Qed.

End Binary64.

(** ** The theorems at concrete inputs *)

Module Witnesses.

Import Examples.

Local Open Scope float_scope.

(** From [1], Newton-Raphson on [x^2 - 2] returns [1.4142156862745099], where
    [x^2 - 2] is a number within the default tolerance. *)
Lemma tolerance_witness :
  @leb float64 (@abs float64 (parabola newton_sqrt2)) default_eps = true.
Proof.
  apply (@float64_tolerance_unless_nan parabola parabola' 1 2 default_eps
           20 20 [] newton_sqrt2);
    [reflexivity | reflexivity | reflexivity | left; vm_compute; reflexivity
    | reflexivity].
Defined.

(** Derivative Iteration on [x^2 - 2] from [1]: three updates lead to
    [1.4142156862745099]; with a cap of one update the call fails to
    converge. *)
Lemma newton_parabola_witness :
  fst (@newton_raphson float64 (@total float64 parabola)
         (@total float64 parabola') 1 default_eps 20 [])
  = Value newton_sqrt2 /\
  exists msg,
    fst (@newton_raphson float64 (@total float64 parabola)
           (@total float64 parabola') 1 default_eps 1 [])
    = Raised (ConvergenceError msg).
Proof.
  split.
  - apply (proj1 (@newton_raphson_derivative_iteration float64 parabola
                    parabola' default_eps 20 1 [] float64_le_excludes_gt
                    eq_refl)).
    apply DI_update; [reflexivity | lia | reflexivity |].
    apply DI_update; [reflexivity | lia | reflexivity |].
    apply DI_update; [reflexivity | lia | reflexivity |].
    apply (@DI_return float64 parabola parabola' default_eps 20 newton_sqrt2).
    reflexivity.
  - apply (proj1 (proj2 (@newton_raphson_derivative_iteration float64 parabola
                           parabola' default_eps 1 1 []
                           float64_le_excludes_gt eq_refl))).
    apply DI_update; [reflexivity | lia | reflexivity |].
    apply DI_fail; [reflexivity | lia].
Defined.

(** Bracketing Iteration on [x^2 - 2] over [1, 2] with tolerance [0.2]: the
    right end, then the left end are replaced and [1.375] is returned; with a
    cap of one iteration the call fails to converge. *)
Lemma bisection_parabola_witness :
  fst (@bisection float64 (@total float64 parabola) 1 2 coarse_eps 20 [])
  = Value 1.375 /\
  exists msg,
    fst (@bisection float64 (@total float64 parabola) 1 2 coarse_eps 1 [])
    = Raised (ConvergenceError msg).
Proof.
  split.
  - apply (proj1 (@bisection_bracketing_iteration float64 parabola coarse_eps
                    20 1 2 [] float64_le_excludes_gt eq_refl eq_refl)).
    apply BI_replace_b; [reflexivity | lia | reflexivity |].
    apply BI_replace_a; [reflexivity | lia | reflexivity |].
    apply (@BI_return float64 parabola coarse_eps 20 1.25 1.5). reflexivity.
  - apply (proj1 (proj2 (@bisection_bracketing_iteration float64 parabola
                           coarse_eps 1 1 2 [] float64_le_excludes_gt
                           eq_refl eq_refl))).
    apply BI_replace_b; [reflexivity | lia | reflexivity |].
    apply BI_fail; [reflexivity | lia].
Defined.

(** [x^2 - 2] is negative at both [0] and [0.5]: [bisection] over [0, 0.5]
    raises [ValueError] after calling [f] at the two ends only. *)
Lemma bisection_same_sign_witness :
  (exists msg,
      fst (@bisection float64 (@total float64 parabola) 0 0.5 default_eps 20 [])
      = Raised (ValueError msg)) /\
  @bisection float64 (@total float64 parabola) 0 0.5 default_eps 20 []
  = (Raised (ValueError "Input are of the same sign"),
     [@CallF float64 0; @CallF float64 0.5]).
Proof.
  destruct (@bisection_ValueError_iff float64 parabola default_eps 20 0 0.5 [])
    as (Hiff & Hrun & _).
  split.
  - apply (proj1 Hiff). reflexivity.
  - apply (Hrun (@total float64 parabola)); reflexivity.
Defined.

(** [solve] on [x^2 - 2] returns the Newton-Raphson value; on the cubic whose
    Newton iterates cycle it falls back to [bisection] and returns its value;
    on the cubic whose derivative vanishes at the first iterate it raises
    [ZeroDivisionError]. *)
Lemma solve_witness :
  fst (@solve float64 (@total float64 parabola) (@total float64 parabola')
         1 2 default_eps 20 20 []) = Value newton_sqrt2 /\
  @solve float64 (@total float64 cycle) (@total float64 cycle')
    0 (-2) default_eps 20 20 []
  = @bisection float64 (@total float64 cycle) 0 (-2) default_eps 20
      (snd (@newton_raphson float64 (@total float64 cycle)
              (@total float64 cycle') 0 default_eps 20
              [Printed "Attempting division by Newton Raphson"])
       ++ [Printed "Attempting division by Bisection"]) /\
  fst (@solve float64 (@total float64 bump) (@total float64 bump')
         0 2 default_eps 20 20 []) = Raised ZeroDivisionError.
Proof.
  split; [|split].
  - destruct (@solve_falls_back_on_ConvergenceError float64
                (@total float64 parabola) (@total float64 parabola')
                1 2 default_eps 20 20 []) as (Hvalue & _ & _).
    rewrite (proj1 (Hvalue newton_sqrt2 _ ltac:(vm_compute; reflexivity))).
    reflexivity.
  - destruct (@solve_falls_back_on_ConvergenceError float64
                (@total float64 cycle) (@total float64 cycle')
                0 (-2) default_eps 20 20 []) as (_ & Hfallback & _).
    apply (Hfallback "Max Iteration Reached"%string).
    vm_compute. reflexivity.
  - destruct (@solve_falls_back_on_ConvergenceError float64
                (@total float64 bump) (@total float64 bump')
                0 2 default_eps 20 20 []) as (_ & _ & Hother).
    rewrite (proj1 (Hother ZeroDivisionError _
                      ltac:(vm_compute; reflexivity) eq_refl)).
    reflexivity.
Defined.

(** On [x^3 - 3x + 3] from [0] the first iterate is [1], where the derivative
    is zero while [f(1) = 1] is above the tolerance. *)
Lemma zero_derivative_witness :
  fst (@newton_raphson float64 (@total float64 bump) (@total float64 bump')
         0 default_eps 20 []) = Raised ZeroDivisionError /\
  fst (@solve float64 (@total float64 bump) (@total float64 bump')
         0 2 default_eps 20 20 []) = Raised ZeroDivisionError /\
  (@bisection_not_attempted float64 [] ->
   @bisection_not_attempted float64
     (snd (@solve float64 (@total float64 bump) (@total float64 bump')
             0 2 default_eps 20 20 []))) /\
  is_ConvergenceError ZeroDivisionError = false.
Proof.
  apply (@zero_derivative_raises float64 bump bump' 0 2 default_eps 20 20
           1 1 2 []
           [@CallF float64 0; @CallF float64 0; @CallDf float64 0] []).
  - eapply iterations_S; [reflexivity | reflexivity | apply iterations_O].
  - reflexivity.
  - lia.
  - reflexivity.
Defined.

(** At the float nearest to the square root of 2, [x^2 - 2] is within the
    default tolerance: [newton_raphson] returns that float although the
    derivative it is given raises whenever called. *)
Lemma converged_at_start_witness :
  @newton_raphson float64 (@total float64 parabola) faulty sqrt2
    default_eps 20 []
  = (Value sqrt2, [@CallF float64 sqrt2; @CallF float64 sqrt2]) /\
  @df_not_called float64 [@CallF float64 sqrt2; @CallF float64 sqrt2].
Proof.
  apply (@newton_raphson_converged_at_start float64 (@total float64 parabola)
           faulty sqrt2 default_eps (parabola sqrt2) 20 []
           float64_le_excludes_gt eq_refl eq_refl).
Defined.


(** With floats, [bisection] on [x^2 - 2] over [1, 2] is after two
    iterations on the bracket [1.25, 1.5] with the midpoint [1.375], which it
    returns for the tolerance [0.2]: all of them lie between [1] and [2]. *)
Lemma float64_containment_witness :
  (@between float64 1 2 1.25 = true /\
   @between float64 1 2 1.5 = true /\
   @between float64 1 2 1.375 = true) /\
  @between float64 1 2 1.375 = true.
Proof.
  destruct (@float64_stays_in_bracket parabola 1 2 coarse_eps 20%Z
              eq_refl eq_refl eq_refl) as [Hstay Hret].
  split.
  - refine (proj2 (Hstay 2%nat [] _ (@Bracket float64 1.25 1.5 1.375 3) _)
              eq_refl eq_refl).
    eapply iterations_S; [reflexivity | reflexivity |].
    eapply iterations_S; [reflexivity | reflexivity |].
    apply iterations_O.
  - apply (proj2 (Hret [] 1.375 eq_refl) eq_refl eq_refl).
Defined.

(** Over fractions, the ends and the midpoint of that bracket lie between [1]
    and [2], and so does the value [23/16] that [bisection] returns. *)
Lemma fraction_containment_witness :
  (@between fraction 1%Q 2%Q (br_a qstate2) = true /\
   @between fraction 1%Q 2%Q (br_b qstate2) = true /\
   @between fraction 1%Q 2%Q (br_c qstate2) = true) /\
  @between fraction 1%Q 2%Q (23 # 16)%Q = true.
Proof.
  destruct fraction_stays_in_bracket as [Hstay Hret]. split.
  - eapply (Hstay qparabola 1%Q 2%Q (1 # 10)%Q 20%Z 2%nat [] _ qstate2).
    + reflexivity.
    + eapply iterations_S; [reflexivity | reflexivity |].
      eapply iterations_S; [reflexivity | reflexivity |].
      apply iterations_O.
  - apply (Hret qparabola 1%Q 2%Q (1 # 10)%Q 20%Z []); reflexivity.
Defined.

End Witnesses.

(** ** The testable properties of the specification, run on the model *)

Module Tests.

Import Examples.

Local Open Scope float_scope.

(** Newton-Raphson on [x^2 - 2] from [1.0]: the result is within [eps] of the
    square root of 2 and meets the tolerance. *)
Example newton_correctness :
  fst (@newton_raphson float64 (@total float64 parabola)
         (@total float64 parabola') 1 default_eps 20 [])
  = Value newton_sqrt2 /\
  (PrimFloat.abs (newton_sqrt2 - sqrt2) <? default_eps) = true /\
  (PrimFloat.abs (parabola newton_sqrt2) <=? default_eps) = true.
Proof. repeat split; vm_compute; reflexivity. Qed.

(** Bisection on [x^2 - 2] over [0, 2]: the result is within [eps] of the
    square root of 2. *)
Example bisection_correctness :
  fst (@bisection float64 (@total float64 parabola) 0 2 default_eps 20 [])
  = Value 1.414215087890625 /\
  (PrimFloat.abs (1.414215087890625 - sqrt2) <? default_eps) = true.
Proof. repeat split; vm_compute; reflexivity. Qed.

(** With a cap of one iteration Newton-Raphson from [1.0] raises. *)
Example convergence_cap :
  fst (@newton_raphson float64 (@total float64 parabola)
         (@total float64 parabola') 1 default_eps 1 [])
  = Raised (ConvergenceError "Max Iteration Reached").
Proof. vm_compute. reflexivity. Qed.

(** Where Newton-Raphson cycles, [solve] returns the value of the
    bisection. *)
Example fallback_composition :
  fst (@newton_raphson float64 (@total float64 cycle) (@total float64 cycle')
         0 default_eps 20 [])
  = Raised (ConvergenceError "Max Iteration Reached") /\
  fst (@bisection float64 (@total float64 cycle) 0 (-2) default_eps 20 [])
  = Value cycle_root /\
  fst (@solve float64 (@total float64 cycle) (@total float64 cycle')
         0 (-2) default_eps 20 20 [])
  = Value cycle_root.
Proof. repeat split; vm_compute; reflexivity. Qed.

(** When [f(a)*f(c)] is zero the right end is replaced: for [f(x) = x] over
    [0, 4] the left end stays at the root [0] and the midpoints go [2, 1,
    0.5, 0.25]. *)
Example zero_product_replaces_b :
  @bisection float64 (@total float64 identity) 0 4 default_eps 3 []
  = (Raised (ConvergenceError "Max Iteration Reached"),
     [@CallF float64 0; @CallF float64 4;
      @CallF float64 2; @CallF float64 0; @CallF float64 2;
      @CallF float64 1; @CallF float64 0; @CallF float64 1;
      @CallF float64 0.5; @CallF float64 0; @CallF float64 0.5;
      @CallF float64 0.25; @CallF float64 0.25]).
Proof. vm_compute. reflexivity. Qed.

(** A cap below zero is outside the contract: the loop is skipped and so is
    the check after it, and the initial estimate is returned as it is. *)
Example negative_cap_returns_start :
  fst (@newton_raphson float64 (@total float64 parabola)
         (@total float64 parabola') 1 default_eps (-1) [])
  = Value 1.
Proof. vm_compute. reflexivity. Qed.

End Tests.

(** * Further properties of the three functions *)

(** ** The cost of a call *)

Section Budget.

Context {N : PyNum}.

Lemma calls_f_app w1 w2 : calls_f (w1 ++ w2) = (calls_f w1 + calls_f w2)%nat.
Proof. unfold calls_f. rewrite filter_app, List.length_app. reflexivity. Qed.

Lemma calls_df_app w1 w2 :
  calls_df (w1 ++ w2) = (calls_df w1 + calls_df w2)%nat.
Proof. unfold calls_df. rewrite filter_app, List.length_app. reflexivity. Qed.

Lemma snd_call_f f x w : snd (call_f f x w) = w ++ [CallF x].
Proof. unfold call_f, bind, emit; simpl. destruct (f x); reflexivity. Qed.

Lemma snd_call_df df x w : snd (call_df df x w) = w ++ [CallDf x].
Proof. unfold call_df, bind, emit; simpl. destruct (df x); reflexivity. Qed.

Lemma snd_truediv a b w : snd (truediv a b w) = w.
Proof. unfold truediv. destruct (eqb b zero); reflexivity. Qed.

























End Budget.

(** ** Caps outside the contract, and convergence before the first
    iteration *)

Section Edges.

Context {N : PyNum}.

(** X2. With a cap that is not positive [newton_raphson] makes no update and
    never calls [df]: it calls [f] twice at [x_0]; with the cap [0] it raises
    [ConvergenceError] when [|f(x_0)| > eps] and returns [x_0] otherwise;
    with a negative cap it returns [x_0] whatever [f(x_0)] is, since the
    check after the loop compares the counter [1] with [max_its + 1]. *)
Theorem newton_raphson_nonpositive_cap (f df : callable) (x_0 eps v : num)
    (max_its : Z) (w : trace) :
  f x_0 = Returns v ->
  max_its <= 0 ->
  newton_raphson f df x_0 eps max_its w
  = (if (max_its =? 0) && gtb (abs v) eps
     then Raised (ConvergenceError "Max Iteration Reached")
     else Value x_0,
     w ++ [CallF x_0; CallF x_0]).
Proof.
  intros Hf Hcap.
  unfold newton_raphson, newton_loop, loop_fuel. cbn [while].
  unfold newton_cond, call_f, bind, emit, of_reply, ret, raise.
  rewrite Hf.
  replace (1 <=? max_its) with false by (symmetry; apply Z.leb_gt; lia).
  rewrite andb_false_r. rewrite Hf. rewrite <- app_assoc.
  replace (1 =? max_its + 1) with (max_its =? 0)
    by (destruct (Z.eqb_spec max_its 0); symmetry;
        [apply Z.eqb_eq | apply Z.eqb_neq]; lia).
  destruct ((max_its =? 0) && gtb (abs v) eps); reflexivity.
Qed.

(** X3. On a bracket that passes the sign check, a cap that is not positive
    makes [bisection] test the first midpoint only: with the cap [0] it raises
    [ConvergenceError] when [|f(c)| > eps] and returns [c] otherwise; with a
    negative cap it returns the midpoint whatever [f(c)] is. *)
Theorem bisection_nonpositive_cap (F : num -> num) (x_0 x_1 eps : num)
    (max_its : Z) (w : trace) :
  valid_bracket F x_0 x_1 ->
  max_its <= 0 ->
  bisection (total F) x_0 x_1 eps max_its w
  = (if (max_its =? 0) && gtb (abs (F (mid x_0 x_1))) eps
     then Raised (ConvergenceError "Max Iteration Reached")
     else Value (mid x_0 x_1),
     w ++ [CallF x_0; CallF x_1; CallF (mid x_0 x_1); CallF (mid x_0 x_1)]).
Proof.
  intros Hvalid Hcap. rewrite bisection_run, Hvalid.
  unfold loop_fuel. rewrite bisection_from_step.
  cbn [bisection_start br_a br_b br_c br_k].
  replace (1 <=? max_its) with false by (symmetry; apply Z.leb_gt; lia).
  rewrite andb_false_r. rewrite <- app_assoc.
  replace (1 =? max_its + 1) with (max_its =? 0)
    by (destruct (Z.eqb_spec max_its 0); symmetry;
        [apply Z.eqb_eq | apply Z.eqb_neq]; lia).
  destruct ((max_its =? 0) && gtb (abs (F (mid x_0 x_1))) eps); reflexivity.
Qed.

(** X4. When the first midpoint of a bracket that passes the sign check does
    not have [|f(c)| > eps], [bisection] returns it without an iteration,
    whatever the cap: the calls of [f] are the two of the sign check and two
    at the midpoint. *)
Theorem bisection_converged_at_start (F : num -> num) (x_0 x_1 eps : num)
    (max_its : Z) (w : trace) :
  valid_bracket F x_0 x_1 ->
  gtb (abs (F (mid x_0 x_1))) eps = false ->
  bisection (total F) x_0 x_1 eps max_its w
  = (Value (mid x_0 x_1),
     w ++ [CallF x_0; CallF x_1; CallF (mid x_0 x_1); CallF (mid x_0 x_1)]).
Proof.
  intros Hvalid Hconv. rewrite bisection_run, Hvalid.
  unfold loop_fuel. rewrite bisection_from_step.
  cbn [bisection_start br_a br_b br_c br_k].
  rewrite Hconv. cbn [andb]. rewrite andb_false_r, <- app_assoc.
  reflexivity.
Qed.

End Edges.

(** ** The exceptions a caller can meet *)

Section Failures.

Context {N : PyNum}.

Variables (F DF : num -> num).

Lemma newton_from_Raised eps max_its fuel :
  forall x k w e,
    fst (newton_from (total F) (total DF) eps max_its (x, k) fuel w)
    = Raised e ->
    e = ConvergenceError "Max Iteration Reached" \/ e = ZeroDivisionError.
Proof.
  induction fuel as [|fuel IH]; intros x k w e H.
  - discriminate.
  - rewrite newton_from_step in H.
    destruct (gtb (abs (F x)) eps && (k <=? max_its)).
    + destruct (eqb (DF x) zero).
      * inversion H. right; reflexivity.
      * exact (IH _ _ _ _ H).
    + destruct ((k =? max_its + 1) && gtb (abs (F x)) eps);
        inversion H. left; reflexivity.
Qed.

Lemma bisection_from_Raised_message eps max_its fuel :
  forall s w e,
    fst (bisection_from (total F) eps max_its s fuel w) = Raised e ->
    e = ConvergenceError "Max Iteration Reached".
Proof.
  induction fuel as [|fuel IH]; intros s w e H.
  - discriminate.
  - rewrite bisection_from_step in H.
    destruct (gtb (abs (F (br_c s))) eps && (br_k s <=? max_its)).
    + exact (IH _ _ _ H).
    + destruct ((br_k s =? max_its + 1) && gtb (abs (F (br_c s))) eps);
        inversion H; reflexivity.
Qed.

Lemma newton_raphson_Raised x_0 eps max_its w e :
  fst (newton_raphson (total F) (total DF) x_0 eps max_its w) = Raised e ->
  e = ConvergenceError "Max Iteration Reached" \/ e = ZeroDivisionError.
Proof. rewrite newton_raphson_from. apply newton_from_Raised. Qed.

Lemma bisection_Raised x_0 x_1 eps max_its w e :
  fst (bisection (total F) x_0 x_1 eps max_its w) = Raised e ->
  e = ValueError "Input are of the same sign" \/
  e = ConvergenceError "Max Iteration Reached".
Proof.
  rewrite bisection_run. destruct (gtb (mul (F x_0) (F x_1)) zero).
  - intros H; inversion H. left; reflexivity.
  - intros H. right. exact (bisection_from_Raised_message _ _ _ _ _ H).
Qed.

(** The outcome of a run does not depend on the trace it starts from. *)
Lemma appends_fst {A} (m : M A) w1 w2 :
  appends m -> fst (m w1) = fst (m w2).
Proof. intros Hm. rewrite (Hm w1), (Hm w2). reflexivity. Qed.

(** The outcome of [solve], from the outcomes of the two methods called on
    their own. *)
Lemma solve_outcome (f df : callable) x_0 x_1 eps max_its_n max_its_b w :
  fst (solve f df x_0 x_1 eps max_its_n max_its_b w)
  = match fst (newton_raphson f df x_0 eps max_its_n w) with
    | Raised e =>
        if is_ConvergenceError e
        then fst (bisection f x_0 x_1 eps max_its_b w)
        else Raised e
    | o => o
    end.
Proof.
  rewrite solve_run.
  rewrite (appends_fst w
             (w ++ [Printed "Attempting division by Newton Raphson"])
             (appends_newton_raphson f df x_0 eps max_its_n)).
  destruct (newton_raphson f df x_0 eps max_its_n
              (w ++ [Printed "Attempting division by Newton Raphson"]))
    as [[v|e|] w'] eqn:E; simpl; try reflexivity.
  destruct (is_ConvergenceError e); [|reflexivity].
  apply appends_fst. apply appends_bisection.
Qed.

(** X5. For callables that return, the three functions raise nothing but
    their own exceptions: [newton_raphson] only [ConvergenceError] or
    [ZeroDivisionError]; [bisection] only [ValueError] or [ConvergenceError],
    never [ZeroDivisionError] (it divides by the literal 2 only); [solve] only
    one of the three. *)
Theorem solver_exceptions (x_0 x_1 eps : num) (max_its_n max_its_b : Z)
    (w : trace) :
  (forall e,
      fst (newton_raphson (total F) (total DF) x_0 eps max_its_n w)
      = Raised e ->
      e = ConvergenceError "Max Iteration Reached" \/ e = ZeroDivisionError)
  /\
  (forall e,
      fst (bisection (total F) x_0 x_1 eps max_its_b w) = Raised e ->
      e = ValueError "Input are of the same sign" \/
      e = ConvergenceError "Max Iteration Reached") /\
  (forall e,
      fst (solve (total F) (total DF) x_0 x_1 eps max_its_n max_its_b w)
      = Raised e ->
      e = ZeroDivisionError \/
      e = ValueError "Input are of the same sign" \/
      e = ConvergenceError "Max Iteration Reached").
Proof.
  split; [intros e; apply newton_raphson_Raised|].
  split; [intros e; apply bisection_Raised|].
  intros e. rewrite solve_outcome.
  destruct (fst (newton_raphson (total F) (total DF) x_0 eps max_its_n w))
    as [v|e'|] eqn:E; try discriminate.
  destruct (newton_raphson_Raised _ _ _ _ E) as [-> | ->]; simpl.
  - intros H. right. exact (bisection_Raised _ _ _ _ _ H).
  - intros H; inversion H. left; reflexivity.
Qed.

(** X6. Which failure [solve] ends in, for callables that return: it raises
    [ZeroDivisionError] exactly when Newton-Raphson does; [ValueError] exactly
    when Newton-Raphson fails to converge and [f(x_0)*f(x_1) > 0];
    [ConvergenceError] exactly when both methods fail to converge.  The
    failure of Newton-Raphson itself is then not what the caller sees. *)
Theorem solve_failure_kinds (x_0 x_1 eps : num) (max_its_n max_its_b : Z)
    (w : trace) :
  let newton := fst (newton_raphson (total F) (total DF) x_0 eps max_its_n w) in
  let bisect := fst (bisection (total F) x_0 x_1 eps max_its_b w) in
  let both := fst (solve (total F) (total DF) x_0 x_1 eps max_its_n
                     max_its_b w) in
  let failed := Raised (ConvergenceError "Max Iteration Reached") in
  (both = Raised ZeroDivisionError <-> newton = Raised ZeroDivisionError) /\
  (both = Raised (ValueError "Input are of the same sign") <->
   newton = failed /\ gtb (mul (F x_0) (F x_1)) zero = true) /\
  (both = failed <-> newton = failed /\ bisect = failed).
Proof.
  cbv zeta. rewrite solve_outcome.
  assert (Hb : fst (bisection (total F) x_0 x_1 eps max_its_b w)
               = Raised (ValueError "Input are of the same sign") <->
               gtb (mul (F x_0) (F x_1)) zero = true).
  { rewrite bisection_run.
    destruct (gtb (mul (F x_0) (F x_1)) zero); split; try reflexivity;
      try discriminate.
    intros H. apply bisection_from_Raised_message in H. discriminate. }
  assert (Hbz : fst (bisection (total F) x_0 x_1 eps max_its_b w)
                <> Raised ZeroDivisionError).
  { intros H. apply bisection_Raised in H. destruct H; discriminate. }
  destruct (fst (newton_raphson (total F) (total DF) x_0 eps max_its_n w))
    as [v|e|] eqn:E.
  - repeat split; try discriminate; intros [H _]; discriminate.
  - destruct (newton_raphson_Raised _ _ _ _ E) as [-> | ->]; simpl.
    + split; [split; [intros H; contradiction | discriminate]|].
      split.
      * rewrite Hb. split; [intros H; split; [reflexivity | exact H]
                           | intros [_ H]; exact H].
      * split; [intros H; split; [reflexivity | exact H]
               | intros [_ H]; exact H].
    + split; [split; reflexivity|].
      split; (split; [discriminate | intros [H _]; discriminate]).
  - repeat split; try discriminate; intros [H _]; discriminate.
Qed.

End Failures.

(** ** What is printed *)

Section Printing.

Context {N : PyNum}.

Lemma printed_app w1 w2 : printed (w1 ++ w2) = printed w1 ++ printed w2.
Proof. unfold printed. apply flat_map_app. Qed.

Lemma prints_nothing_bind {A B} (m : M A) (k : A -> M B) :
  prints_nothing m -> (forall a, prints_nothing (k a)) ->
  prints_nothing (bind m k).
Proof.
  intros Hm Hk w. unfold bind. specialize (Hm w).
  destruct (m w) as [[a|e|] w1]; simpl in *; try exact Hm.
  rewrite (Hk a w1). exact Hm.
Qed.

Lemma prints_nothing_ret {A} (a : A) : prints_nothing (ret a).
Proof. intros w; reflexivity. Qed.

Lemma prints_nothing_raise {A} e : prints_nothing (@raise _ A e).
Proof. intros w; reflexivity. Qed.

Lemma prints_nothing_call_f f x : prints_nothing (call_f f x).
Proof.
  intros w. rewrite snd_call_f, printed_app. simpl. apply app_nil_r.
Qed.

Lemma prints_nothing_call_df df x : prints_nothing (call_df df x).
Proof.
  intros w. rewrite snd_call_df, printed_app. simpl. apply app_nil_r.
Qed.

Lemma prints_nothing_truediv a b : prints_nothing (truediv a b).
Proof. intros w. rewrite snd_truediv. reflexivity. Qed.

Lemma prints_nothing_while {S} (cond : S -> M bool) (body : S -> M S) :
  (forall s, prints_nothing (cond s)) -> (forall s, prints_nothing (body s)) ->
  forall fuel s, prints_nothing (while fuel cond body s).
Proof.
  intros Hc Hb. induction fuel as [|fuel IH]; intros s.
  - intros w; reflexivity.
  - simpl. apply prints_nothing_bind; [apply Hc|]. intros [|].
    + apply prints_nothing_bind; [apply Hb | apply IH].
    + apply prints_nothing_ret.
Qed.

Lemma prints_nothing_newton_raphson f df x_0 eps max_its :
  prints_nothing (newton_raphson f df x_0 eps max_its).
Proof.
  unfold newton_raphson, newton_loop. apply prints_nothing_bind.
  - apply prints_nothing_while.
    + intros [x k]. apply prints_nothing_bind;
        [apply prints_nothing_call_f | intros; apply prints_nothing_ret].
    + intros [x k]. unfold newton_body.
      apply prints_nothing_bind; [apply prints_nothing_call_f | intros fx].
      apply prints_nothing_bind; [apply prints_nothing_call_df | intros dfx].
      apply prints_nothing_bind; [apply prints_nothing_truediv | intros q].
      apply prints_nothing_ret.
  - intros [x k].
    apply prints_nothing_bind; [apply prints_nothing_call_f | intros fx].
    destruct ((k =? max_its + 1) && gtb (abs fx) eps);
      [apply prints_nothing_raise | apply prints_nothing_ret].
Qed.

Lemma prints_nothing_bisection f x_0 x_1 eps max_its :
  prints_nothing (bisection f x_0 x_1 eps max_its).
Proof.
  unfold bisection, bisection_loop.
  apply prints_nothing_bind; [apply prints_nothing_truediv | intros c].
  apply prints_nothing_bind; [apply prints_nothing_call_f | intros fa].
  apply prints_nothing_bind; [apply prints_nothing_call_f | intros fb].
  destruct (gtb (mul fa fb) zero); [apply prints_nothing_raise|].
  apply prints_nothing_bind.
  - apply prints_nothing_while.
    + intros s. apply prints_nothing_bind;
        [apply prints_nothing_call_f | intros; apply prints_nothing_ret].
    + intros s. unfold bisection_body.
      apply prints_nothing_bind; [apply prints_nothing_call_f | intros fa'].
      apply prints_nothing_bind; [apply prints_nothing_call_f | intros fc'].
      apply prints_nothing_bind; [apply prints_nothing_truediv | intros c'].
      apply prints_nothing_ret.
  - intros s.
    apply prints_nothing_bind; [apply prints_nothing_call_f | intros fc].
    destruct ((br_k s =? max_its + 1) && gtb (abs fc) eps);
      [apply prints_nothing_raise | apply prints_nothing_ret].
Qed.

(** X7. What the three functions print, whatever the callables do:
    [newton_raphson] and [bisection] print nothing; [solve] prints the line of
    the Newton-Raphson attempt once, first, and after it the line of the
    bisection attempt, once, exactly when Newton-Raphson raised
    [ConvergenceError]. *)
Theorem solve_prints (f df : callable) (x_0 x_1 eps : num)
    (max_its_n max_its_b : Z) (w : trace) :
  printed (snd (newton_raphson f df x_0 eps max_its_n w)) = printed w /\
  printed (snd (bisection f x_0 x_1 eps max_its_b w)) = printed w /\
  printed (snd (solve f df x_0 x_1 eps max_its_n max_its_b w))
  = printed w
    ++ "Attempting division by Newton Raphson"%string
       :: match fst (newton_raphson f df x_0 eps max_its_n w) with
          | Raised e =>
              if is_ConvergenceError e
              then ["Attempting division by Bisection"%string]
              else []
          | _ => []
          end.
Proof.
  split; [apply prints_nothing_newton_raphson|].
  split; [apply prints_nothing_bisection|].
  rewrite solve_run.
  rewrite (appends_fst w
             (w ++ [Printed "Attempting division by Newton Raphson"])
             (appends_newton_raphson f df x_0 eps max_its_n)).
  pose proof (prints_nothing_newton_raphson f df x_0 eps max_its_n
                (w ++ [Printed "Attempting division by Newton Raphson"]))
    as Hn.
  rewrite printed_app in Hn. simpl in Hn.
  destruct (newton_raphson f df x_0 eps max_its_n
              (w ++ [Printed "Attempting division by Newton Raphson"]))
    as [[v|e|] w'] eqn:E; simpl in *; try exact Hn.
  destruct (is_ConvergenceError e); [|exact Hn].
  rewrite prints_nothing_bisection, printed_app, Hn. simpl.
  rewrite <- app_assoc. reflexivity.
Qed.

End Printing.

(** ** Exact arithmetic: what bisection keeps and returns *)

Section FractionBisection.

Local Open Scope Q_scope.

Variable F : Q -> Q.

Lemma fraction_gtb_zero (p : Q) :
  @gtb fraction p (@zero fraction) = true <-> 0 < p.
Proof.
  change (@gtb fraction p (@zero fraction)) with (negb (Qle_bool p 0)).
  destruct (Qle_bool p 0) eqn:E; simpl.
  - apply Qle_bool_iff in E. split; [discriminate | intros H; lra].
  - split; [intros _ | reflexivity].
    destruct (Qlt_le_dec 0 p) as [H|H]; [exact H|].
    apply Qle_bool_iff in H. congruence.
Qed.

Lemma fraction_mul_positive (p q : Q) :
  @gtb fraction (@mul fraction p q) (@zero fraction) = true <-> 0 < p * q.
Proof.
  rewrite fraction_gtb_zero.
  change (@mul fraction p q) with (Qred (p * q)).
  rewrite Qred_correct. reflexivity.
Qed.

Lemma fraction_valid_bracket (x_0 x_1 : Q) :
  @valid_bracket fraction F x_0 x_1 <-> F x_0 * F x_1 <= 0.
Proof.
  unfold valid_bracket.
  destruct (@gtb fraction (@mul fraction (F x_0) (F x_1)) (@zero fraction))
    eqn:E.
  - apply fraction_mul_positive in E. split; [discriminate | intros H; lra].
  - split; [intros _ | reflexivity].
    destruct (Qlt_le_dec 0 (F x_0 * F x_1)) as [H|H]; [|exact H].
    apply fraction_mul_positive in H. congruence.
Qed.

(** A product of three signs: when [p*r] is positive and [p*q] is not, [r*q]
    is not. *)
Lemma sign_transfer (p q r : Q) : 0 < p * r -> p * q <= 0 -> r * q <= 0.
Proof.
  intros Hpr Hpq.
  destruct (Qlt_le_dec 0 (r * q)) as [H|H]; [|exact H].
  assert (H1 : 0 < (p * r) * (r * q)) by (apply Qmult_lt_0_compat; assumption).
  assert (H2 : (p * r) * (r * q) == (p * q) * (r * r)) by ring.
  assert (H3 : 0 <= r * r) by nra.
  assert (H4 : (p * q) * (r * r) <= 0) by nra.
  lra.
Qed.

(** One iteration keeps the sign change between the ends. *)
Lemma fraction_next_sign (s : @bracket fraction) :
  F (br_a s) * F (br_b s) <= 0 ->
  let s1 := @bisection_next fraction F s in
  F (br_a s1) * F (br_b s1) <= 0.
Proof.
  intros Hsign. unfold bisection_next. cbn [br_a br_b br_c br_k].
  destruct (@gtb fraction (@mul fraction (F (br_a s)) (F (br_c s)))
              (@zero fraction)) eqn:E.
  - apply fraction_mul_positive in E.
    exact (sign_transfer E Hsign).
  - destruct (Qlt_le_dec 0 (F (br_a s) * F (br_c s))) as [H|H]; [|exact H].
    apply fraction_mul_positive in H. congruence.
Qed.

Lemma fraction_sign_iterations (eps : Q) (max_its : Z) n c c' :
  iterations (@bisection_cond fraction (@total fraction F) eps max_its)
    (@bisection_body fraction (@total fraction F)) n c c' ->
  F (br_a (fst c)) * F (br_b (fst c)) <= 0 ->
  F (br_a (fst c')) * F (br_b (fst c')) <= 0.
Proof.
  induction 1 as [c|n s w w1 s1 w2 c Hc Hb Hit IH]; intros Hsign.
  - exact Hsign.
  - apply fraction_body_inv in Hb. subst s1. cbn [fst] in *.
    apply IH. apply fraction_next_sign. exact Hsign.
Qed.

(** X8. Over fractions [bisection] keeps the sign change bracketed: on a
    bracket that passes the sign check, after any number of iterations the
    values of [f] at the two ends have a product that is not positive,
    whichever end was replaced. *)
Theorem fraction_keeps_sign_change (x_0 x_1 eps : Q) (max_its : Z) (k : nat)
    (w w' : @trace fraction) (s : @bracket fraction) :
  @valid_bracket fraction F x_0 x_1 ->
  iterations (@bisection_cond fraction (@total fraction F) eps max_its)
    (@bisection_body fraction (@total fraction F)) k
    (@bisection_start fraction x_0 x_1, w) (s, w') ->
  F (br_a s) * F (br_b s) <= 0.
Proof.
  intros Hvalid Hit. apply fraction_valid_bracket in Hvalid.
  exact (fraction_sign_iterations Hit Hvalid).
Qed.

(** The counter follows the iterations, and an iteration is made within the
    cap only. *)
Lemma fraction_iterations_counter (eps : Q) (max_its : Z) n c c' :
  iterations (@bisection_cond fraction (@total fraction F) eps max_its)
    (@bisection_body fraction (@total fraction F)) n c c' ->
  (br_k (fst c') = br_k (fst c) + Z.of_nat n)%Z /\
  ((0 < n)%nat -> (br_k (fst c) + Z.of_nat n - 1 <= max_its)%Z).
Proof.
  induction 1 as [c|n s w w1 s1 w2 c Hc Hb Hit IH]; cbn [fst] in *.
  - split; [lia|]. intros H; lia.
  - apply bisection_cond_true in Hc. apply bisection_body_counter in Hb.
    destruct IH as [IH1 IH2]. split; [lia|]. intros _.
    destruct n as [|n]; [lia|]. specialize (IH2 ltac:(lia)). lia.
Qed.

Lemma fraction_le_eps (p eps : Q) :
  @gtb fraction (@abs fraction p) eps = false <-> Qabs p <= eps.
Proof.
  change (@gtb fraction (@abs fraction p) eps)
    with (negb (Qle_bool (Qred (Qabs p)) eps)).
  destruct (Qle_bool (Qred (Qabs p)) eps) eqn:E; simpl.
  - apply Qle_bool_iff in E. rewrite Qred_correct in E.
    split; [intros _; exact E | reflexivity].
  - split; [discriminate|]. intros H.
    assert (H' : Qred (Qabs p) <= eps) by (rewrite Qred_correct; exact H).
    apply Qle_bool_iff in H'. congruence.
Qed.

(** X9. What a value returned by [bisection] over fractions comes with, for a
    cap that is not negative: it is the midpoint of a bracket [a], [b]
    reached after some [k <= max_its] iterations, at whose ends [f] has a
    product that is not positive, whose width is the initial width divided by
    [2^k], and [|f(r)| <= eps]. *)
Theorem fraction_bisection_certificate (x_0 x_1 eps : Q) (max_its : Z)
    (w : @trace fraction) (r : Q) :
  @valid_bracket fraction F x_0 x_1 ->
  (0 <= max_its)%Z ->
  fst (@bisection fraction (@total fraction F) x_0 x_1 eps max_its w)
  = Value r ->
  exists (a b : Q) (k : nat),
    r == (a + b) / 2 /\
    F a * F b <= 0 /\
    Qabs (b - a) * @pow2 fraction k == Qabs (x_1 - x_0) /\
    (Z.of_nat k <= max_its)%Z /\
    Qabs (F r) <= eps.
Proof.
  intros Hvalid Hcap H.
  pose proof (@bisection_Value fraction F eps max_its x_0 x_1 w r Hcap H)
    as Htol.
  apply fraction_le_eps in Htol.
  rewrite (@bisection_run fraction) in H. rewrite Hvalid in H.
  apply (@bisection_from_Value_state fraction) in H.
  destruct H as (n & s' & w' & Hit & Hr). subst r.
  pose proof (fraction_width_iterations Hit (fraction_mid x_0 x_1))
    as [Hmid Hwidth].
  pose proof (fraction_iterations_counter Hit) as [_ Hcount].
  apply fraction_valid_bracket in Hvalid.
  pose proof (fraction_sign_iterations Hit Hvalid) as Hsign.
  cbn [fst bisection_start br_a br_b br_c br_k] in *.
  exists (br_a s'), (br_b s'), n.
  split; [exact Hmid|]. split; [exact Hsign|]. split; [exact Hwidth|].
  split; [|exact Htol].
  destruct n as [|n]; [lia|]. specialize (Hcount ltac:(lia)). lia.
Qed.

(** *** Exchanging the two ends *)

Lemma fraction_mid_comm (a b : Q) : @mid fraction a b = @mid fraction b a.
Proof.
  change (Qred (Qred (a + b) / 2) = Qred (Qred (b + a) / 2)).
  rewrite (Qred_complete (a + b) (b + a)) by ring. reflexivity.
Qed.

Lemma fraction_mul_comm (p q : Q) : @mul fraction p q = @mul fraction q p.
Proof.
  change (Qred (p * q) = Qred (q * p)). apply Qred_complete. ring.
Qed.

(** With a strict sign change between the ends and a midpoint where [f] is
    not zero, [f] at the midpoint agrees in sign with exactly one end. *)
Lemma sign_exclusive (p q r : Q) :
  p * q < 0 -> ~ r == 0 -> (0 < p * r <-> ~ 0 < q * r).
Proof.
  intros Hpq Hr.
  assert (Hrr : 0 < r * r).
  { destruct (Qlt_le_dec 0 r) as [H|H]; [nra|].
    destruct (Qlt_le_dec r 0) as [H'|H']; [nra|].
    exfalso. apply Hr. lra. }
  assert (Hprod : (p * r) * (q * r) == (p * q) * (r * r)) by ring.
  assert (Hneg : (p * q) * (r * r) < 0) by nra.
  split.
  - intros H1 H2.
    assert (0 < (p * r) * (q * r)) by (apply Qmult_lt_0_compat; assumption).
    lra.
  - intros H2.
    destruct (Qlt_le_dec 0 (p * r)) as [H|H]; [exact H|].
    assert (Hq : q * r <= 0) by lra.
    assert (0 <= (p * r) * (q * r)) by nra.
    lra.
Qed.

Lemma fraction_above_eps (p eps : Q) :
  0 <= eps -> @gtb fraction (@abs fraction p) eps = true -> ~ p == 0.
Proof.
  intros Heps H Hp.
  assert (Hle : Qabs p <= eps) by (rewrite Hp; exact Heps).
  apply fraction_le_eps in Hle. congruence.
Qed.

(** One iteration on the bracket with its ends exchanged is the iteration on
    the bracket, with its ends exchanged. *)
Lemma fraction_next_mirror (s : @bracket fraction) (eps : Q) :
  0 <= eps ->
  F (br_a s) * F (br_b s) < 0 ->
  @gtb fraction (@abs fraction (F (br_c s))) eps = true ->
  @bisection_next fraction F (mirror s)
  = mirror (@bisection_next fraction F s) /\
  F (br_a (@bisection_next fraction F s))
  * F (br_b (@bisection_next fraction F s)) < 0.
Proof.
  intros Heps Hsign Hc. apply (fraction_above_eps Heps) in Hc.
  pose proof (sign_exclusive Hsign Hc) as Hex.
  unfold bisection_next, mirror. cbn [br_a br_b br_c br_k].
  destruct (@gtb fraction (@mul fraction (F (br_a s)) (F (br_c s)))
              (@zero fraction)) eqn:Ea;
    destruct (@gtb fraction (@mul fraction (F (br_b s)) (F (br_c s)))
                (@zero fraction)) eqn:Eb.
  - apply fraction_mul_positive in Ea. apply fraction_mul_positive in Eb.
    exfalso. apply (proj1 Hex Ea). exact Eb.
  - apply fraction_mul_positive in Ea. split.
    + rewrite (fraction_mid_comm (br_b s) (br_c s)). reflexivity.
    + destruct (Qlt_le_dec (F (br_c s) * F (br_b s)) 0) as [H|H];
        [exact H|].
      exfalso.
      assert (Hz : ~ F (br_b s) * F (br_c s) == 0).
      { intros Hz.
        assert (F (br_b s) == 0 \/ F (br_c s) == 0) as [H0|H0]
            by (apply Qmult_integral; exact Hz).
        - rewrite H0 in Hsign. lra.
        - exact (Hc H0). }
      assert (Hpos : 0 < F (br_b s) * F (br_c s)).
      { destruct (Qlt_le_dec 0 (F (br_b s) * F (br_c s))) as [H1|H1];
          [exact H1|].
        exfalso. apply Hz. lra. }
      apply fraction_mul_positive in Hpos. congruence.
  - apply fraction_mul_positive in Eb. split.
    + rewrite (fraction_mid_comm (br_c s) (br_a s)). reflexivity.
    + destruct (Qlt_le_dec (F (br_a s) * F (br_c s)) 0) as [H|H];
        [exact H|].
      exfalso.
      assert (Hz : ~ F (br_a s) * F (br_c s) == 0).
      { intros Hz.
        assert (F (br_a s) == 0 \/ F (br_c s) == 0) as [H0|H0]
            by (apply Qmult_integral; exact Hz).
        - rewrite H0 in Hsign. lra.
        - exact (Hc H0). }
      assert (Hpos : 0 < F (br_a s) * F (br_c s)).
      { destruct (Qlt_le_dec 0 (F (br_a s) * F (br_c s))) as [H1|H1];
          [exact H1|].
        exfalso. apply Hz. lra. }
      apply fraction_mul_positive in Hpos. congruence.
  - exfalso.
    assert (Ha : ~ 0 < F (br_a s) * F (br_c s))
      by (intros H; apply fraction_mul_positive in H; congruence).
    assert (Hb' : ~ 0 < F (br_b s) * F (br_c s))
      by (intros H; apply fraction_mul_positive in H; congruence).
    apply Ha. apply (proj2 Hex). exact Hb'.
Qed.

Lemma fraction_from_mirror (eps : Q) (max_its : Z) fuel :
  0 <= eps ->
  forall (s : @bracket fraction) (w w' : @trace fraction),
    F (br_a s) * F (br_b s) < 0 ->
    fst (@bisection_from fraction (@total fraction F) eps max_its s fuel w)
    = fst (@bisection_from fraction (@total fraction F) eps max_its
             (mirror s) fuel w').
Proof.
  intros Heps. induction fuel as [|fuel IH]; intros s w w' Hsign.
  - reflexivity.
  - rewrite !(@bisection_from_step fraction).
    change (br_c (mirror s)) with (br_c s).
    change (br_k (mirror s)) with (br_k s).
    destruct (@gtb fraction (@abs fraction (F (br_c s))) eps) eqn:Hc;
      cbn [andb].
    + destruct (br_k s <=? max_its)%Z.
      * destruct (fraction_next_mirror s Heps Hsign Hc) as [Hm Hs].
        rewrite Hm. apply IH. exact Hs.
      * destruct (br_k s =? max_its + 1)%Z; reflexivity.
    + rewrite andb_false_r. reflexivity.
Qed.

(** X10. Over fractions the order of the two ends does not matter to what
    [bisection] ends in, for a tolerance that is not negative and a product
    [f(x_0)*f(x_1)] that is not zero: called on [(x_1, x_0)] it returns the
    same value or raises the same exception as on [(x_0, x_1)]. *)
Theorem fraction_bisection_symmetric (x_0 x_1 eps : Q) (max_its : Z)
    (w : @trace fraction) :
  0 <= eps ->
  ~ F x_0 * F x_1 == 0 ->
  fst (@bisection fraction (@total fraction F) x_0 x_1 eps max_its w)
  = fst (@bisection fraction (@total fraction F) x_1 x_0 eps max_its w).
Proof.
  intros Heps Hnz. rewrite !(@bisection_run fraction).
  rewrite (fraction_mul_comm (F x_1) (F x_0)).
  destruct (@gtb fraction (@mul fraction (F x_0) (F x_1)) (@zero fraction))
    eqn:E; [reflexivity|].
  assert (Hneg : F x_0 * F x_1 < 0).
  { destruct (Qlt_le_dec (F x_0 * F x_1) 0) as [H|H]; [exact H|].
    exfalso.
    destruct (Qlt_le_dec 0 (F x_0 * F x_1)) as [H1|H1].
    - apply fraction_mul_positive in H1. congruence.
    - apply Hnz. lra. }
  replace (@bisection_start fraction x_1 x_0)
    with (mirror (@bisection_start fraction x_0 x_1))
    by (unfold mirror, bisection_start; cbn [br_a br_b br_c br_k];
        rewrite (fraction_mid_comm x_0 x_1); reflexivity).
  apply fraction_from_mirror; [exact Heps | exact Hneg].
Qed.

End FractionBisection.

(** ** Exact arithmetic: Newton-Raphson on a line *)

Section FractionNewton.

Local Open Scope Q_scope.

Import Examples.

Variables (m q : Q).

Lemma line_newton_step (x : Q) :
  ~ m == 0 ->
  @sub fraction x (@div fraction (line m q x) (slope m x)) == - q / m.
Proof.
  intros Hm.
  change (Qred (x - Qred ((m * x + q) / m)) == - q / m).
  rewrite !Qred_correct. field. exact Hm.
Qed.

(** X11. Over fractions Newton-Raphson solves a line in one update: for
    [f(x) = m*x + q] with [m] not zero, its derivative [m], a tolerance that
    is not negative and a cap of at least 1, [newton_raphson] never fails.
    When [|f(x_0)| <= eps] already it returns [x_0] itself, with no update;
    otherwise it returns the root [-q/m], in lowest terms.  Either way the
    returned value is within the tolerance. *)
Theorem fraction_newton_line (x_0 eps : Q) (max_its : Z)
    (w : @trace fraction) :
  ~ m == 0 ->
  0 <= eps ->
  (1 <= max_its)%Z ->
  (Qabs (m * x_0 + q) <= eps ->
   fst (@newton_raphson fraction (@total fraction (line m q))
          (@total fraction (slope m)) x_0 eps max_its w) = Value x_0) /\
  (~ Qabs (m * x_0 + q) <= eps ->
   fst (@newton_raphson fraction (@total fraction (line m q))
          (@total fraction (slope m)) x_0 eps max_its w)
   = Value (Qred (- q / m))) /\
  (exists r : Q,
     fst (@newton_raphson fraction (@total fraction (line m q))
            (@total fraction (slope m)) x_0 eps max_its w) = Value r /\
     Qabs (m * r + q) <= eps).
Proof.
  intros Hm Heps Hcap.
  rewrite (@newton_raphson_from fraction). unfold loop_fuel.
  destruct (Z.to_nat max_its) as [|n] eqn:En; [lia|].
  rewrite (@newton_from_step fraction).
  destruct (@gtb fraction (@abs fraction (line m q x_0)) eps) eqn:E0;
    cbn [andb].
  - replace (1 <=? max_its)%Z with true by (symmetry; apply Z.leb_le; lia).
    assert (Hz : @eqb fraction (slope m x_0) (@zero fraction) = false).
    { change (Qeq_bool m 0 = false).
      destruct (Qeq_bool m 0) eqn:Em; [|reflexivity].
      apply Qeq_bool_iff in Em. contradiction. }
    rewrite Hz.
    pose proof (line_newton_step x_0 Hm) as Hroot.
    assert (Hlow : @sub fraction x_0
                     (@div fraction (line m q x_0) (slope m x_0))
                   = Qred (- q / m)).
    { change (Qred (x_0 - Qred ((m * x_0 + q) / m)) = Qred (- q / m)).
      apply Qred_complete. rewrite Qred_correct. field. exact Hm. }
    rewrite Hlow in *.
    assert (Hval : m * Qred (- q / m) + q == 0)
      by (rewrite Hroot; field; exact Hm).
    assert (Hle : Qabs (line m q (Qred (- q / m))) <= eps).
    { unfold line. rewrite Hval. exact Heps. }
    rewrite (@newton_from_step fraction).
    apply fraction_le_eps in Hle. rewrite Hle. cbn [andb].
    rewrite andb_false_r.
    split; [|split].
    + intros H0. apply fraction_le_eps in H0. unfold line in E0. congruence.
    + intros _. reflexivity.
    + exists (Qred (- q / m)). split; [reflexivity|].
      rewrite Hval. exact Heps.
  - rewrite andb_false_r.
    apply fraction_le_eps in E0. unfold line in E0.
    split; [|split].
    + intros _. reflexivity.
    + intros H0. contradiction.
    + exists x_0. split; [reflexivity | exact E0].
Qed.

End FractionNewton.

(** ** How many calls an iteration takes *)

Section Cost.

Context {N : PyNum}.

Variables (F DF : num -> num) (eps : num) (max_its : Z).

Lemma newton_from_cost fuel :
  forall x k w,
    fst (newton_from (total F) (total DF) eps max_its (x, k) fuel w)
    <> OutOfFuel ->
    fst (newton_from (total F) (total DF) eps max_its (x, k) fuel w)
    <> Raised ZeroDivisionError ->
    exists n : nat,
      calls_df (snd (newton_from (total F) (total DF) eps max_its (x, k)
                       fuel w)) = (calls_df w + n)%nat /\
      calls_f (snd (newton_from (total F) (total DF) eps max_its (x, k)
                      fuel w)) = (calls_f w + 2 * n + 2)%nat /\
      (fst (newton_from (total F) (total DF) eps max_its (x, k) fuel w)
       = Raised (ConvergenceError "Max Iteration Reached") ->
       Z.of_nat n = max_its + 1 - k).
Proof.
  induction fuel as [|fuel IH]; intros x k w Hfuel Hzero.
  - exfalso. apply Hfuel. reflexivity.
  - rewrite newton_from_step in *.
    destruct (gtb (abs (F x)) eps && (k <=? max_its)) eqn:Hc.
    + destruct (eqb (DF x) zero); [exfalso; apply Hzero; reflexivity|].
      destruct (IH _ _ _ Hfuel Hzero) as (n & Hd & Hf & Hfail).
      exists (Datatypes.S n).
      rewrite Hd, Hf, calls_df_app, calls_f_app.
      unfold calls_df, calls_f; simpl.
      split; [lia|]. split; [lia|]. intros H. specialize (Hfail H). lia.
    + exists O. destruct ((k =? max_its + 1) && gtb (abs (F x)) eps) eqn:Hk;
        cbn [fst snd]; rewrite calls_df_app, calls_f_app;
        unfold calls_df, calls_f; simpl.
      * split; [lia|]. split; [lia|]. intros _.
        apply andb_prop in Hk. destruct Hk as [Hk _].
        apply Z.eqb_eq in Hk. lia.
      * split; [lia|]. split; [lia|]. discriminate.
Qed.

Lemma bisection_from_cost fuel :
  forall s w,
    fst (bisection_from (total F) eps max_its s fuel w) <> OutOfFuel ->
    exists n : nat,
      calls_f (snd (bisection_from (total F) eps max_its s fuel w))
      = (calls_f w + 3 * n + 2)%nat /\
      (fst (bisection_from (total F) eps max_its s fuel w)
       = Raised (ConvergenceError "Max Iteration Reached") ->
       Z.of_nat n = max_its + 1 - br_k s).
Proof.
  induction fuel as [|fuel IH]; intros s w Hfuel.
  - exfalso. apply Hfuel. reflexivity.
  - rewrite bisection_from_step in *.
    destruct (gtb (abs (F (br_c s))) eps && (br_k s <=? max_its)) eqn:Hc.
    + destruct (IH _ _ Hfuel) as (n & Hf & Hfail).
      exists (Datatypes.S n). rewrite Hf, calls_f_app.
      unfold calls_f; simpl. split; [lia|].
      intros H. specialize (Hfail H). simpl in Hfail. lia.
    + exists O.
      destruct ((br_k s =? max_its + 1) && gtb (abs (F (br_c s))) eps)
        eqn:Hk; cbn [fst snd]; rewrite calls_f_app; unfold calls_f; simpl.
      * split; [lia|]. intros _.
        apply andb_prop in Hk. destruct Hk as [Hk _].
        apply Z.eqb_eq in Hk. lia.
      * split; [lia|]. discriminate.
Qed.

(** X12. What an iteration costs, for callables that return.  A call of
    [newton_raphson] that does not end in [ZeroDivisionError] made some [n]
    updates, with [n] calls of [df] and [2n + 2] calls of [f]: [f] is called
    twice per update and twice more at the end.  A call of [bisection] on a
    bracket that passes the sign check made [n] iterations with [3n + 4]
    calls of [f].  In both, a [ConvergenceError] comes after exactly
    [max_its] iterations. *)
Theorem iteration_cost (x_0 x_1 : num) (w : trace) :
  (fst (newton_raphson (total F) (total DF) x_0 eps max_its w)
   <> Raised ZeroDivisionError ->
   exists n : nat,
     calls_df (snd (newton_raphson (total F) (total DF) x_0 eps max_its w))
     = (calls_df w + n)%nat /\
     calls_f (snd (newton_raphson (total F) (total DF) x_0 eps max_its w))
     = (calls_f w + 2 * n + 2)%nat /\
     (fst (newton_raphson (total F) (total DF) x_0 eps max_its w)
      = Raised (ConvergenceError "Max Iteration Reached") ->
      Z.of_nat n = max_its)) /\
  (valid_bracket F x_0 x_1 ->
   exists n : nat,
     calls_f (snd (bisection (total F) x_0 x_1 eps max_its w))
     = (calls_f w + 3 * n + 4)%nat /\
     (fst (bisection (total F) x_0 x_1 eps max_its w)
      = Raised (ConvergenceError "Max Iteration Reached") ->
      Z.of_nat n = max_its)).
Proof.
  split.
  - intros Hzero.
    pose proof (terminates_newton_raphson (total F) (total DF) x_0 eps
                  max_its w) as Hfuel.
    rewrite newton_raphson_from in *.
    destruct (newton_from_cost _ _ _ _ Hfuel Hzero) as (n & Hd & Hf & Hfail).
    exists n. split; [exact Hd|]. split; [exact Hf|].
    intros H. specialize (Hfail H). lia.
  - intros Hvalid.
    pose proof (terminates_bisection (total F) x_0 x_1 eps max_its w)
      as Hfuel.
    rewrite bisection_run, Hvalid in *.
    destruct (bisection_from_cost _ _ _ Hfuel) as (n & Hf & Hfail).
    exists n. rewrite Hf, calls_f_app. unfold calls_f at 2; simpl.
    split; [lia|]. intros H. specialize (Hfail H). simpl in Hfail. lia.
Qed.

End Cost.

(** ** The further properties at concrete inputs *)

Module MoreWitnesses.

Import Examples.

Local Open Scope float_scope.

(** With the cap [-1], Newton-Raphson on [x^2 - 2] returns the start [1]
    although [f(1) = -1], and does not call the derivative. *)
Lemma negative_cap_witness :
  @newton_raphson float64 (@total float64 parabola) faulty 1 default_eps
    (-1) []
  = (Value 1, [@CallF float64 1; @CallF float64 1]).
Proof.
  apply (@newton_raphson_nonpositive_cap float64 (@total float64 parabola)
           faulty 1 default_eps (parabola 1) (-1) [] eq_refl).
  discriminate.
Defined.

(** With the cap [0], bisection on [x^2 - 2] over [1, 2] raises after
    testing the midpoint [1.5]. *)
Lemma zero_cap_witness :
  @bisection float64 (@total float64 parabola) 1 2 default_eps 0 []
  = (Raised (ConvergenceError "Max Iteration Reached"),
     [@CallF float64 1; @CallF float64 2; @CallF float64 1.5;
      @CallF float64 1.5]).
Proof.
  apply (@bisection_nonpositive_cap float64 parabola 1 2 default_eps 0 []
           eq_refl).
  discriminate.
Defined.

(** With the tolerance [0.5], bisection on [x^2 - 2] over [1, 2] returns the
    first midpoint [1.5], where [f] is [0.25]. *)
Lemma first_midpoint_witness :
  @bisection float64 (@total float64 parabola) 1 2 0.5 20 []
  = (Value 1.5,
     [@CallF float64 1; @CallF float64 2; @CallF float64 1.5;
      @CallF float64 1.5]).
Proof.
  apply (@bisection_converged_at_start float64 parabola 1 2 0.5 20 []
           eq_refl eq_refl).
Defined.

Local Open Scope Q_scope.

(** Over fractions, after two iterations on [x^2 - 2] over [1, 2] the ends
    [5/4] and [3/2] still have values of opposite signs. *)
Lemma sign_change_witness :
  qparabola (br_a qstate2) * qparabola (br_b qstate2) <= 0.
Proof.
  eapply (@fraction_keeps_sign_change qparabola 1 2 (1 # 10) 20%Z 2%nat
            [] _ qstate2).
  - reflexivity.
  - eapply iterations_S; [reflexivity | reflexivity |].
    eapply iterations_S; [reflexivity | reflexivity |].
    apply iterations_O.
Defined.

(** Over fractions, bisection on [x^2 - 2] over [1, 2] with tolerance [1/10]
    returns [23/16], which comes with its bracket. *)
Lemma certificate_witness :
  exists (a b : Q) (k : nat),
    (23 # 16) == (a + b) / 2 /\
    qparabola a * qparabola b <= 0 /\
    Qabs (b - a) * @pow2 fraction k == Qabs (2 - 1) /\
    (Z.of_nat k <= 20)%Z /\
    Qabs (qparabola (23 # 16)) <= (1 # 10).
Proof.
  apply (@fraction_bisection_certificate qparabola 1 2 (1 # 10) 20%Z []
           (23 # 16)); [reflexivity | discriminate | reflexivity].
Defined.

(** Over fractions, bisection on [x^2 - 2] ends the same way over [1, 2] and
    over [2, 1]. *)
Lemma symmetric_witness :
  fst (@bisection fraction (@total fraction qparabola) 1 2 (1 # 10) 20 [])
  = fst (@bisection fraction (@total fraction qparabola) 2 1 (1 # 10) 20 []).
Proof.
  apply (@fraction_bisection_symmetric qparabola 1 2 (1 # 10) 20%Z []);
    [discriminate | discriminate].
Defined.

(** Over fractions, Newton-Raphson on [2x - 3] with the cap [1]: from [1]
    with the tolerance [2] it returns [1], since [|f(1)| = 1] is within the
    tolerance; from [0] with the tolerance [0] it returns the root [3/2]. *)
Lemma line_witness :
  fst (@newton_raphson fraction (@total fraction (line 2 (- (3))))
         (@total fraction (slope 2)) 1 2 1 []) = Value 1 /\
  fst (@newton_raphson fraction (@total fraction (line 2 (- (3))))
         (@total fraction (slope 2)) 0 0 1 []) = Value (3 # 2).
Proof.
  split.
  - apply (@fraction_newton_line 2 (- (3)) 1 2 1%Z []);
      discriminate.
  - apply (proj2 (@fraction_newton_line 2 (- (3)) 0 0 1%Z []
                    ltac:(discriminate) ltac:(discriminate)
                    ltac:(discriminate))).
    intros H. apply H. reflexivity.
Defined.

(** Over fractions, Newton-Raphson on [x^2 - 2] from [1] returns [577/408],
    which is within the tolerance [1/100000]. *)
Lemma fraction_tolerance_witness :
  @leb fraction (@abs fraction (qparabola (577 # 408))) (1 # 100000) = true.
Proof.
  apply (@fraction_tolerance_contract qparabola qparabola' 1 2 (1 # 100000)
           20%Z 20%Z [] (577 # 408));
    [reflexivity | reflexivity | reflexivity | left; vm_compute; reflexivity].
Defined.

End MoreWitnesses.
